(** * A shallow embedding of the URI parser, validator and builder
      (package [uri]: uri.go, decode.go, dns.go, builder.go) *)

From Stdlib Require Import ZArith List Ascii String Bool Lia Zbitwise.
Import ListNotations.
Open Scope Z_scope.

(** ** Go strings, bytes and runes *)

(** A Go [string] is an immutable sequence of bytes; a [rune] is an [int32]
    code point, an index or a length is an [int]. *)
Definition gostring := list ascii.
Definition rune := Z.

Definition str (s : String.string) : gostring := list_ascii_of_string s.

(** Numeric value of a byte, [0 <= b2z c < 256]. *)
Definition b2z (c : ascii) : Z := Z.of_N (N_of_ascii c).

Definition len (s : gostring) : Z := Z.of_nat (List.length s).

(** [s[i:]], [s[:j]] and [s[i:j]]; every use in the sources is in range. *)
Definition from (s : gostring) (i : Z) : gostring := skipn (Z.to_nat i) s.
Definition upto (s : gostring) (j : Z) : gostring := firstn (Z.to_nat j) s.
Definition slice (s : gostring) (i j : Z) : gostring := upto (from s i) (j - i).

(** [s[i]], read under a bounds guard in the sources. *)
Definition at_ (s : gostring) (i : Z) : ascii := nth (Z.to_nat i) s zero.

Definition streq (a b : gostring) : bool :=
  if list_eq_dec ascii_dec a b then true else false.

Definition isEmpty (s : gostring) : bool :=
  match s with [] => true | _ => false end.

Module strings.

(** [strings.IndexByte]: index of the first [c] in [s], or -1. *)
Fixpoint IndexByte (s : gostring) (c : ascii) : Z :=
  match s with
  | [] => -1
  | x :: s' =>
      if Ascii.eqb x c then 0
      else let i := IndexByte s' c in if i <? 0 then -1 else i + 1
  end.

Fixpoint HasPrefix (s prefix : gostring) : bool :=
  match prefix, s with
  | [], _ => true
  | p :: prefix', x :: s' => Ascii.eqb x p && HasPrefix s' prefix'
  | _ :: _, [] => false
  end.

Definition TrimPrefix (s prefix : gostring) : gostring :=
  if HasPrefix s prefix then skipn (List.length prefix) s else s.

(** [strings.Builder]: the buffer is threaded explicitly. *)
Definition Builder := gostring.
Definition WriteString (buf : Builder) (s : gostring) : Builder := buf ++ s.
Definition WriteByte (buf : Builder) (c : ascii) : Builder := buf ++ [c].

End strings.

(** ** Character and string literals (uri.go, const block) *)

Definition colonMark : ascii := ":"%char.
Definition questionMark : ascii := "?"%char.
Definition fragmentMark : ascii := "#"%char.
Definition percentMark : ascii := "%"%char.
Definition atHost : ascii := "@"%char.
Definition slashMark : ascii := "/"%char.
Definition openingBracketMark : ascii := "["%char.
Definition closingBracketMark : ascii := "]"%char.
Definition dotSeparator : ascii := "."%char.
Definition authorityPrefix : gostring := str "//".

Definition maxSegmentLength : Z := 63.
Definition maxDomainLength : Z := 255.

(** ** Errors *)

Inductive ErrKind : Set :=
| ErrInvalidURI | ErrNoSchemeFound | ErrInvalidScheme | ErrInvalidHost
| ErrInvalidDNSName | ErrInvalidRegisteredName | ErrInvalidHostAddress
| ErrInvalidPort | ErrMissingHost | ErrInvalidPath | ErrInvalidQuery
| ErrInvalidFragment | ErrInvalidUserInfo | ErrInvalidEscaping.

Definition ErrKind_eqb (a b : ErrKind) : bool :=
  match a, b with
  | ErrInvalidURI, ErrInvalidURI | ErrNoSchemeFound, ErrNoSchemeFound
  | ErrInvalidScheme, ErrInvalidScheme | ErrInvalidHost, ErrInvalidHost
  | ErrInvalidDNSName, ErrInvalidDNSName
  | ErrInvalidRegisteredName, ErrInvalidRegisteredName
  | ErrInvalidHostAddress, ErrInvalidHostAddress
  | ErrInvalidPort, ErrInvalidPort | ErrMissingHost, ErrMissingHost
  | ErrInvalidPath, ErrInvalidPath | ErrInvalidQuery, ErrInvalidQuery
  | ErrInvalidFragment, ErrInvalidFragment
  | ErrInvalidUserInfo, ErrInvalidUserInfo
  | ErrInvalidEscaping, ErrInvalidEscaping => true
  | _, _ => false
  end.

(** Modelled from the spec: errors.go is not among the sources. An error is
    either one of the sentinel kinds, a formatted message ([fmt.Errorf]), or
    a join of errors; "errors compose via a join operator so that
    [is(err, Kind)] succeeds on any wrapped occurrence". A nil [error] is
    [None] of [option error]. *)
Inductive error : Set :=
| Sentinel (k : ErrKind)
| Errorf (msg : String.string)
| Join (e1 e2 : error).

Definition errorsJoin (e1 e2 : error) : error := Join e1 e2.

Fixpoint errors_Is (e : error) (k : ErrKind) : bool :=
  match e with
  | Sentinel k' => ErrKind_eqb k' k
  | Errorf _ => false
  | Join e1 e2 => errors_Is e1 k || errors_Is e2 k
  end.

Coercion Sentinel : ErrKind >-> error.

(** ** unicode/utf8 and unicode (Go standard library) *)

Module utf8.

Definition RuneError : rune := 0xFFFD.
Definition RuneSelf : rune := 0x80.
Definition UTFMax : Z := 4.

Definition locb : Z := 0x80.
Definition hicb : Z := 0xBF.

(** The [first] table: for a lead byte, [None] when it is ASCII ([as]) or
    invalid ([xx]), otherwise the sequence size and the accepted range of
    the second byte. *)
Definition first (b : Z) : option (Z * (Z * Z)) :=
  if (0xC2 <=? b) && (b <=? 0xDF) then Some (2, (locb, hicb))
  else if b =? 0xE0 then Some (3, (0xA0, hicb))
  else if (0xE1 <=? b) && (b <=? 0xEC) then Some (3, (locb, hicb))
  else if b =? 0xED then Some (3, (locb, 0x9F))
  else if (0xEE <=? b) && (b <=? 0xEF) then Some (3, (locb, hicb))
  else if b =? 0xF0 then Some (4, (0x90, hicb))
  else if (0xF1 <=? b) && (b <=? 0xF3) then Some (4, (locb, hicb))
  else if b =? 0xF4 then Some (4, (locb, 0x8F))
  else None.

Definition iscont (b : Z) : bool := (locb <=? b) && (b <=? hicb).

(** [utf8.DecodeRune] (on a byte slice) and [utf8.DecodeRuneInString]
    (on a string): the first rune of [p] and its width in bytes; [(RuneError, 0)] on empty input and
    [(RuneError, 1)] on an invalid encoding. *)
Definition DecodeRune (p : list Z) : rune * Z :=
  match p with
  | [] => (RuneError, 0)
  | s0 :: rest =>
      if s0 <? RuneSelf then (s0, 1)
      else
        match first s0 with
        | None => (RuneError, 1)
        | Some (sz, (lo, hi)) =>
            if Z.of_nat (List.length p) <? sz then (RuneError, 1)
            else
              match rest with
              | s1 :: rest1 =>
                  if (s1 <? lo) || (hi <? s1) then (RuneError, 1)
                  else if sz <=? 2 then
                    (Z.lor (Z.shiftl (Z.land s0 0x1F) 6) (Z.land s1 0x3F), 2)
                  else
                    match rest1 with
                    | s2 :: rest2 =>
                        if negb (iscont s2) then (RuneError, 1)
                        else if sz <=? 3 then
                          (Z.lor (Z.lor (Z.shiftl (Z.land s0 0x0F) 12)
                                        (Z.shiftl (Z.land s1 0x3F) 6))
                                 (Z.land s2 0x3F), 3)
                        else
                          match rest2 with
                          | s3 :: _ =>
                              if negb (iscont s3) then (RuneError, 1)
                              else
                                (Z.lor (Z.lor (Z.lor
                                   (Z.shiftl (Z.land s0 0x07) 18)
                                   (Z.shiftl (Z.land s1 0x3F) 12))
                                   (Z.shiftl (Z.land s2 0x3F) 6))
                                   (Z.land s3 0x3F), 4)
                          | [] => (RuneError, 1)
                          end
                    | [] => (RuneError, 1)
                    end
              | [] => (RuneError, 1)
              end
        end
  end.

Definition DecodeRuneInString (s : gostring) : rune * Z :=
  DecodeRune (map b2z s).

(** A Unicode scalar value: a code point that is not a surrogate. *)
Definition ValidRune (r : rune) : bool :=
  ((0 <=? r) && (r <? 0xD800)) || ((0xDFFF <? r) && (r <=? 0x10FFFF)).

(** [utf8.AppendRune] on a scalar value: its UTF-8 encoding, as byte
    values. *)
Definition EncodeRune (r : rune) : list Z :=
  if r <? 0x80 then [r]
  else if r <? 0x800 then
    [Z.lor 0xC0 (Z.shiftr r 6); Z.lor 0x80 (Z.land r 0x3F)]
  else if r <? 0x10000 then
    [Z.lor 0xE0 (Z.shiftr r 12);
     Z.lor 0x80 (Z.land (Z.shiftr r 6) 0x3F);
     Z.lor 0x80 (Z.land r 0x3F)]
  else
    [Z.lor 0xF0 (Z.shiftr r 18);
     Z.lor 0x80 (Z.land (Z.shiftr r 12) 0x3F);
     Z.lor 0x80 (Z.land (Z.shiftr r 6) 0x3F);
     Z.lor 0x80 (Z.land r 0x3F)].

End utf8.

(** ** The parts of the build that are not among the sources

    [unicode.IsLetter] and [unicode.IsDigit] consult the Unicode tables of
    the Go standard library above U+00FF; [validateIPv4], [validateIPv6]
    and [validateIPvFuture] live in ip.go; [path.Join] is the standard
    library's. The embedding is parametric in them. *)
Class Extern : Type := {
  isExcludingLatin_Letter : rune -> bool;
  isExcludingLatin_Digit : rune -> bool;
  validateIPv4 : gostring -> option error;
  validateIPv6 : gostring -> option error;
  validateIPvFuture : gostring -> option error;
  path_Join : list gostring -> gostring
}.

Module unicode.

Definition MaxLatin1 : rune := 0xFF.

(** The letters of the Latin-1 [properties] table. *)
Definition latin1Letter (r : rune) : bool :=
  ((0x41 <=? r) && (r <=? 0x5A)) || ((0x61 <=? r) && (r <=? 0x7A))
  || (r =? 0xAA) || (r =? 0xB5) || (r =? 0xBA)
  || ((0xC0 <=? r) && (r <=? 0xD6)) || ((0xD8 <=? r) && (r <=? 0xF6))
  || ((0xF8 <=? r) && (r <=? 0xFF)).

Definition IsLetter `{Extern} (r : rune) : bool :=
  if (0 <=? r) && (r <=? MaxLatin1) then latin1Letter r
  else isExcludingLatin_Letter r.

Definition IsDigit `{Extern} (r : rune) : bool :=
  if (0 <=? r) && (r <=? MaxLatin1) then (0x30 <=? r) && (r <=? 0x39)
  else isExcludingLatin_Digit r.

(** [unicode.In] on a table of stride-1 ranges. *)
Definition In (r : rune) (table : list (Z * Z)) : bool :=
  existsb (fun rg => (fst rg <=? r) && (r <=? snd rg)) table.

End unicode.

(** ** decode.go *)

Definition isDigit (r : Z) : bool := (0x30 <=? r) && (r <=? 0x39).

Definition isNotDigit (r : Z) : bool := (r <? 0x30) || (0x39 <? r).

Definition isHex (c : Z) : bool :=
  if isDigit c then true
  else if (0x61 <=? c) && (c <=? 0x66) then true
  else if (0x41 <=? c) && (c <=? 0x46) then true
  else false.

Definition isASCIILetter (c : Z) : bool :=
  ((0x61 <=? c) && (c <=? 0x7A)) || ((0x41 <=? c) && (c <=? 0x5A)).

Definition unhex (c : Z) : Z :=
  if (0x30 <=? c) && (c <=? 0x39) then c - 0x30
  else if (0x61 <=? c) && (c <=? 0x66) then c - 0x61 + 10
  else if (0x41 <=? c) && (c <=? 0x46) then c - 0x41 + 10
  else 0.

Definition ucschar : list (Z * Z) :=
  [ (0x000A0, 0x0D7FF); (0x0F900, 0x0FDCF); (0x0FDF0, 0x0FFEF);
    (0x10000, 0x1FFFD); (0x20000, 0x2FFFD); (0x30000, 0x3FFFD);
    (0x40000, 0x4FFFD); (0x50000, 0x5FFFD); (0x60000, 0x6FFFD);
    (0x70000, 0x7FFFD); (0x80000, 0x8FFFD); (0x90000, 0x9FFFD);
    (0xA0000, 0xAFFFD); (0xB0000, 0xBFFFD); (0xC0000, 0xCFFFD);
    (0xD0000, 0xDFFFD); (0xE1000, 0xEFFFD) ].

Definition isUcsChar (r : rune) : bool := unicode.In r ucschar.

Definition unescapeSequence (escapeSequence : gostring) : Z * option error :=
  if len escapeSequence <? 2 then
    (0, Some (Errorf "expected escaping '%' to be followed by 2 hex digits"))
  else if negb (isHex (b2z (at_ escapeSequence 0)))
          || negb (isHex (b2z (at_ escapeSequence 1))) then
    (0, Some (Errorf "part contains a malformed percent-encoded hex digit"))
  else
    (Z.lor (Z.shiftl (unhex (b2z (at_ escapeSequence 0))) 4)
           (unhex (b2z (at_ escapeSequence 1))), None).

Definition errExpectedPercent : error :=
  Errorf "expected a '%' escape character".

(** The last step of [unescapePercentEncoding]: decode the collected
    [codePoint[:codePointLength]]. *)
Definition decodeCodePoint (codePoint : list Z) (offset : Z)
  : rune * Z * option error :=
  let '(unescapedRune, _) := utf8.DecodeRune codePoint in
  if unescapedRune =? utf8.RuneError then
    (utf8.RuneError, 0,
     Some (Errorf "the escaped code points do not add up to a valid rune"))
  else (unescapedRune, offset, None).

(** One more escaped byte is expected at [s[offset:]]: a ['%'] then two hex
    digits. Returns the byte and the new offset. *)
Definition nextEscaped (s : gostring) (offset : Z)
  : (rune * Z * option error) + (Z * Z) :=
  if len s <=? offset then inl (0, 0, Some errExpectedPercent)
  else if negb (Ascii.eqb (at_ s offset) percentMark) then
    inl (0, 0, Some errExpectedPercent)
  else
    let offset := offset + 1 in
    match unescapeSequence (from s offset) with
    | (_, Some err) => inl (utf8.RuneError, 0, Some err)
    | (b, None) => inr (b, offset + 2)
    end.

Definition unescapePercentEncoding (s : gostring) : rune * Z * option error :=
  match unescapeSequence s with
  | (_, Some err) => (utf8.RuneError, 0, Some err)
  | (c0, None) =>
      let offset := 2 in
      if 0xC0 <=? c0 then
        match nextEscaped s offset with
        | inl r => r
        | inr (c1, offset) =>
            if 0xE0 <=? c0 then
              match nextEscaped s offset with
              | inl r => r
              | inr (c2, offset) =>
                  if 0xF0 <=? c0 then
                    match nextEscaped s offset with
                    | inl r => r
                    | inr (c3, offset) =>
                        decodeCodePoint [c0; c1; c2; c3] offset
                    end
                  else decodeCodePoint [c0; c1; c2] offset
              end
            else decodeCodePoint [c0; c1] offset
        end
      else decodeCodePoint [c0] offset
  end.

Definition errIncompleteEscape : error :=
  errorsJoin ErrInvalidEscaping (Errorf "incomplete escape sequence").

Section Decode.
Context `{Extern}.

(** The character test of [validateUnreservedWithExtra]: [true] when [r]
    is outside unreserved, ucschar and sub-delims. *)
Definition notUnreservedOrSubDelims (r : rune) : bool :=
  negb (unicode.IsLetter r) && negb (unicode.IsDigit r)
  && negb (r =? 0x2D) && negb (r =? 0x2E) && negb (r =? 0x5F)
  && negb (r =? 0x7E)
  && negb (isUcsChar r)
  && negb (r =? 0x21) && negb (r =? 0x24) && negb (r =? 0x26)
  && negb (r =? 0x27) && negb (r =? 0x28) && negb (r =? 0x29)
  && negb (r =? 0x2A) && negb (r =? 0x2B) && negb (r =? 0x2C)
  && negb (r =? 0x3B) && negb (r =? 0x3D).

(** The loop [for i := 0; i < len(s); { ... }] of
    [validateUnreservedWithExtra], on the remaining input [s[i:]]. Every
    turn consumes at least one byte, so [length s] turns are enough. *)
Fixpoint validateUnreservedWithExtra_loop (fuel : nat) (s : gostring)
  (acceptedRunes : list rune) : option error :=
  match s, fuel with
  | [], _ => None
  | _, O => None
  | _ :: _, S fuel =>
      let '(r, size) := utf8.DecodeRuneInString s in
      if r =? utf8.RuneError then
        Some (errorsJoin ErrInvalidEscaping (Errorf "invalid UTF8 rune"))
      else
        let s := from s size in
        if r =? b2z percentMark then
          if isEmpty s then Some errIncompleteEscape
          else
            match unescapePercentEncoding s with
            | (_, _, Some err) => Some (errorsJoin ErrInvalidEscaping err)
            | (_, offset, None) =>
                validateUnreservedWithExtra_loop fuel (from s offset)
                  acceptedRunes
            end
        else if notUnreservedOrSubDelims r
                && negb (existsb (Z.eqb r) acceptedRunes) then
          Some (Errorf "contains an invalid character")
        else validateUnreservedWithExtra_loop fuel s acceptedRunes
  end.

Definition validateUnreservedWithExtra (s : gostring)
  (acceptedRunes : list rune) : option error :=
  validateUnreservedWithExtra_loop (List.length s) s acceptedRunes.

End Decode.

(** [for pos, char := range s]: the runes of [s] with their byte offsets;
    an invalid byte yields [RuneError] and advances by one. *)
Fixpoint rangeString_from (fuel : nat) (pos : Z) (s : gostring)
  : list (Z * rune) :=
  match s, fuel with
  | [], _ => []
  | _, O => []
  | _ :: _, S fuel =>
      let '(r, size) := utf8.DecodeRuneInString s in
      (pos, r) :: rangeString_from fuel (pos + size) (from s size)
  end.

Definition rangeString (s : gostring) : list (Z * rune) :=
  rangeString_from (List.length s) 0 s.

(** [strings.IndexFunc]: byte offset of the first rune satisfying [f], or -1. *)
Definition strings_IndexFunc (s : gostring) (f : rune -> bool) : Z :=
  match find (fun pr => f (snd pr)) (rangeString s) with
  | Some (pos, _) => pos
  | None => -1
  end.

Definition isNumerical (input : gostring) : bool :=
  strings_IndexFunc input isNotDigit =? -1.

(** ** dns.go *)

Definition dnsSchemes : list gostring :=
  map str
    [ "https"; "http";
      "aaa"; "aaas"; "acap"; "acct"; "cap"; "cid";
      "coap"; "coaps"; "coap+tcp"; "coap+ws"; "coaps+tcp"; "coaps+ws";
      "dav"; "dict"; "dns"; "dntp"; "finger"; "ftp"; "git"; "gopher";
      "h323"; "iax"; "icap"; "im"; "imap"; "ipp"; "ipps";
      "irc"; "irc6"; "ircs"; "jms"; "ldap"; "mailto"; "mid";
      "msrp"; "msrps"; "nfs"; "nntp"; "ntp"; "postgresql"; "radius";
      "redis"; "rmi"; "rtsp"; "rtsps"; "rtspu"; "rsync"; "sftp"; "skype";
      "smtp"; "snmp"; "soap"; "ssh"; "steam"; "svn"; "tcp"; "telnet";
      "udp"; "vnc"; "wais"; "ws"; "wss" ]%string.

(** The [switch scheme] of [UsesDNSHostValidation]: ["file"] and every
    scheme outside the list fall to [false]. *)
Definition UsesDNSHostValidation (scheme : gostring) : bool :=
  existsb (streq scheme) dnsSchemes.

Definition errDNS (msg : String.string) : error :=
  errorsJoin ErrInvalidDNSName (Errorf msg).

Definition errEmptySegment : error :=
  errDNS "a DNS name should not contain an empty segment".

Section DNS.
Context `{Extern}.

Definition validateFirstRuneInSegment (s : gostring)
  : rune * Z * option error :=
  let '(r, size) := utf8.DecodeRuneInString s in
  if r =? utf8.RuneError then
    (utf8.RuneError, 0, Some (errDNS "invalid UTF8 rune"))
  else if r =? b2z dotSeparator then
    (utf8.RuneError, 0, Some errEmptySegment)
  else
    let offset := size in
    let check (r : rune) (offset : Z) :=
      if negb (unicode.IsLetter r) then
        (utf8.RuneError, 0,
         Some (errDNS "a segment in a DNS name must begin with a letter"))
      else (r, offset, None) in
    if r =? b2z percentMark then
      if len s <=? offset then
        (* errorsJoin of the single escaping error: no ErrInvalidDNSName *)
        (utf8.RuneError, 0, Some errIncompleteEscape)
      else
        match unescapePercentEncoding (from s offset) with
        | (_, _, Some e) =>
            (utf8.RuneError, 0,
             Some (errorsJoin ErrInvalidDNSName
                     (errorsJoin ErrInvalidEscaping e)))
        | (unescapedRune, consumed, None) =>
            check unescapedRune (offset + consumed)
        end
    else check r offset.

Definition errSegmentEnd : error :=
  errDNS "a segment in a DNS name must end with a letter or a digit".

(** One turn of the loop [for offset < len(s)] of [validateHostSegment],
    where [rest] is [s[offset:]]: either the function returns ([inl]), or
    the loop goes on with the new [rest], [offset] and [last], [once] being
    set ([inr]). *)
Definition validateHostSegment_turn (rest : gostring) (offset : Z)
  (last : rune) : (rune * Z * option error) + (gostring * Z * rune) :=
  let '(r, size) := utf8.DecodeRuneInString rest in
  if r =? utf8.RuneError then
    inl (utf8.RuneError, 0, Some (errDNS "invalid UTF8 rune"))
  else
    let offset := offset + size in
    let rest := from rest size in
    let unescaped : error + (rune * Z * gostring) :=
      if r =? b2z percentMark then
        if isEmpty rest then
          inl (errorsJoin ErrInvalidDNSName errIncompleteEscape)
        else
          match unescapePercentEncoding rest with
          | (_, _, Some e) =>
              inl (errorsJoin ErrInvalidDNSName
                     (errorsJoin ErrInvalidEscaping e))
          | (unescapedRune, size, None) =>
              inr (unescapedRune, offset + size, from rest size)
          end
      else inr (r, offset, rest) in
    match unescaped with
    | inl e => inl (utf8.RuneError, 0, Some e)
    | inr (r, offset, rest) =>
        if r =? b2z dotSeparator then
          if isEmpty rest then inl (utf8.RuneError, 0, Some errEmptySegment)
          else if negb (unicode.IsLetter last)
                  && negb (unicode.IsDigit last) then
            inl (utf8.RuneError, 0, Some errSegmentEnd)
          else inl (r, offset, None)
        else if maxSegmentLength <? offset then
          inl (utf8.RuneError, 0,
               Some (errDNS "a segment in a DNS name should not be longer than 63 bytes"))
        else if negb (unicode.IsLetter r) && negb (unicode.IsDigit r)
                && negb (r =? 0x2D) then
          inl (utf8.RuneError, 0,
               Some (errDNS "a segment in a DNS name must contain only letters, digits or '-'"))
        else inr (rest, offset, r)
    end.

(** The statements after the loop: the last rune of the segment. *)
Definition validateHostSegment_end (offset : Z) (last : rune) (once : bool)
  : rune * Z * option error :=
  if once && negb (unicode.IsLetter last) && negb (unicode.IsDigit last)
  then (utf8.RuneError, 0, Some errSegmentEnd)
  else (last, offset, None).

(** The loop itself; every turn consumes at least one byte. *)
Fixpoint validateHostSegment_loop (fuel : nat) (rest : gostring)
  (offset : Z) (last : rune) (once : bool) : rune * Z * option error :=
  match rest, fuel with
  | [], _ => validateHostSegment_end offset last once
  | _, O => validateHostSegment_end offset last once
  | _ :: _, S fuel =>
      match validateHostSegment_turn rest offset last with
      | inl result => result
      | inr (rest, offset, last) =>
          validateHostSegment_loop fuel rest offset last true
      end
  end.

Definition validateHostSegment (s : gostring) : rune * Z * option error :=
  match validateFirstRuneInSegment s with
  | (_, _, Some e) => (utf8.RuneError, 0, Some e)
  | (last, offset, None) =>
      validateHostSegment_loop (List.length s) (from s offset) offset
        last false
  end.

(** The loop [for offset := 0; offset < len(host);] of
    [validateDNSHostForScheme]; [rest] is [host[offset:]]. *)
Fixpoint validateDNSHost_loop (fuel : nat) (rest : gostring)
  : option error :=
  match rest, fuel with
  | [], _ => None
  | _, O => None
  | _ :: _, S fuel =>
      match validateHostSegment rest with
      | (_, _, Some e) => Some e
      | (last, consumed, None) =>
          if negb (last =? b2z dotSeparator) then None
          else validateDNSHost_loop fuel (from rest consumed)
      end
  end.

Definition validateDNSHostForScheme (host : gostring) : option error :=
  if maxDomainLength <? len host then
    Some (errDNS "hostname is longer than the allowed 255 bytes")
  else if len host =? 0 then Some errEmptySegment
  else validateDNSHost_loop (List.length host) host.

End DNS.

(** ** Options *)

Record options : Type := {
  schemeIsDNSFunc : gostring -> bool;
  withDNSHostValidation : bool;
  withStrictASCII : bool;
  withStrictIPv6 : bool;
  withURIReference : bool;
  withStrictURI : bool;
  withStrictIRI : bool;
  withWindowsFriendly : bool;
  withRedactedPassword : bool;
  validationFlags : Z (* uint16 *)
}.

(** An [Option] mutates the options it is applied to: here it maps them. *)
Definition Option := options -> options.

(** [1 << iota] *)
Definition flagValidateScheme : Z := 1.
Definition flagValidateHost : Z := 2.
Definition flagValidatePort : Z := 4.
Definition flagValidateUserInfo : Z := 8.
Definition flagValidatePath : Z := 16.
Definition flagValidateQuery : Z := 32.
Definition flagValidateFragment : Z := 64.

Definition packageLevelDefaults : options :=
  {| schemeIsDNSFunc := UsesDNSHostValidation;
     withDNSHostValidation := false; withStrictASCII := false;
     withStrictIPv6 := false; withURIReference := false;
     withStrictURI := false; withStrictIRI := false;
     withWindowsFriendly := false; withRedactedPassword := false;
     validationFlags := 0xFFFF (* ^uint16(0) *) |}.

Definition packageLevelReferenceDefaults : options :=
  {| schemeIsDNSFunc := UsesDNSHostValidation;
     withDNSHostValidation := false; withStrictASCII := false;
     withStrictIPv6 := false; withURIReference := true;
     withStrictURI := false; withStrictIRI := false;
     withWindowsFriendly := false; withRedactedPassword := false;
     validationFlags := 0xFFFF |}.

(** The pool only recycles storage: a borrowed struct is reset to the
    defaults before the options are applied. *)
Definition applyURIOptions (opts : list Option) : options :=
  match opts with
  | [] => packageLevelDefaults
  | _ => fold_left (fun o apply => apply o) opts packageLevelDefaults
  end.

Definition applyURIReferenceOptions (opts : list Option) : options :=
  match opts with
  | [] => packageLevelReferenceDefaults
  | _ => fold_left (fun o apply => apply o) opts packageLevelReferenceDefaults
  end.

Definition withValidationFlags (flags : Z) : Option := fun o =>
  {| schemeIsDNSFunc := schemeIsDNSFunc o;
     withDNSHostValidation := withDNSHostValidation o;
     withStrictASCII := withStrictASCII o;
     withStrictIPv6 := withStrictIPv6 o;
     withURIReference := withURIReference o;
     withStrictURI := withStrictURI o;
     withStrictIRI := withStrictIRI o;
     withWindowsFriendly := withWindowsFriendly o;
     withRedactedPassword := withRedactedPassword o;
     validationFlags := flags |}.

Definition WithReference (enabled : bool) : Option := fun o =>
  {| schemeIsDNSFunc := schemeIsDNSFunc o;
     withDNSHostValidation := withDNSHostValidation o;
     withStrictASCII := withStrictASCII o;
     withStrictIPv6 := withStrictIPv6 o;
     withURIReference := enabled;
     withStrictURI := withStrictURI o;
     withStrictIRI := withStrictIRI o;
     withWindowsFriendly := withWindowsFriendly o;
     withRedactedPassword := withRedactedPassword o;
     validationFlags := validationFlags o |}.

(** [o.validationFlags&flag > 0] *)
Definition flagSet (o : options) (flag : Z) : bool :=
  0 <? Z.land (validationFlags o) flag.

(** ** uri.go: the value types *)

Record ipType : Set := { isIPv4 : bool; isIPv6 : bool; isIPvFuture : bool }.

Definition noIP : ipType :=
  {| isIPv4 := false; isIPv6 := false; isIPvFuture := false |}.

Record Authority : Set := {
  aerr : option error;
  prefix : gostring;
  userinfo : gostring;
  host : gostring;
  port : gostring;
  path : gostring;
  ip : ipType
}.

Record URI : Set := {
  err : option error;
  scheme : gostring;
  hierPart : gostring;
  query : gostring;
  fragment : gostring;
  authority : Authority
}.

(** [Authority{}] and [URI{err: err}] *)
Definition emptyAuthority : Authority :=
  {| aerr := None; prefix := []; userinfo := []; host := []; port := [];
     path := []; ip := noIP |}.

Definition errURI (e : error) : URI :=
  {| err := Some e; scheme := []; hierPart := []; query := [];
     fragment := []; authority := emptyAuthority |}.

Definition pcharExtraRunes : list rune := [b2z colonMark; b2z atHost].
Definition queryOrFragmentExtraRunes : list rune :=
  pcharExtraRunes ++ [b2z slashMark; b2z questionMark].
Definition userInfoExtraRunes : list rune := pcharExtraRunes ++ [b2z colonMark].

(** Field updates *)
Definition setAuthority (u : URI) (a : Authority) : URI :=
  {| err := err u; scheme := scheme u; hierPart := hierPart u;
     query := query u; fragment := fragment u; authority := a |}.

Definition setErr (u : URI) (e : option error) : URI :=
  {| err := e; scheme := scheme u; hierPart := hierPart u;
     query := query u; fragment := fragment u; authority := authority u |}.

Definition setIP (a : Authority) (t : ipType) : Authority :=
  {| aerr := aerr a; prefix := prefix a; userinfo := userinfo a;
     host := host a; port := port a; path := path a; ip := t |}.

Definition setAErr (a : Authority) (e : option error) : Authority :=
  {| aerr := e; prefix := prefix a; userinfo := userinfo a;
     host := host a; port := port a; path := path a; ip := ip a |}.

(** ** uri.go: rendering *)

Definition buildString (a : Authority) (buf : strings.Builder)
  : strings.Builder :=
  let buf := strings.WriteString buf (prefix a) in
  let buf := strings.WriteString buf (userinfo a) in
  let buf :=
    if 0 <? len (userinfo a) then strings.WriteByte buf atHost else buf in
  let buf :=
    if isIPv6 (ip a) then
      strings.WriteString buf (str "[" ++ host a ++ str "]")
    else strings.WriteString buf (host a) in
  let buf :=
    if 0 <? len (port a) then strings.WriteByte buf colonMark else buf in
  let buf := strings.WriteString buf (port a) in
  strings.WriteString buf (path a).

Definition Authority_String (a : Authority) : gostring := buildString a [].

Definition String (u : URI) : gostring :=
  let buf : strings.Builder := [] in
  let buf :=
    if 0 <? len (scheme u) then
      strings.WriteByte (strings.WriteString buf (scheme u)) colonMark
    else buf in
  let buf := buildString (authority u) buf in
  let buf :=
    if 0 <? len (query u) then
      strings.WriteString (strings.WriteByte buf questionMark) (query u)
    else buf in
  let buf :=
    if 0 <? len (fragment u) then
      strings.WriteString (strings.WriteByte buf fragmentMark) (fragment u)
    else buf in
  buf.

Definition Err (u : URI) : option error := err u.

(** ** strconv.ParseUint (Go standard library), base 10, 64 bits

    Only the value is used by the caller ([portNum, _ := ...]): 0 on a
    syntax error, the largest [uint64] on a range error. *)
Module strconv.

Definition maxVal : Z := 2 ^ 64 - 1.
Definition cutoff : Z := maxVal / 10 + 1.

Fixpoint ParseUint_loop (s : gostring) (n : Z) : Z :=
  match s with
  | [] => n
  | c :: s' =>
      if isDigit (b2z c) then
        let d := b2z c - 0x30 in
        if cutoff <=? n then maxVal
        else
          let n1 := n * 10 + d in
          if maxVal <? n1 then maxVal (* n1 < n after wrap-around *)
          else ParseUint_loop s' n1
      else 0
  end.

Definition ParseUint (s : gostring) : Z := ParseUint_loop s 0.

End strconv.

(** ** uri.go: validation *)

Section Validate.
Context `{Extern}.

Definition validateScheme (scheme : gostring) (_ : options)
  : option error :=
  if len scheme <? 2 then Some (Sentinel ErrInvalidScheme)
  else if negb (isASCIILetter (b2z (at_ scheme 0))) then
    Some (errorsJoin ErrInvalidScheme
            (Errorf "an URI scheme must start with an ASCII letter"))
  else
    (* for i := 1; i < len(scheme); i++ *)
    (fix loop (rest : gostring) : option error :=
       match rest with
       | [] => None
       | c :: rest =>
           let c := b2z c in
           if isDigit c then loop rest
           else if isASCIILetter c then loop rest
           else if (c =? 0x2B) || (c =? 0x2D) || (c =? 0x2E) then loop rest
           else Some (errorsJoin ErrInvalidScheme
                        (Errorf "invalid character found in scheme"))
       end) (from scheme 1).

Definition validateQuery (query : gostring) (_ : options) : option error :=
  match validateUnreservedWithExtra query queryOrFragmentExtraRunes with
  | Some err => Some (errorsJoin ErrInvalidQuery err)
  | None => None
  end.

Definition validateFragment (fragment : gostring) (_ : options)
  : option error :=
  match validateUnreservedWithExtra fragment queryOrFragmentExtraRunes with
  | Some err => Some (errorsJoin ErrInvalidFragment err)
  | None => None
  end.

(** The loop [for pos, char := range path] of [validatePath]: an error, or
    the final [previousPos]. *)
Fixpoint validatePath_loop (path : gostring) (items : list (Z * rune))
  (previousPos : Z) : error + Z :=
  match items with
  | [] => inr previousPos
  | (pos, char) :: items =>
      if negb (char =? b2z slashMark) then
        validatePath_loop path items previousPos
      else
        match
          (if previousPos <? pos then
             validateUnreservedWithExtra (slice path previousPos pos)
               pcharExtraRunes
           else None)
        with
        | Some err => inl (errorsJoin ErrInvalidPath err)
        | None => validatePath_loop path items (pos + 1)
        end
  end.

Definition validatePath (a : Authority) (path : gostring) (_ : options)
  : option error :=
  if isEmpty (host a) && isEmpty (port a) && (2 <=? len path)
     && Ascii.eqb (at_ path 0) slashMark
     && Ascii.eqb (at_ path 1) slashMark then
    Some (errorsJoin ErrInvalidPath
            (Errorf "if a URI does not contain an authority component, then the path cannot begin with two slash characters"))
  else
    match validatePath_loop path (rangeString path) 0 with
    | inl err => Some err
    | inr previousPos =>
        if previousPos <? len path then
          match validateUnreservedWithExtra (from path previousPos)
                  pcharExtraRunes with
          | Some err => Some (errorsJoin ErrInvalidPath err)
          | None => None
          end
        else None
    end.

Definition validateRegisteredHostForScheme (host : gostring) (_ : options)
  : option error :=
  match validateUnreservedWithExtra host [] with
  | Some err => Some (errorsJoin ErrInvalidRegisteredName err)
  | None => None
  end.

Definition validateHostForScheme (host scheme : gostring) (o : options)
  : option error :=
  match
    (if UsesDNSHostValidation scheme then validateDNSHostForScheme host
     else None)
  with
  | Some err => Some err
  | None => validateRegisteredHostForScheme host o
  end.

(** [host[0]] is read under the caller's guard [a.host != ""]. *)
Definition validateHost (host : gostring) (isIPv6 : bool)
  (scheme : gostring) (o : options) : ipType * option error :=
  if isIPv6 then
    if (b2z (at_ host 0) =? 0x76) || (b2z (at_ host 0) =? 0x56) then
      match validateIPvFuture (from host 1) with
      | Some err => (noIP, Some (errorsJoin ErrInvalidHostAddress err))
      | None =>
          ({| isIPv4 := false; isIPv6 := true; isIPvFuture := true |}, None)
      end
    else
      ({| isIPv4 := false; isIPv6 := true; isIPvFuture := false |},
       validateIPv6 host)
  else
    match validateIPv4 host with
    | None =>
        ({| isIPv4 := true; isIPv6 := false; isIPvFuture := false |}, None)
    | Some _ =>
        match validateHostForScheme host scheme o with
        | Some err => (noIP, Some (errorsJoin ErrInvalidHost err))
        | None => (noIP, None)
        end
    end.

Definition maxPort : Z := 65535.

Definition validatePort (port host : gostring) (_ : options)
  : option error :=
  if negb (isNumerical port) then Some (Sentinel ErrInvalidPort)
  else if isEmpty host then
    Some (errorsJoin ErrMissingHost
            (Errorf "whenever a port is specified, a host part must be present"))
  else
    let portNum := strconv.ParseUint port in
    if maxPort <? portNum then
      Some (errorsJoin ErrInvalidPort
              (Errorf "a valid port lies in the range (0-65535)"))
    else None.

Definition validateUserInfo (userinfo : gostring) (_ : options)
  : option error :=
  match validateUnreservedWithExtra userinfo userInfoExtraRunes with
  | Some err => Some (errorsJoin ErrInvalidUserInfo err)
  | None => None
  end.

Definition validateForScheme (a : Authority) (scheme : gostring)
  (o : options) : ipType * option error :=
  let ip0 := noIP in
  match
    (if negb (isEmpty (path a)) && flagSet o flagValidatePath then
       validatePath a (path a) o
     else None)
  with
  | Some err => (ip0, Some err)
  | None =>
      match
        (if negb (isEmpty (host a)) && flagSet o flagValidateHost then
           validateHost (host a) (isIPv6 (ip a)) scheme o
         else (ip0, None))
      with
      | (ip1, Some err) => (ip1, Some err)
      | (ip1, None) =>
          match
            (if negb (isEmpty (port a)) && flagSet o flagValidatePort then
               validatePort (port a) (host a) o
             else None)
          with
          | Some err => (ip1, Some err)
          | None =>
              match
                (if negb (isEmpty (userinfo a))
                    && flagSet o flagValidateUserInfo then
                   validateUserInfo (userinfo a) o
                 else None)
              with
              | Some err => (ip1, Some err)
              | None => (ip1, None)
              end
          end
      end
  end.

Definition validate (u : URI) (o : options) : ipType * option error :=
  match
    (if negb (isEmpty (scheme u)) && flagSet o flagValidateScheme then
       validateScheme (scheme u) o
     else None)
  with
  | Some err => (noIP, Some err)
  | None =>
      match
        (if negb (isEmpty (query u)) && flagSet o flagValidateQuery then
           validateQuery (query u) o
         else None)
      with
      | Some err => (noIP, Some err)
      | None =>
          match
            (if negb (isEmpty (fragment u))
                && flagSet o flagValidateFragment then
               validateFragment (fragment u) o
             else None)
          with
          | Some err => (noIP, Some err)
          | None =>
              if negb (isEmpty (hierPart u)) then
                validateForScheme (authority u) (scheme u) o
              else (noIP, None)
          end
      end
  end.

(** [u.authority.ipType, u.err = u.validate(o)] *)
Definition validated (u : URI) (o : options) : URI :=
  let '(t, e) := validate u o in
  setErr (setAuthority u (setIP (authority u) t)) e.

(** [u.authority.err = u.err] *)
Definition propagated (u : URI) : URI :=
  setAuthority u (setAErr (authority u) (err u)).

End Validate.

(** ** uri.go: the decomposer *)

Definition parseAuthority (hier : gostring) (_ : options)
  : Authority * option error :=
  let prefix :=
    if strings.HasPrefix hier authorityPrefix then authorityPrefix else [] in
  let hier := strings.TrimPrefix hier authorityPrefix in
  let mk userinfo host port path isIPv6 :=
    ({| aerr := None; prefix := prefix; userinfo := userinfo; host := host;
        port := port; path := path;
        ip := {| isIPv4 := false; isIPv6 := isIPv6; isIPvFuture := false |} |},
     @None error) in
  if isEmpty prefix then mk [] [] [] hier false
  else
    let slashEnd := strings.IndexByte hier slashMark in
    let path :=
      if (-1 <? slashEnd) && (slashEnd <? len hier) then from hier slashEnd
      else [] in
    let hier := if -1 <? slashEnd then upto hier slashEnd else hier in
    let host := hier in
    let atPos := strings.IndexByte host atHost in
    let userinfo := if 0 <? atPos then upto host atPos else [] in
    let host :=
      if (0 <? atPos) && (atPos + 1 <? len host) then from host (atPos + 1)
      else host in
    let bracket := strings.IndexByte host openingBracketMark in
    if 0 <=? bracket then
      let rawHost := host in
      let closingbracket := strings.IndexByte host closingBracketMark in
      if bracket + 1 <? closingbracket then
        let host := slice host (bracket + 1) closingbracket in
        let rawHost := from rawHost (closingbracket + 1) in
        let colon := strings.IndexByte rawHost colonMark in
        let port :=
          if (0 <=? colon) && (colon + 1 <? len rawHost)
          then from rawHost (colon + 1) else [] in
        mk userinfo host port path true
      else if bracket <? closingbracket then
        (emptyAuthority,
         Some (errorsJoin ErrInvalidHostAddress (Errorf "empty IPv6 address")))
      else
        (emptyAuthority,
         Some (errorsJoin ErrInvalidHostAddress
                 (Errorf "mismatched square brackets")))
    else
      let colon := strings.IndexByte host colonMark in
      let port :=
        if (0 <=? colon) && (colon + 1 <? len host)
        then from host (colon + 1) else [] in
      let host := if 0 <=? colon then upto host colon else host in
      mk userinfo host port path false.

Definition mkURI (scheme hierPart query fragment : gostring)
  (authority : Authority) : URI :=
  {| err := None; scheme := scheme; hierPart := hierPart; query := query;
     fragment := fragment; authority := authority |}.

Section Parse.
Context `{Extern}.

(** [return URI{err: err}, err] *)
Definition failed (e : error) : URI * option error := (errURI e, Some e).

(** [u.authority.ipType, u.err = u.validate(o); u.authority.err = u.err;
    return u, u.err] *)
Definition finish (u : URI) (o : options) : URI * option error :=
  let u := propagated (validated u o) in (u, err u).

(** The body of [parse] after the [switch] on the scheme. *)
Definition parse_hier (raw : gostring) (o : options) (scheme : gostring)
  (schemeEnd hierPartEnd queryEnd : Z) : URI * option error :=
  let curr := schemeEnd + 1 in
  if (hierPartEnd =? len raw - 1)
     || ((hierPartEnd <? 0) && (queryEnd <? 0)) then
    (* trailing ? or (no query & no fragment) *)
    let hierPartEnd := if hierPartEnd <? 0 then len raw else hierPartEnd in
    match parseAuthority (slice raw curr hierPartEnd) o with
    | (_, Some e) => failed (errorsJoin ErrInvalidURI e)
    | (authority, None) =>
        finish (mkURI scheme (slice raw curr hierPartEnd) [] [] authority) o
    end
  else
    match
      (if 0 <? hierPartEnd then
         let hierPart := slice raw curr hierPartEnd in
         match parseAuthority hierPart o with
         | (_, Some e) => inl e
         | (authority, None) =>
             let query :=
               if hierPartEnd + 1 <? len raw then
                 if queryEnd <? 0 then from raw (hierPartEnd + 1)
                 else if hierPartEnd <? queryEnd - 1 then
                   slice raw (hierPartEnd + 1) queryEnd
                 else []
               else [] in
             inr (hierPart, authority, query, hierPartEnd + 1)
         end
       else inr ([], emptyAuthority, [], curr))
    with
    | inl e => failed (errorsJoin ErrInvalidURI e)
    | inr (hierPart, authority, query, curr) =>
        if (queryEnd =? len raw - 1) && (hierPartEnd <? 0) then
          (* trailing #, no query "?" *)
          let hierPart := slice raw curr queryEnd in
          match parseAuthority hierPart o with
          | (_, Some e) => failed (errorsJoin ErrInvalidURI e)
          | (authority, None) =>
              finish (mkURI scheme hierPart query [] authority) o
          end
        else
          match
            (if 0 <? queryEnd then
               (* there is a fragment *)
               let fragment :=
                 if queryEnd + 1 <? len raw then from raw (queryEnd + 1)
                 else [] in
               if hierPartEnd <? 0 then
                 (* no query *)
                 let hierPart := slice raw curr queryEnd in
                 match parseAuthority hierPart o with
                 | (_, Some e) => inl e
                 | (authority, None) => inr (hierPart, authority, fragment)
                 end
               else inr (hierPart, authority, fragment)
             else inr (hierPart, authority, []))
          with
          | inl e => failed (errorsJoin ErrInvalidURI e)
          | inr (hierPart, authority, fragment) =>
              finish (mkURI scheme hierPart query fragment authority) o
          end
    end.

Definition parse (raw : gostring) (o : options) : URI * option error :=
  let schemeEnd := strings.IndexByte raw colonMark in
  let hierPartEnd := strings.IndexByte raw questionMark in
  let queryEnd := strings.IndexByte raw fragmentMark in
  if (schemeEnd =? 0) || (hierPartEnd =? 0) || (queryEnd =? 0) then
    failed (errorsJoin ErrInvalidURI
              (Errorf "URI cannot start by a ':', '?' or '#' mark"))
  else if schemeEnd =? 1 then
    failed (errorsJoin ErrInvalidScheme
              (Errorf "scheme has a minimum length of 2 characters"))
  else if (hierPartEnd =? 1) || (queryEnd =? 1) then
    failed (errorsJoin ErrInvalidURI
              (Errorf "invalid combination of start markers"))
  else if ((0 <? hierPartEnd) && (hierPartEnd <? schemeEnd))
          || ((0 <? queryEnd) && (queryEnd <? schemeEnd)) then
    failed (errorsJoin ErrInvalidURI
              (Errorf "URI part markers are in an incorrect order"))
  else
    let hierPartEnd :=
      if (0 <? queryEnd) && (queryEnd <? hierPartEnd) then queryEnd
      else hierPartEnd in
    let isRelative := strings.HasPrefix raw authorityPrefix in
    if (0 <? schemeEnd) && negb isRelative then
      let scheme := slice raw 0 schemeEnd in
      if schemeEnd + 1 =? len raw then
        (* trailing ':' (e.g. http:) *)
        let u := validated (mkURI scheme [] [] [] emptyAuthority) o in
        (u, err u)
      else parse_hier raw o scheme schemeEnd hierPartEnd queryEnd
    else if negb (withURIReference o) then
      failed (errorsJoin ErrNoSchemeFound
                (Errorf "for URI (not URI reference), the scheme is required"))
    else if isRelative then parse_hier raw o [] (-1) hierPartEnd queryEnd
    else parse_hier raw o [] schemeEnd hierPartEnd queryEnd.

Definition Parse (raw : gostring) (opts : list Option)
  : URI * option error :=
  parse raw (applyURIOptions opts).

Definition ParseReference (raw : gostring) (opts : list Option)
  : URI * option error :=
  parse raw (applyURIReferenceOptions opts).

Definition IsURI (raw : gostring) (opts : list Option) : bool :=
  match snd (Parse raw opts) with None => true | Some _ => false end.

End Parse.

(** ** builder.go *)

Definition withEnsuredAuthority (a : Authority) : Authority :=
  if negb (isEmpty (userinfo a)) || negb (isEmpty (host a))
     || negb (isEmpty (port a)) then
    {| aerr := aerr a; prefix := authorityPrefix; userinfo := userinfo a;
       host := host a; port := port a; path := path a; ip := ip a |}
  else a.

(** [Authority()]: the authority information, including the "//" prefix. *)
Definition URI_Authority (u : URI) : Authority :=
  withEnsuredAuthority (authority u).

Definition setUserinfo (a : Authority) (s : gostring) : Authority :=
  {| aerr := aerr a; prefix := prefix a; userinfo := s; host := host a;
     port := port a; path := path a; ip := ip a |}.

Definition setHost (a : Authority) (s : gostring) : Authority :=
  {| aerr := aerr a; prefix := prefix a; userinfo := userinfo a; host := s;
     port := port a; path := path a; ip := ip a |}.

Definition setPort (a : Authority) (s : gostring) : Authority :=
  {| aerr := aerr a; prefix := prefix a; userinfo := userinfo a;
     host := host a; port := s; path := path a; ip := ip a |}.

Definition setPath (a : Authority) (s : gostring) : Authority :=
  {| aerr := aerr a; prefix := prefix a; userinfo := userinfo a;
     host := host a; port := port a; path := s; ip := ip a |}.

Definition setScheme (u : URI) (s : gostring) : URI :=
  {| err := err u; scheme := s; hierPart := hierPart u; query := query u;
     fragment := fragment u; authority := authority u |}.

Definition setQuery (u : URI) (s : gostring) : URI :=
  {| err := err u; scheme := scheme u; hierPart := hierPart u; query := s;
     fragment := fragment u; authority := authority u |}.

Definition setFragment (u : URI) (s : gostring) : URI :=
  {| err := err u; scheme := scheme u; hierPart := hierPart u;
     query := query u; fragment := s; authority := authority u |}.

Section Builder.
Context `{Extern}.

(** [opts = append(opts, withValidationFlags(flags)); o, redeem :=
    applyURIOptions(opts)] *)
Definition builderOptions (opts : list Option) (flags : Z) : options :=
  applyURIOptions (opts ++ [withValidationFlags flags]).

Definition WithScheme (u : URI) (scheme : gostring) (opts : list Option)
  : URI :=
  match Err u with
  | Some _ => u
  | None =>
      let o :=
        builderOptions opts (Z.lor flagValidateScheme flagValidateHost) in
      validated (setScheme u scheme) o
  end.

Definition WithAuthority (u : URI) (authority : Authority)
  (opts : list Option) : URI :=
  match Err u with
  | Some _ => u
  | None =>
      let o :=
        builderOptions opts
          (Z.lor (Z.lor (Z.lor flagValidateHost flagValidatePort)
                    flagValidateUserInfo) flagValidatePath) in
      propagated (validated (setAuthority u authority) o)
  end.

Definition WithUserInfo (u : URI) (userinfo : gostring)
  (opts : list Option) : URI :=
  match Err u with
  | Some _ => u
  | None =>
      let o := builderOptions opts flagValidateUserInfo in
      let a := setUserinfo (withEnsuredAuthority (authority u)) userinfo in
      propagated (validated (setAuthority u a) o)
  end.

Definition WithHost (u : URI) (host : gostring) (opts : list Option)
  : URI :=
  match Err u with
  | Some _ => u
  | None =>
      let o := builderOptions opts (Z.lor flagValidateHost flagValidatePort) in
      let a := setHost (withEnsuredAuthority (authority u)) host in
      propagated (validated (setAuthority u a) o)
  end.

Definition WithPort (u : URI) (port : gostring) (opts : list Option)
  : URI :=
  match Err u with
  | Some _ => u
  | None =>
      let o := builderOptions opts flagValidatePort in
      let a := setPort (withEnsuredAuthority (authority u)) port in
      propagated (validated (setAuthority u a) o)
  end.

Definition WithPath (u : URI) (path : gostring) (opts : list Option)
  : URI :=
  match Err u with
  | Some _ => u
  | None =>
      let o := builderOptions opts flagValidatePath in
      let a := setPath (withEnsuredAuthority (authority u)) path in
      propagated (validated (setAuthority u a) o)
  end.

Definition WithQuery (u : URI) (query : gostring) (opts : list Option)
  : URI :=
  match Err u with
  | Some _ => u
  | None =>
      let o := builderOptions opts flagValidateQuery in
      validated (setQuery u query) o
  end.

Definition WithFragment (u : URI) (fragment : gostring)
  (opts : list Option) : URI :=
  match Err u with
  | Some _ => u
  | None =>
      let o := builderOptions opts flagValidateFragment in
      validated (setFragment u fragment) o
  end.

Definition WithJoinPath (u : URI) (elems : list gostring) : URI :=
  match Err u with
  | Some _ => u
  | None =>
      let o := applyURIOptions [withValidationFlags flagValidatePath] in
      let a := withEnsuredAuthority (authority u) in
      let full := [path a] ++ elems in
      propagated (validated (setAuthority u (setPath a (path_Join full))) o)
  end.

End Builder.

(** ** An instance of the absent parts, to run the parser on inputs *)

Module IPModel.

(** [strings.Split] on one separator byte. *)
Fixpoint split (sep : ascii) (s : gostring) : list gostring :=
  match s with
  | [] => [[]]
  | c :: s' =>
      if Ascii.eqb c sep then [] :: split sep s'
      else
        match split sep s' with
        | seg :: segs => (c :: seg) :: segs
        | [] => [[c]]
        end
  end.

Definition decimal (s : gostring) : Z :=
  fold_left (fun n c => 10 * n + (b2z c - 0x30)) s 0.

Definition octet (s : gostring) : bool :=
  (1 <=? len s) && (len s <=? 3)
  && forallb (fun c => isDigit (b2z c)) s
  && (decimal s <=? 255)
  && ((len s =? 1) || negb (b2z (at_ s 0) =? 0x30)).

Definition dottedQuad (host : gostring) : bool :=
  let octets := split dotSeparator host in
  (Z.of_nat (List.length octets) =? 4) && forallb octet octets.

(** Modelled from the spec: [validateIPv4] of ip.go is not among the
    sources. "Strict dotted quad: exactly four octets separated by single
    [.]. Each octet is 1-3 ASCII decimal digits, value 0-255, and must not
    have a leading zero unless the octet is the single digit [0].
    Percent-encoding is not permitted anywhere in an IPv4 literal." *)
Definition validateIPv4 (host : gostring) : option error :=
  if dottedQuad host then None
  else Some (Errorf "invalid IPv4 literal").

Definition hexGroup (s : gostring) : bool :=
  (1 <=? len s) && (len s <=? 4) && forallb (fun c => isHex (b2z c)) s.

(** The number of 16-bit groups of a colon-separated list whose last
    element may be an embedded IPv4 tail; [None] when malformed. *)
Fixpoint groups (allowTail : bool) (gs : list gostring) : option Z :=
  match gs with
  | [] => Some 0
  | [g] =>
      if hexGroup g then Some 1
      else if allowTail && dottedQuad g then Some 2
      else None
  | g :: gs' =>
      if hexGroup g then
        match groups allowTail gs' with
        | Some n => Some (n + 1)
        | None => None
        end
      else None
  end.

(** Index of the first occurrence of the two-byte string [a b], or -1. *)
Fixpoint index2 (a b : ascii) (s : gostring) : Z :=
  match s with
  | x :: ((y :: _) as s') =>
      if Ascii.eqb x a && Ascii.eqb y b then 0
      else let i := index2 a b s' in if i <? 0 then -1 else i + 1
  | _ => -1
  end.

Definition colonGroups (allowTail : bool) (s : gostring) : option Z :=
  if isEmpty s then Some 0 else groups allowTail (split colonMark s).

(** "a canonical IPv6 address (accepting [::] elision exactly once, hex
    groups, optional embedded IPv4 tail)" *)
Definition ipv6Address (s : gostring) : bool :=
  let e := index2 colonMark colonMark s in
  if e <? 0 then
    match groups true (split colonMark s) with
    | Some n => n =? 8
    | None => false
    end
  else
    let left := upto s e in
    let right := from s (e + 2) in
    if 0 <=? index2 colonMark colonMark right then false
    else if Ascii.eqb (at_ right 0) colonMark && negb (isEmpty right)
    then false
    else
      match colonGroups false left, colonGroups true right with
      | Some n, Some m => n + m <=? 7
      | _, _ => false
      end.

Definition isUnreservedASCII (r : rune) : bool :=
  isASCIILetter r || isDigit r
  || (r =? 0x2D) || (r =? 0x2E) || (r =? 0x5F) || (r =? 0x7E).

(** "must consist entirely of unreserved characters or percent-escapes of
    unreserved characters" *)
Fixpoint zoneChars (fuel : nat) (s : gostring) : bool :=
  match s, fuel with
  | [], _ => true
  | _, O => false
  | c :: s', S fuel =>
      if Ascii.eqb c percentMark then
        match unescapePercentEncoding s' with
        | (r, offset, None) =>
            isUnreservedASCII r && zoneChars fuel (from s' offset)
        | (_, _, Some _) => false
        end
      else isUnreservedASCII (b2z c) && zoneChars fuel s'
  end.

(** Index of the first ["%25"], or -1. *)
Fixpoint indexZone (s : gostring) : Z :=
  match s with
  | [] => -1
  | x :: s' =>
      if strings.HasPrefix s (str "%25") then 0
      else let i := indexZone s' in if i <? 0 then -1 else i + 1
  end.

(** Modelled from the spec: [validateIPv6] of ip.go is not among the
    sources. "Split at the first [%25]. The left side is the address
    literal; the right side is the zone identifier. A bare [%] that is not
    [%25] is illegal; any percent-escape inside the address literal itself
    is illegal. [...] The zone identifier must be non-empty after
    unescaping." Failures surface as [InvalidHostAddress]. *)
Definition validateIPv6 (host : gostring) : option error :=
  let z := indexZone host in
  let ok :=
    if z <? 0 then ipv6Address host
    else
      let zone := from host (z + 3) in
      ipv6Address (upto host z) && negb (isEmpty zone)
      && zoneChars (List.length zone) zone in
  if ok then None
  else Some (errorsJoin ErrInvalidHostAddress (Errorf "invalid IPv6 literal")).

Definition isSubDelim (r : rune) : bool :=
  (r =? 0x21) || (r =? 0x24) || (r =? 0x26) || (r =? 0x27) || (r =? 0x28)
  || (r =? 0x29) || (r =? 0x2A) || (r =? 0x2B) || (r =? 0x2C)
  || (r =? 0x3B) || (r =? 0x3D).

(** Modelled from the spec: [validateIPvFuture] of ip.go is not among the
    sources; it receives the literal after its leading [v]. "An IPvFuture
    literal starts with [v] or [V] followed by one or more hex digits, a
    [.], then one or more characters from unreserved, sub-delims or [:].
    An empty version or empty address segment is rejected." *)
Definition validateIPvFuture (address : gostring) : option error :=
  let dot := strings.IndexByte address dotSeparator in
  let version := upto address dot in
  let rest := from address (dot + 1) in
  if (0 <? dot)
     && forallb (fun c => isHex (b2z c)) version
     && negb (isEmpty rest)
     && forallb (fun c => isUnreservedASCII (b2z c) || isSubDelim (b2z c)
                            || Ascii.eqb c colonMark) rest
  then None
  else Some (Errorf "invalid IPvFuture literal").

(** Modelled from the spec: [path.Join] of the Go standard library, named
    by the spec as "segments joined with a single [/], redundant [/], [.],
    and [..] segments simplified lexically". *)
Definition clean (p : gostring) : gostring :=
  let rooted := Ascii.eqb (at_ p 0) slashMark && negb (isEmpty p) in
  let step (stack : list gostring) (seg : gostring) :=
    if isEmpty seg || streq seg (str ".") then stack
    else if streq seg (str "..") then
      match stack with
      | top :: stack' =>
          if streq top (str "..") then seg :: stack else stack'
      | [] => if rooted then [] else [seg]
      end
    else seg :: stack in
  let segs := rev (fold_left step (split slashMark p) []) in
  let body :=
    match segs with
    | [] => []
    | s0 :: ss => s0 ++ flat_map (fun s => slashMark :: s) ss
    end in
  if rooted then slashMark :: body
  else if isEmpty body then str "." else body.

Definition Join (elems : list gostring) : gostring :=
  match filter (fun e => negb (isEmpty e)) elems with
  | [] => []
  | e0 :: es => clean (e0 ++ flat_map (fun s => slashMark :: s) es)
  end.

End IPModel.

(** The instance: Latin-1 input only (no Unicode table above U+00FF), the
    validators and [path.Join] as modelled above. *)
Definition modelled : Extern :=
  {| isExcludingLatin_Letter := fun _ => false;
     isExcludingLatin_Digit := fun _ => false;
     validateIPv4 := IPModel.validateIPv4;
     validateIPv6 := IPModel.validateIPv6;
     validateIPvFuture := IPModel.validateIPvFuture;
     path_Join := IPModel.Join |}.

(** ** uri.go, normalize.go: further functions *)


(** [IsURIReference] *)
Definition IsURIReference `{Extern} (raw : gostring) (opts : list Option)
  : bool :=
  match snd (ParseReference raw opts) with None => true | Some _ => false end.


(** [Authority.builderSize] and the capacity reserved by [URI.String]. *)
Definition builderSize (a : Authority) : Z :=
  len (prefix a) + len (userinfo a) + 1 + len (host a) + 2 + len (port a) + 1
  + len (path a).

Definition stringCapacity (u : URI) : Z :=
  len (scheme u) + 1 + len (query u) + 1 + len (fragment u) + 1
  + builderSize (authority u).

(** [utf8.EncodeRune] (Go standard library) on any rune: a surrogate or a
    value out of range is encoded as [RuneError]. *)
Definition utf8_EncodeRune (r : rune) : list Z :=
  if utf8.ValidRune r then utf8.EncodeRune r
  else utf8.EncodeRune utf8.RuneError.

Definition upperhex : gostring := str "0123456789ABCDEF".

(** normalize.go, [writeEscapedRune]: one [%XX] group per byte of the
    encoding of [r], written to [w]. *)
Definition writeEscapedRune (w : strings.Builder) (r : rune)
  : strings.Builder :=
  fold_left
    (fun (w : strings.Builder) (c : Z) =>
       w ++ [percentMark; at_ upperhex (Z.shiftr c 4);
             at_ upperhex (Z.land c 15)])
    (utf8_EncodeRune r) w.

(** ** decode.go: the character sets

    The later version of decode.go tests a rune against a [charSet]: a bit
    set for the ASCII runes and a function for the others. *)

(** [github.com/bits-and-blooms/bitset]: a set of unsigned integers, as the
    bits of a number; [Set] extends the set as needed and [Test] is false
    out of its length. *)
Module bitset.

Definition BitSet := Z.
Definition New (_ : Z) : BitSet := 0.
Definition Set_ (b : BitSet) (i : Z) : BitSet := Z.setbit b i.
Definition Test (b : BitSet) (i : Z) : bool := Z.testbit b i.
Definition Clone (b : BitSet) : BitSet := b.

End bitset.

(** [uint(r)] of a rune (an [int32]): a negative rune wraps around. *)
Definition uint (r : rune) : Z := r mod 2 ^ 64.

(** [runeFunc] is [None] where the Go field is nil. *)
Record charSet : Type := {
  BitSet : bitset.BitSet;
  runeFunc : option (rune -> bool)
}.

(** [IsInSet]; [None] stands for the call of a nil function. *)
Definition IsInSet (c : charSet) (r : rune) : option bool :=
  if r <? utf8.RuneSelf then Some (bitset.Test (BitSet c) (uint r))
  else
    match runeFunc c with
    | Some f => Some (f r)
    | None => None
    end.

Definition charSet_Clone (c : charSet) : charSet :=
  {| BitSet := bitset.Clone (BitSet c); runeFunc := None |}.

Definition charSet_Set (c : charSet) (i : Z) : charSet :=
  {| BitSet := bitset.Set_ (BitSet c) i; runeFunc := runeFunc c |}.

Definition withRuneFunc (c : charSet) (f : rune -> bool) : charSet :=
  {| BitSet := BitSet c; runeFunc := Some f |}.

Definition accepted : list Z :=
  [0x2D; 0x2E; 0x5F; 0x7E;
   0x21; 0x24; 0x26; 0x27; 0x28; 0x29; 0x2A; 0x2B; 0x2C; 0x3B; 0x3D].

Definition isUnreserved (r : rune) : bool :=
  (r =? 0x2D) || (r =? 0x2E) || (r =? 0x5F) || (r =? 0x7E).

Definition isSubDelims (r : rune) : bool :=
  (r =? 0x21) || (r =? 0x24) || (r =? 0x26) || (r =? 0x27) || (r =? 0x28)
  || (r =? 0x29) || (r =? 0x2A) || (r =? 0x2B) || (r =? 0x2C) || (r =? 0x3B)
  || (r =? 0x3D).

Section CharSets.
Context `{Extern}.

Definition isUnreservedOrSubDelimsRune (r : rune) : bool :=
  unicode.IsLetter r || unicode.IsDigit r || isUnreserved r || isSubDelims r.

Definition isPcharRune (r : rune) : bool :=
  if (r =? b2z colonMark) || (r =? b2z atHost) then true
  else isUnreservedOrSubDelimsRune r.

Definition isQueryOrFragmentRune (r : rune) : bool :=
  if (r =? b2z colonMark) || (r =? b2z atHost) || (r =? b2z slashMark)
     || (r =? b2z questionMark) then true
  else isUnreservedOrSubDelimsRune r.

Definition isUserInfoRune (r : rune) : bool :=
  if r =? b2z colonMark then true else isUnreservedOrSubDelimsRune r.

(** [for r := lo; r <= hi; r++] *)
Definition runes (lo hi : Z) : list Z :=
  map (fun k => lo + Z.of_nat k) (seq 0 (Z.to_nat (hi - lo + 1))).

(** The sets built by [init]. *)
Definition unreservedAndSubDelimsCharSet : charSet :=
  let c := {| BitSet := bitset.New (Z.of_nat (List.length accepted));
              runeFunc := Some isUnreservedOrSubDelimsRune |} in
  let c := fold_left (fun c r => charSet_Set c (uint r)) accepted c in
  let c := fold_left (fun c r => charSet_Set c (uint r)) (runes 0x30 0x39) c in
  let c := fold_left (fun c r => charSet_Set c (uint r)) (runes 0x41 0x5A) c in
  fold_left (fun c r => charSet_Set c (uint r)) (runes 0x61 0x7A) c.

Definition pcharCharSet : charSet :=
  let c := charSet_Clone unreservedAndSubDelimsCharSet in
  let c := charSet_Set c (uint 0x3A) in
  let c := charSet_Set c (uint 0x40) in
  withRuneFunc c isPcharRune.

Definition userInfoCharSet : charSet :=
  let c := charSet_Clone unreservedAndSubDelimsCharSet in
  let c := charSet_Set c (uint 0x3A) in
  withRuneFunc c isUserInfoRune.

Definition queryOrFragmentCharSet : charSet :=
  let c := charSet_Clone unreservedAndSubDelimsCharSet in
  let c := charSet_Set c (uint (b2z colonMark)) in
  let c := charSet_Set c (uint (b2z atHost)) in
  let c := charSet_Set c (uint (b2z slashMark)) in
  let c := charSet_Set c (uint (b2z questionMark)) in
  withRuneFunc c isQueryOrFragmentRune.

End CharSets.

(** * Statements of the specification, as definitions *)

(** The first error of a sequence of checks. *)
Fixpoint firstError (checks : list (option error)) : option error :=
  match checks with
  | [] => None
  | Some e :: _ => Some e
  | None :: checks => firstError checks
  end.

(** Every validation is selected, as for [Parse] and [ParseReference]
    without options. *)
Definition allFlags (o : options) : Prop := validationFlags o = 0xFFFF.

Section Checks.
Context `{Extern}.

(** The check of each component, skipped when the component is empty. *)
Definition schemeCheck (u : URI) (o : options) : option error :=
  if isEmpty (scheme u) then None else validateScheme (scheme u) o.
Definition queryCheck (u : URI) (o : options) : option error :=
  if isEmpty (query u) then None else validateQuery (query u) o.
Definition fragmentCheck (u : URI) (o : options) : option error :=
  if isEmpty (fragment u) then None else validateFragment (fragment u) o.
Definition pathCheck (a : Authority) (o : options) : option error :=
  if isEmpty (path a) then None else validatePath a (path a) o.
Definition hostCheck (a : Authority) (scheme : gostring) (o : options)
  : option error :=
  if isEmpty (host a) then None
  else snd (validateHost (host a) (isIPv6 (ip a)) scheme o).
Definition portCheck (a : Authority) (o : options) : option error :=
  if isEmpty (port a) then None else validatePort (port a) (host a) o.
Definition userinfoCheck (a : Authority) (o : options) : option error :=
  if isEmpty (userinfo a) then None else validateUserInfo (userinfo a) o.

(** scheme, query, fragment, then, for a non-empty hier-part, path, host,
    port, userinfo. *)
Definition canonicalOrder (u : URI) (o : options) : list (option error) :=
  [schemeCheck u o; queryCheck u o; fragmentCheck u o]
  ++ (if isEmpty (hierPart u) then []
      else [pathCheck (authority u) o;
            hostCheck (authority u) (scheme u) o;
            portCheck (authority u) o;
            userinfoCheck (authority u) o]).

End Checks.

(** Two values with the same decomposition. *)
Definition sameParts (u v : URI) : Prop :=
  scheme u = scheme v /\ hierPart u = hierPart v /\ query u = query v
  /\ fragment u = fragment v
  /\ prefix (authority u) = prefix (authority v)
  /\ userinfo (authority u) = userinfo (authority v)
  /\ host (authority u) = host (authority v)
  /\ port (authority u) = port (authority v)
  /\ path (authority u) = path (authority v).

(** The value handed to [validate] by [parse], recovered from the value
    [parse] returns: same scheme, hier-part, query and fragment, and the
    authority as [parseAuthority] splits the hier-part. *)
Definition decomposed (u : URI) (o : options) : URI :=
  mkURI (scheme u) (hierPart u) (query u) (fragment u)
    (fst (parseAuthority (hierPart u) o)).

(** The kinds of the errors raised by the decomposer, before any component
    is validated: misplaced delimiters and bad brackets, a missing scheme, a
    one-character scheme. *)
Definition structural (e : error) : bool :=
  errors_Is e ErrInvalidURI || errors_Is e ErrNoSchemeFound
  || errors_Is e ErrInvalidScheme.

(** What [parse] returns: a decomposer error, or the ordered outcome. *)
Definition ordered `{Extern} (o : options) (r : URI * option error) : Prop :=
  (exists de, snd r = Some de /\ fst r = errURI de /\ structural de = true)
  \/ (sameParts (fst r) (decomposed (fst r) o)
      /\ snd r = firstError (canonicalOrder (decomposed (fst r) o) o)).

(** The port rule, check by check. *)
Definition asciiDigit (c : ascii) : bool := isDigit (b2z c).

Definition decimalValue (s : gostring) : Z :=
  fold_left (fun n c => 10 * n + (b2z c - 0x30)) s 0.

Inductive portVerdict : Set :=
| PortAccepted | PortInvalid | PortMissingHost.

Definition portRule (port host : gostring) : portVerdict :=
  if negb (forallb asciiDigit port) then PortInvalid
  else if isEmpty host then PortMissingHost
  else if 65535 <? decimalValue port then PortInvalid
  else PortAccepted.

Definition portVerdictOf (r : option error) : option portVerdict :=
  match r with
  | None => Some PortAccepted
  | Some e =>
      if errors_Is e ErrInvalidPort && negb (errors_Is e ErrMissingHost)
      then Some PortInvalid
      else if errors_Is e ErrMissingHost && negb (errors_Is e ErrInvalidPort)
      then Some PortMissingHost
      else None
  end.

(** Where the hier-part of [raw] ends: at its first ['?'] or ['#'], or at
    its end; and where the query ends. *)
Definition hierEnd (raw : gostring) : Z :=
  let hE := strings.IndexByte raw questionMark in
  let qE := strings.IndexByte raw fragmentMark in
  if (0 <=? hE) && ((qE <? 0) || (hE <? qE)) then hE
  else if 0 <=? qE then qE else len raw.

Definition queryEnd (raw : gostring) : Z :=
  let qE := strings.IndexByte raw fragmentMark in
  if 0 <=? qE then qE else len raw.

(** The byte [c] occurs in a piece of the authority. *)
Definition inAuthority (c : ascii) (a : Authority) : Prop :=
  In c (prefix a) \/ In c (userinfo a) \/ In c (host a) \/ In c (port a)
  \/ In c (path a).

(** The rendering, separator by separator. *)
Definition withSeparatorAfter (s : gostring) (sep : ascii) : gostring :=
  if isEmpty s then [] else s ++ [sep].
Definition withSeparatorBefore (sep : ascii) (s : gostring) : gostring :=
  if isEmpty s then [] else sep :: s.

Definition rendering (u : URI) : gostring :=
  let a := authority u in
  withSeparatorAfter (scheme u) colonMark
  ++ prefix a
  ++ withSeparatorAfter (userinfo a) atHost
  ++ (if isIPv6 (ip a) then str "[" ++ host a ++ str "]" else host a)
  ++ withSeparatorBefore colonMark (port a)
  ++ path a
  ++ withSeparatorBefore questionMark (query u)
  ++ withSeparatorBefore fragmentMark (fragment u).

(** What follows a ['%'] that does not start a complete escape: nothing,
    one byte, or two bytes that are not both hex digits. *)
Definition incompleteEscape (tail : gostring) : bool :=
  match tail with
  | c1 :: c2 :: _ => negb (isHex (b2z c1)) || negb (isHex (b2z c2))
  | _ => true
  end.

(** The decimal value of the digits of [s] after the value [n]. *)
Definition decimalFrom (s : gostring) (n : Z) : Z :=
  fold_left (fun n c => 10 * n + (b2z c - 0x30)) s n.

(** The byte written by two hex digits. *)
Definition hexByte (h1 h2 : ascii) : option Z :=
  if isHex (b2z h1) && isHex (b2z h2)
  then Some (16 * unhex (b2z h1) + unhex (b2z h2))
  else None.

(** The bytes written by the [n] leading escape groups of [s], the ['%']
    of the first group being already consumed: two hex digits, then
    [n - 1] groups of a ['%'] and two hex digits. *)
Fixpoint escapedGroups (n : nat) (s : gostring) : option (list Z) :=
  match n, s with
  | O, _ => Some []
  | S n', h1 :: h2 :: t =>
      match hexByte h1 h2 with
      | None => None
      | Some b =>
          match n' with
          | O => Some [b]
          | S _ =>
              match t with
              | p :: t' =>
                  if Ascii.eqb p percentMark
                  then option_map (cons b) (escapedGroups n' t')
                  else None
              | [] => None
              end
          end
      end
  | S _, _ => None
  end.

(** The lead byte of a sequence of 1 to 4 bytes announces its length. *)
Definition leadOf (bs : list Z) : Prop :=
  match bs with
  | [c0] => c0 < 0xC0
  | [c0; _] => 0xC0 <= c0 < 0xE0
  | [c0; _; _] => 0xE0 <= c0 < 0xF0
  | [c0; _; _; _] => 0xF0 <= c0
  | _ => False
  end.

(** The bytes consumed by a successful [unescapePercentEncoding]: two hex
    digits, then groups of a ['%'] and two hex digits. *)
Fixpoint escapeTail (l : gostring) : bool :=
  match l with
  | h1 :: h2 :: more =>
      isHex (b2z h1) && isHex (b2z h2)
      && match more with
         | [] => true
         | p :: more' => Ascii.eqb p percentMark && escapeTail more'
         end
  | _ => false
  end.

(** [s] holds a ['%'] that does not start a complete escape. *)
Definition hasIncompleteEscape (s : gostring) : Prop :=
  exists pre tail, s = pre ++ percentMark :: tail
                   /\ incompleteEscape tail = true.

(** The scalars of a host, after percent-decoding: one per rune and one
    per escape, read as the validators read them; [None] when the host does
    not decode. *)
Fixpoint hostScalars (fuel : nat) (s : gostring) : option (list rune) :=
  match s, fuel with
  | [], _ => Some []
  | _, O => None
  | _ :: _, S fuel =>
      let '(r, size) := utf8.DecodeRuneInString s in
      if r =? utf8.RuneError then None
      else
        let s := from s size in
        if r =? b2z percentMark then
          if isEmpty s then None
          else
            match unescapePercentEncoding s with
            | (_, _, Some _) => None
            | (u, offset, None) =>
                option_map (cons u) (hostScalars fuel (from s offset))
            end
        else option_map (cons r) (hostScalars fuel s)
  end.

Definition decodesTo (s : gostring) (rs : list rune) : Prop :=
  exists fuel, hostScalars fuel s = Some rs.

(** The labels: the scalars between dots. *)
Fixpoint splitDots (rs : list rune) : list (list rune) :=
  match rs with
  | [] => [[]]
  | r :: rs' =>
      if r =? b2z dotSeparator then [] :: splitDots rs'
      else
        match splitDots rs' with
        | l :: ls => (r :: l) :: ls
        | [] => [[r]]
        end
  end.

Section Labels.
Context `{Extern}.

Definition letterOrDigit (r : rune) : bool :=
  unicode.IsLetter r || unicode.IsDigit r.

Definition letterDigitHyphen (r : rune) : bool :=
  unicode.IsLetter r || unicode.IsDigit r || (r =? 0x2D).

(** The rule of a label: a letter first, then letters, digits or ['-'],
    and a letter or digit last. *)
Definition labelOK (l : list rune) : bool :=
  match l with
  | [] => false
  | r :: rest =>
      unicode.IsLetter r && forallb letterDigitHyphen rest
      && letterOrDigit (last l r)
  end.

Definition noDots (rs : list rune) : bool :=
  forallb (fun r => negb (r =? b2z dotSeparator)) rs.

(** The same rule with the claim's first clause: an ASCII letter first. *)
Definition labelOK_ascii (l : list rune) : bool :=
  match l with
  | [] => false
  | r :: rest => isASCIILetter r && labelOK l
  end.

End Labels.

(** The error of [parse] for an input without scheme, in URI mode. *)
Definition errNoScheme : error :=
  errorsJoin ErrNoSchemeFound
    (Errorf "for URI (not URI reference), the scheme is required").

(** RFC 3986, section 3.1, with the minimum length of this package:
    [scheme = ALPHA 1*( ALPHA / DIGIT / "+" / "-" / "." )]. *)
Definition schemeGrammar (sch : gostring) : bool :=
  match sch with
  | c :: (_ :: _) as rest =>
      isASCIILetter (b2z c) && forallb
        (fun c => isDigit (b2z c) || isASCIILetter (b2z c)
                  || (b2z c =? 0x2B) || (b2z c =? 0x2D) || (b2z c =? 0x2E))
        rest
  | _ => false
  end.

(** The sentinel errors of the package that name the part of a URI at
    fault. *)
Definition partKinds : list ErrKind :=
  [ErrInvalidURI; ErrNoSchemeFound; ErrInvalidScheme; ErrInvalidQuery;
   ErrInvalidFragment; ErrInvalidPath; ErrInvalidHost;
   ErrInvalidHostAddress; ErrInvalidPort; ErrMissingHost;
   ErrInvalidUserInfo].

Definition classified (e : error) : bool := existsb (errors_Is e) partKinds.

(** The input has a query, a fragment: a ['?'] before any ['#'], a
    ['#']. *)
Definition hasQuery (raw : gostring) : bool :=
  let hE := strings.IndexByte raw questionMark in
  let qE := strings.IndexByte raw fragmentMark in
  (0 <=? hE) && ((qE <? 0) || (hE <? qE)).

Definition hasFragment (raw : gostring) : bool :=
  0 <=? strings.IndexByte raw fragmentMark.

(** The five raw components, put back together with their delimiters. *)
Definition reassembled (raw : gostring) (u : URI) : gostring :=
  withSeparatorAfter (scheme u) colonMark ++ hierPart u
  ++ (if hasQuery raw then questionMark :: query u else [])
  ++ (if hasFragment raw then fragmentMark :: fragment u else []).

(** No byte of [s] is one of [cs]. *)
Definition free (cs : list ascii) (s : gostring) : bool :=
  forallb (fun x => negb (existsb (Ascii.eqb x) cs)) s.

(** An authority whose parts can be told apart in its rendering: without
    the prefix, only a path that does not begin with ["//"]; with it, a
    userinfo without ['/'] and ['@'], a host and a port without the
    delimiters that follow or precede them, a host or a port when there is
    a userinfo, a host between brackets not empty, and a path that is empty
    or begins with ['/']. *)
Definition separable (a : Authority) : bool :=
  if isEmpty (prefix a) then
    isEmpty (userinfo a) && isEmpty (host a) && isEmpty (port a)
    && negb (isIPv6 (ip a))
    && negb (strings.HasPrefix (path a) authorityPrefix)
  else
    streq (prefix a) authorityPrefix
    && free [slashMark; atHost] (userinfo a)
    && free [slashMark; atHost; openingBracketMark] (port a)
    && (if isIPv6 (ip a) then
          negb (isEmpty (host a))
          && free [slashMark; atHost; closingBracketMark] (host a)
        else
          free [slashMark; atHost; colonMark; openingBracketMark] (host a))
    && (isEmpty (userinfo a) || negb (isEmpty (host a))
        || negb (isEmpty (port a)))
    && match path a with [] => true | c :: _ => Ascii.eqb c slashMark end.

(** The same authority, but for the error and the IPv4 and IPvFuture
    marks. *)
Definition sameAuthority (a b : Authority) : Prop :=
  prefix a = prefix b /\ userinfo a = userinfo b /\ host a = host b
  /\ port a = port b /\ path a = path b
  /\ isIPv6 (ip a) = isIPv6 (ip b).

(** A value whose rendering can be cut again: a scheme of the grammar, a
    separable authority without ['?'] and ['#'], a query without ['#']. *)
Definition wellFormed (u : URI) : bool :=
  schemeGrammar (scheme u) && separable (authority u)
  && free [questionMark; fragmentMark] (Authority_String (authority u))
  && free [fragmentMark] (query u).

(** An authority with nothing but a path, as [parse] returns for an input
    without ["//"]. *)
Definition pathOnly (a : Authority) : bool :=
  isEmpty (prefix a) && isEmpty (userinfo a) && isEmpty (host a)
  && isEmpty (port a) && negb (isIPv6 (ip a)).

(** Two answers of [IsInSet] that agree; a call of a nil function agrees
    with nothing. *)
Definition sameVerdict (a b : option bool) : bool :=
  match a, b with
  | Some x, Some y => Bool.eqb x y
  | _, _ => false
  end.

(** The rendering of a value whose host is written without brackets. *)
Definition renderingPlainHost (u : URI) : gostring :=
  let a := authority u in
  withSeparatorAfter (scheme u) colonMark
  ++ prefix a
  ++ withSeparatorAfter (userinfo a) atHost
  ++ host a
  ++ withSeparatorBefore colonMark (port a)
  ++ path a
  ++ withSeparatorBefore questionMark (query u)
  ++ withSeparatorBefore fragmentMark (fragment u).

(** * Theorems *)

(** ** The returned error is the embedded error *)

Section ErrEmbedded.
Context `{Extern}.

Lemma failed_err e : Err (fst (failed e)) = snd (failed e).
Proof. reflexivity. Qed.

Lemma finish_err u o : Err (fst (finish u o)) = snd (finish u o).
Proof. reflexivity. Qed.

Ltac err_step :=
  match goal with
  | |- Err (fst (failed _)) = _ => apply failed_err
  | |- Err (fst (finish _ _)) = _ => apply finish_err
  | |- context [if ?b then _ else _] => destruct b
  | |- context [match ?x with _ => _ end] => destruct x
  end.

Lemma parse_hier_err raw o sch sE hE qE :
  Err (fst (parse_hier raw o sch sE hE qE))
  = snd (parse_hier raw o sch sE hE qE).
Proof. unfold parse_hier. repeat err_step. Qed.

Lemma parse_err raw o : Err (fst (parse raw o)) = snd (parse raw o).
Proof.
  unfold parse.
  repeat first [ apply parse_hier_err | err_step | reflexivity ].
Qed.

(** C9: for every raw input and every option list, the value returned by
    [Parse] and by [ParseReference] embeds exactly the returned error:
    [u.Err()] is the second component of the pair, on failure and on
    success alike. *)
Theorem Parse_returns_embedded_error (raw : gostring) (opts : list Option) :
  Err (fst (Parse raw opts)) = snd (Parse raw opts)
  /\ Err (fst (ParseReference raw opts)) = snd (ParseReference raw opts).
Proof. split; apply parse_err. Qed.

End ErrEmbedded.

(** ** Builders on a value that carries an error *)

Section Sticky.
Context `{Extern}.

Lemma validated_err u o : err (validated u o) = snd (validate u o).
Proof. unfold validated. destruct (validate u o); reflexivity. Qed.

Lemma propagated_err u : err (propagated u) = err u.
Proof. reflexivity. Qed.

(** C8: on a value whose error is set, every builder operation returns
    the value itself: no component is replaced and [validate] does not
    run. On a value whose error is clear, the error of the result is the
    one the builder's re-validation produced. *)
Theorem builders_keep_failed_value (u : URI) :
  Err u <> None ->
  forall (s : gostring) (a : Authority) (opts : list Option)
         (elems : list gostring),
    WithScheme u s opts = u /\ WithAuthority u a opts = u
    /\ WithUserInfo u s opts = u /\ WithHost u s opts = u
    /\ WithPort u s opts = u /\ WithPath u s opts = u
    /\ WithQuery u s opts = u /\ WithFragment u s opts = u
    /\ WithJoinPath u elems = u.
Proof.
  intros Hu s a opts elems.
  unfold WithScheme, WithAuthority, WithUserInfo, WithHost, WithPort,
    WithPath, WithQuery, WithFragment, WithJoinPath.
  destruct (Err u) as [e|]; [ | congruence ].
  repeat split.
Qed.

(** The other half of the stickiness: a builder stores the outcome of its
    re-validation when, and only when, the previous error was clear. *)
Lemma builders_store_fresh_error (u : URI) (s : gostring)
  (opts : list Option) :
  Err u = None ->
  Err (WithScheme u s opts)
  = snd (validate (setScheme u s)
           (builderOptions opts (Z.lor flagValidateScheme flagValidateHost)))
  /\ Err (WithPort u s opts)
     = snd (validate
              (setAuthority u
                 (setPort (withEnsuredAuthority (authority u)) s))
              (builderOptions opts flagValidatePort))
  /\ Err (WithQuery u s opts)
     = snd (validate (setQuery u s) (builderOptions opts flagValidateQuery)).
Proof.
  intros Hu. unfold WithScheme, WithPort, WithQuery. rewrite Hu.
  unfold Err. rewrite ?propagated_err, !validated_err. auto.
Qed.

End Sticky.

(** A value rejected for its port keeps its error and its components through
    every builder. *)
Lemma builders_keep_failed_value_witness :
  let u := fst (@Parse modelled (str "https://host:8080a?q=v") []) in
  Err u <> None
  /\ @WithPort modelled u (str "8080") [] = u
  /\ @WithJoinPath modelled u [str "a"] = u.
Proof.
  intro u.
  assert (Hu : Err u <> None) by (vm_compute; discriminate).
  split; [ exact Hu | ].
  destruct (@builders_keep_failed_value modelled u Hu (str "8080")
              emptyAuthority [] [str "a"])
    as (_ & _ & _ & _ & Hp & _ & _ & _ & Hj).
  split; assumption.
Defined.

(** ** Strings: indices and slices *)

Lemma len_nonneg s : 0 <= len s.
Proof. unfold len. lia. Qed.

Lemma len_app s t : len (s ++ t) = len s + len t.
Proof. unfold len. rewrite length_app. lia. Qed.

Lemma len_cons c s : len (c :: s) = len s + 1.
Proof. unfold len. simpl List.length. lia. Qed.

Lemma len_nil : len [] = 0.
Proof. reflexivity. Qed.

Lemma isEmpty_len s : isEmpty s = (len s =? 0).
Proof. destruct s; [ reflexivity | rewrite len_cons ]. simpl.
  pose proof (len_nonneg s). symmetry. apply Z.eqb_neq. lia. Qed.

Lemma IndexByte_range s c :
  strings.IndexByte s c = -1 \/ 0 <= strings.IndexByte s c < len s.
Proof.
  induction s as [|x s IH]; simpl; [ now left | ].
  rewrite len_cons. destruct (Ascii.eqb x c).
  - right. pose proof (len_nonneg s). lia.
  - destruct IH as [-> | IH]; [ now left | ].
    destruct (Z.ltb_spec (strings.IndexByte s c) 0); [ lia | right; lia ].
Qed.

Lemma IndexByte_absent s c :
  ~ In c s -> strings.IndexByte s c = -1.
Proof.
  induction s as [|x s IH]; simpl; intros Hn; [ reflexivity | ].
  destruct (Ascii.eqb_spec x c) as [-> | _]; [ tauto | ].
  rewrite IH by tauto. reflexivity.
Qed.

Lemma IndexByte_app s t c :
  ~ In c s -> strings.IndexByte (s ++ c :: t) c = len s.
Proof.
  induction s as [|x s IH]; simpl; intros Hn.
  - rewrite Ascii.eqb_refl. reflexivity.
  - destruct (Ascii.eqb_spec x c) as [-> | _]; [ tauto | ].
    rewrite IH by tauto. rewrite len_cons.
    pose proof (len_nonneg s).
    destruct (Z.ltb_spec (len s) 0); lia.
Qed.

Lemma IndexByte_app_absent s t c :
  ~ In c s -> strings.IndexByte (s ++ t) c
              = if strings.IndexByte t c <? 0 then -1
                else len s + strings.IndexByte t c.
Proof.
  induction s as [|x s IH]; cbn [strings.IndexByte app]; intros Hn;
    simpl in Hn.
  - destruct (IndexByte_range t c) as [-> | Hr]; [ reflexivity | ].
    destruct (Z.ltb_spec (strings.IndexByte t c) 0); [ lia | ].
    rewrite len_nil. lia.
  - destruct (Ascii.eqb_spec x c) as [-> | _]; [ tauto | ].
    rewrite IH by tauto. rewrite len_cons.
    destruct (IndexByte_range t c) as [-> | Hr]; [ reflexivity | ].
    pose proof (len_nonneg s).
    destruct (Z.ltb_spec (strings.IndexByte t c) 0); [ lia | ].
    destruct (Z.ltb_spec (len s + strings.IndexByte t c) 0); lia.
Qed.

Lemma from_app_len s t : from (s ++ t) (len s) = t.
Proof.
  unfold from, len. rewrite Nat2Z.id.
  rewrite skipn_app, skipn_all, Nat.sub_diag. reflexivity.
Qed.

Lemma upto_app_len s t : upto (s ++ t) (len s) = s.
Proof.
  unfold upto, len. rewrite Nat2Z.id.
  rewrite firstn_app, firstn_all, Nat.sub_diag, firstn_O, app_nil_r.
  reflexivity.
Qed.

Lemma upto_all s : upto s (len s) = s.
Proof. unfold upto, len. rewrite Nat2Z.id. apply firstn_all. Qed.

Lemma from_0 s : from s 0 = s.
Proof. reflexivity. Qed.

(** ** Empty hosts *)

Section EmptyHost.
Context `{Extern}.

Definition schemeByte (c : ascii) : bool :=
  isDigit (b2z c) || isASCIILetter (b2z c)
  || (b2z c =? 0x2B) || (b2z c =? 0x2D) || (b2z c =? 0x2E).

Lemma validateScheme_bytes sch o :
  validateScheme sch o = None ->
  exists c rest, sch = c :: rest /\ isASCIILetter (b2z c) = true
                 /\ rest <> [] /\ forallb schemeByte rest = true.
Proof.
  unfold validateScheme.
  destruct sch as [|c rest]; [ intros Hv; discriminate Hv | ].
  rewrite len_cons.
  destruct (Z.ltb_spec (len rest + 1) 2) as [|Hl];
    [ intros Hv; discriminate Hv | ].
  change (at_ (c :: rest) 0) with c.
  destruct (isASCIILetter (b2z c)) eqn:Hc; [ | intros Hv; discriminate Hv ].
  change (from (c :: rest) 1) with rest. simpl negb. cbv iota.
  intros Hloop. exists c, rest.
  split; [ reflexivity | ]. split; [ exact Hc | ]. split.
  - destruct rest; [ rewrite len_nil in Hl; lia | discriminate ].
  - clear Hl. induction rest as [|x rest IH]; [ reflexivity | ].
    simpl. unfold schemeByte at 1.
    destruct (isDigit (b2z x)) eqn:Hd; [ simpl; apply IH, Hloop | ].
    destruct (isASCIILetter (b2z x)) eqn:Ha; [ simpl; apply IH, Hloop | ].
    destruct ((b2z x =? 43) || (b2z x =? 45) || (b2z x =? 46)) eqn:Hm;
      [ | discriminate Hloop ].
    simpl. rewrite Hm. apply IH, Hloop.
Qed.

Lemma schemeByte_not c x :
  schemeByte c = true ->
  x = colonMark \/ x = questionMark \/ x = fragmentMark \/ x = slashMark ->
  c <> x.
Proof.
  intros Hc Hx ->. 
  destruct Hx as [-> | [-> | [-> | ->]]]; discriminate Hc.
Qed.

Lemma letter_not c x :
  isASCIILetter (b2z c) = true ->
  x = colonMark \/ x = questionMark \/ x = fragmentMark \/ x = slashMark ->
  c <> x.
Proof.
  intros Hc Hx ->. 
  destruct Hx as [-> | [-> | [-> | ->]]]; discriminate Hc.
Qed.

Lemma scheme_no_mark c rest x :
  isASCIILetter (b2z c) = true -> forallb schemeByte rest = true ->
  x = colonMark \/ x = questionMark \/ x = fragmentMark \/ x = slashMark ->
  ~ In x (c :: rest).
Proof.
  intros Hc Hr Hx [He | Hin].
  - exact (letter_not c x Hc Hx He).
  - rewrite forallb_forall in Hr. 
    exact (schemeByte_not x x (Hr x Hin) Hx eq_refl).
Qed.

Lemma slice_app_tail s t : slice (s ++ t) (len s) (len s + len t) = t.
Proof.
  unfold slice. rewrite from_app_len.
  replace (len s + len t - len s) with (len t) by lia. apply upto_all.
Qed.

Lemma slice_app_head s t : slice (s ++ t) 0 (len s) = s.
Proof.
  unfold slice. rewrite from_0, Z.sub_0_r. apply upto_app_len.
Qed.

(** The decomposition of [scheme ":" hier] when [hier] has no ['?'] and no
    ['#'] and is not empty. *)
Lemma parse_scheme_hier sch hier o :
  validateScheme sch o = None ->
  ~ In questionMark hier -> ~ In fragmentMark hier -> hier <> [] ->
  parse (sch ++ colonMark :: hier) o
  = match parseAuthority hier o with
    | (_, Some e) => failed (errorsJoin ErrInvalidURI e)
    | (a, None) => finish (mkURI sch hier [] [] a) o
    end.
Proof.
  intros Hv Hq Hf Hne.
  destruct (validateScheme_bytes sch o Hv) as (c & rest & -> & Hc & Hr & Hb).
  assert (Hlen : 2 <= len (c :: rest)).
  { rewrite len_cons. destruct rest; [ congruence | ].
    rewrite len_cons. pose proof (len_nonneg rest). lia. }
  assert (Hlh : 1 <= len hier).
  { destruct hier; [ congruence | ]. rewrite len_cons.
    pose proof (len_nonneg hier). lia. }
  set (sch := c :: rest) in *.
  assert (HsE : strings.IndexByte (sch ++ colonMark :: hier) colonMark
                = len sch).
  { apply IndexByte_app, scheme_no_mark; auto. }
  assert (HhE : strings.IndexByte (sch ++ colonMark :: hier) questionMark
                = -1).
  { apply IndexByte_absent. intros Hin. apply in_app_or in Hin.
    destruct Hin as [Hin | [Hin | Hin]]; [ | discriminate Hin | tauto ].
    revert Hin. apply scheme_no_mark; auto. }
  assert (HqE : strings.IndexByte (sch ++ colonMark :: hier) fragmentMark
                = -1).
  { apply IndexByte_absent. intros Hin. apply in_app_or in Hin.
    destruct Hin as [Hin | [Hin | Hin]]; [ | discriminate Hin | tauto ].
    revert Hin. apply scheme_no_mark; auto. }
  assert (Hrel : strings.HasPrefix (sch ++ colonMark :: hier) authorityPrefix
                 = false).
  { subst sch. cbn [app strings.HasPrefix authorityPrefix str
                    list_ascii_of_string].
    destruct (Ascii.eqb_spec c "/"%char) as [He | _]; [ | reflexivity ].
    exfalso. exact (letter_not c slashMark Hc (or_intror (or_intror (or_intror eq_refl))) He). }
  unfold parse. rewrite HsE, HhE, HqE, Hrel.
  assert (Hraw : len (sch ++ colonMark :: hier) = len sch + 1 + len hier).
  { rewrite len_app, len_cons. lia. }
  replace (len sch =? 0) with false by (symmetry; apply Z.eqb_neq; lia).
  replace (len sch =? 1) with false by (symmetry; apply Z.eqb_neq; lia).
  replace (0 <? len sch) with true by (symmetry; apply Z.ltb_lt; lia).
  replace (len sch + 1 =? len (sch ++ colonMark :: hier)) with false
    by (symmetry; apply Z.eqb_neq; lia).
  cbn [Z.eqb orb andb negb Z.ltb Z.compare].
  rewrite slice_app_head.
  unfold parse_hier.
  replace (-1 =? len (sch ++ colonMark :: hier) - 1) with false
    by (symmetry; apply Z.eqb_neq; lia).
  cbn [Z.eqb orb andb negb Z.ltb Z.compare].
  replace (slice (sch ++ colonMark :: hier) (len sch + 1)
             (len (sch ++ colonMark :: hier))) with hier.
  { reflexivity. }
  replace (sch ++ colonMark :: hier) with ((sch ++ [colonMark]) ++ hier)
    by (rewrite <- app_assoc; reflexivity).
  replace (len sch + 1) with (len (sch ++ [colonMark]))
    by (rewrite len_app; reflexivity).
  rewrite (len_app (sch ++ [colonMark]) hier). symmetry. apply slice_app_tail.
Qed.


Lemma finish_snd u o : snd (finish u o) = snd (validate u o).
Proof.
  unfold finish. cbn [snd]. rewrite propagated_err. apply validated_err.
Qed.

Lemma finish_parts u o : sameParts (fst (finish u o)) u.
Proof.
  unfold finish, propagated, validated, sameParts. cbn [fst].
  destruct (validate u o). cbn. repeat split.
Qed.

(** C10: the host validator runs on non-empty hosts only. With an empty
    host, [validateForScheme] returns the outcome of the path, port and
    userinfo checks and no IP type, whatever the scheme and the host
    validators; the DNS validator would have rejected the empty host. So,
    under every valid scheme, ["scheme://"] and ["scheme:///path"] parse
    successfully, with the authority prefix and an empty host. *)
Theorem empty_host_is_not_validated (a : Authority) (sch : gostring)
  (o : options) :
  host a = [] -> validateScheme sch o = None ->
  validateForScheme a sch o
  = (noIP,
     firstError
       [ if flagSet o flagValidatePath then pathCheck a o else None;
         if flagSet o flagValidatePort then portCheck a o else None;
         if flagSet o flagValidateUserInfo then userinfoCheck a o else None ])
  /\ validateDNSHostForScheme [] <> None
  /\ (exists u, parse (sch ++ str "://") o = (u, None)
                /\ prefix (authority u) = authorityPrefix
                /\ host (authority u) = [])
  /\ (exists u, parse (sch ++ str ":///path") o = (u, None)
                /\ prefix (authority u) = authorityPrefix
                /\ host (authority u) = []
                /\ path (authority u) = str "/path").
Proof.
  intros Hh Hv. split; [ | split; [ | split ] ].
  - unfold validateForScheme, pathCheck, portCheck, userinfoCheck.
    rewrite Hh. cbn [isEmpty negb andb].
    destruct (isEmpty (path a)), (flagSet o flagValidatePath);
      cbn [negb andb firstError];
      try (destruct (validatePath a (path a) o); [ reflexivity | ]);
      destruct (isEmpty (port a)), (flagSet o flagValidatePort);
      cbn [negb andb firstError];
      try (destruct (validatePort (port a) [] o); [ reflexivity | ]);
      destruct (isEmpty (userinfo a)), (flagSet o flagValidateUserInfo);
      cbn [negb andb firstError];
      try (destruct (validateUserInfo (userinfo a) o)); reflexivity.
  - discriminate.
  - change (sch ++ str "://") with (sch ++ colonMark :: str "//").
    rewrite parse_scheme_hier;
      [ | assumption | cbv; intuition discriminate
        | cbv; intuition discriminate | discriminate ].
    assert (Hpa : exists a',
               parseAuthority (str "//") o = (a', None)
               /\ prefix a' = authorityPrefix /\ host a' = []
               /\ path a' = [] /\ port a' = [] /\ userinfo a' = [])
      by (eexists; split; [ reflexivity | repeat split ]).
    destruct Hpa as (a' & -> & Hp' & Hh' & Hpt' & Hpo' & Hu').
    set (u0 := mkURI sch (str "//") [] [] a').
    exists (fst (finish u0 o)).
    destruct (finish_parts u0 o) as (_ & _ & _ & _ & Hp & _ & Hho & _).
    split; [ | split; [ rewrite Hp; exact Hp' | rewrite Hho; exact Hh' ] ].
    rewrite (surjective_pairing (finish u0 o)) at 1. f_equal.
    rewrite finish_snd. unfold validate.
    cbn [scheme query fragment u0 mkURI isEmpty negb andb hierPart authority].
    assert (Ha : validateForScheme a' sch o = (noIP, None)).
    { unfold validateForScheme. rewrite Hh', Hpt', Hpo', Hu'. reflexivity. }
    rewrite Ha, Hv.
    destruct (negb (isEmpty sch) && flagSet o flagValidateScheme);
      reflexivity.
  - change (sch ++ str ":///path") with (sch ++ colonMark :: str "///path").
    rewrite parse_scheme_hier;
      [ | assumption | cbv; intuition discriminate
        | cbv; intuition discriminate | discriminate ].
    assert (Hpa : exists a',
               parseAuthority (str "///path") o = (a', None)
               /\ prefix a' = authorityPrefix /\ host a' = []
               /\ path a' = str "/path" /\ port a' = []
               /\ userinfo a' = [])
      by (eexists; split; [ reflexivity | repeat split ]).
    destruct Hpa as (a' & -> & Hp' & Hh' & Hpt' & Hpo' & Hu').
    set (u0 := mkURI sch (str "///path") [] [] a').
    exists (fst (finish u0 o)).
    destruct (finish_parts u0 o) as (_ & _ & _ & _ & Hp & _ & Hho & _ & Hpa).
    split; [ | split; [ rewrite Hp; exact Hp'
                      | split; [ rewrite Hho; exact Hh'
                               | rewrite Hpa; exact Hpt' ] ] ].
    rewrite (surjective_pairing (finish u0 o)) at 1. f_equal.
    rewrite finish_snd. unfold validate.
    cbn [scheme query fragment u0 mkURI isEmpty negb andb hierPart authority].
    assert (Ha : validateForScheme a' sch o = (noIP, None)).
    { unfold validateForScheme, validatePath.
      rewrite Hh', Hpt', Hpo', Hu'.
      destruct (flagSet o flagValidatePath); reflexivity. }
    rewrite Ha, Hv.
    destruct (negb (isEmpty sch) && flagSet o flagValidateScheme);
      reflexivity.
Qed.

End EmptyHost.

Lemma empty_host_is_not_validated_witness :
  host emptyAuthority = []
  /\ validateScheme (str "https") packageLevelDefaults = None
  /\ (exists u, @parse modelled (str "https://") packageLevelDefaults
                = (u, None)
                /\ prefix (authority u) = authorityPrefix
                /\ host (authority u) = []).
Proof.
  assert (Hh : host emptyAuthority = []) by reflexivity.
  assert (Hv : validateScheme (str "https") packageLevelDefaults = None)
    by reflexivity.
  split; [ exact Hh | split; [ exact Hv | ] ].
  exact (proj1 (proj2 (proj2
    (@empty_host_is_not_validated modelled emptyAuthority (str "https")
       packageLevelDefaults Hh Hv)))).
Defined.

(** ** Bytes and bit arithmetic *)

Lemma b2z_range c : 0 <= b2z c < 256.
Proof.
  unfold b2z. pose proof (N_ascii_bounded c) as Hb. lia.
Qed.

Lemma b2z_inj c d : b2z c = b2z d -> c = d.
Proof.
  unfold b2z. intros Hcd. apply N2Z.inj in Hcd.
  rewrite <- (ascii_N_embedding c), <- (ascii_N_embedding d). congruence.
Qed.

Lemma land_low x n : 0 <= n -> Z.land x (2 ^ n - 1) = x mod 2 ^ n.
Proof.
  intros Hn. rewrite <- Z.land_ones by assumption.
  rewrite Z.ones_equiv. reflexivity.
Qed.

Lemma lor_shiftl_add x y n :
  0 <= n -> 0 <= y < 2 ^ n -> Z.lor (Z.shiftl x n) y = x * 2 ^ n + y.
Proof.
  intros Hn Hy.
  assert (Hd : Z.land (Z.shiftl x n) y = 0).
  { apply Z.bits_inj'. intros m Hm. rewrite Z.land_spec, Z.bits_0.
    destruct (Z.lt_ge_cases m n) as [Hlt | Hge].
    - rewrite Z.shiftl_spec_low by assumption. reflexivity.
    - replace y with (y mod 2 ^ n) by (apply Z.mod_small; assumption).
      rewrite <- Z.land_ones by assumption.
      rewrite Z.land_spec, Z.ones_spec_high by lia.
      rewrite !andb_false_r. reflexivity. }
  pose proof (Z.add_lor_land (Z.shiftl x n) y) as Ha.
  rewrite Hd, Z.add_0_r in Ha. rewrite Ha.
  rewrite Z.shiftl_mul_pow2 by assumption. reflexivity.
Qed.

Lemma dec2 a b : 0 <= b < 64 -> Z.lor (Z.shiftl a 6) b = a * 64 + b.
Proof. intros Hb. apply (lor_shiftl_add a b 6); simpl; lia. Qed.

Lemma dec3 a b c :
  0 <= b < 64 -> 0 <= c < 64 ->
  Z.lor (Z.lor (Z.shiftl a 12) (Z.shiftl b 6)) c = a * 4096 + b * 64 + c.
Proof.
  intros Hb Hc.
  replace (Z.shiftl a 12) with (Z.shiftl (Z.shiftl a 6) 6)
    by (rewrite Z.shiftl_shiftl by lia; reflexivity).
  rewrite <- Z.shiftl_lor, dec2 by assumption.
  rewrite dec2 by assumption. lia.
Qed.

Lemma dec4 a b c d :
  0 <= b < 64 -> 0 <= c < 64 -> 0 <= d < 64 ->
  Z.lor (Z.lor (Z.lor (Z.shiftl a 18) (Z.shiftl b 12)) (Z.shiftl c 6)) d
  = a * 262144 + b * 4096 + c * 64 + d.
Proof.
  intros Hb Hc Hd.
  replace (Z.shiftl a 18) with (Z.shiftl (Z.shiftl a 12) 6)
    by (rewrite Z.shiftl_shiftl by lia; reflexivity).
  replace (Z.shiftl b 12) with (Z.shiftl (Z.shiftl b 6) 6)
    by (rewrite Z.shiftl_shiftl by lia; reflexivity).
  rewrite <- !Z.shiftl_lor.
  replace (Z.shiftl a 12) with (Z.shiftl (Z.shiftl a 6) 6)
    by (rewrite Z.shiftl_shiftl by lia; reflexivity).
  rewrite <- !Z.shiftl_lor.
  rewrite (dec2 a b), (dec2 _ c), (dec2 _ d) by assumption. lia.
Qed.

Lemma mask6 x : Z.land x 0x3F = x mod 64.
Proof. apply (land_low x 6). lia. Qed.
Lemma mask5 x : Z.land x 0x1F = x mod 32.
Proof. apply (land_low x 5). lia. Qed.
Lemma mask4 x : Z.land x 0x0F = x mod 16.
Proof. apply (land_low x 4). lia. Qed.
Lemma mask3 x : Z.land x 0x07 = x mod 8.
Proof. apply (land_low x 3). lia. Qed.

(** ** utf8.DecodeRune *)

Ltac zbool :=
  repeat (match goal with
          | |- context [?a <? ?b] => destruct (Z.ltb_spec a b)
          | |- context [?a <=? ?b] => destruct (Z.leb_spec a b)
          | |- context [?a =? ?b] => destruct (Z.eqb_spec a b)
          end; cbn [andb orb negb]).

(** The decoded value, in arithmetic. *)
Ltac pair_inv :=
  let Heq := fresh "Heq" in
  intros Heq; apply pair_equal_spec in Heq; destruct Heq as [<- <-].

Lemma DecodeRune_value p r size :
  utf8.DecodeRune p = (r, size) ->
  match p with
  | [] => r = utf8.RuneError /\ size = 0
  | s0 :: rest =>
      (s0 < 0x80 /\ r = s0 /\ size = 1)
      \/ (r = utf8.RuneError /\ size = 1)
      \/ (0x80 <= s0
          /\ exists sz lo hi, utf8.first s0 = Some (sz, (lo, hi))
             /\ size = sz
             /\ match rest with
                | s1 :: rest1 =>
                    lo <= s1 <= hi
                    /\ ((sz = 2 /\ r = s0 mod 32 * 64 + s1 mod 64)
                        \/ match rest1 with
                           | s2 :: rest2 =>
                               0x80 <= s2 <= 0xBF
                               /\ ((sz = 3
                                    /\ r = s0 mod 16 * 4096 + s1 mod 64 * 64
                                           + s2 mod 64)
                                   \/ match rest2 with
                                      | s3 :: _ =>
                                          0x80 <= s3 <= 0xBF /\ sz = 4
                                          /\ r = s0 mod 8 * 262144
                                                 + s1 mod 64 * 4096
                                                 + s2 mod 64 * 64 + s3 mod 64
                                      | [] => False
                                      end)
                           | [] => False
                           end)
                | [] => False
                end)
  end.
Proof.
  unfold utf8.DecodeRune.
  destruct p as [|s0 rest]; [ pair_inv; auto | ].
  destruct (Z.ltb_spec s0 utf8.RuneSelf) as [Hs0 | Hs0];
    [ pair_inv; left; unfold utf8.RuneSelf in Hs0; auto | ].
  destruct (utf8.first s0) as [[sz [lo hi]]|] eqn:Hfirst;
    [ | pair_inv; auto ].
  assert (Hsz : sz = 2 \/ sz = 3 \/ sz = 4).
  { revert Hfirst. unfold utf8.first. zbool; intros [= <- _ _]; auto. }
  destruct (Z.of_nat (List.length (s0 :: rest)) <? sz);
    [ pair_inv; auto | ].
  destruct rest as [|s1 rest1]; [ pair_inv; auto | ].
  destruct (Z.ltb_spec s1 lo); cbn [orb]; [ pair_inv; auto | ].
  destruct (Z.ltb_spec hi s1); cbn [orb]; [ pair_inv; auto | ].
  assert (Hm6 : forall x, 0 <= x mod 64 < 64)
    by (intros x; apply Z.mod_pos_bound; lia).
  destruct (Z.leb_spec sz 2).
  { pair_inv. right; right. split; [ exact Hs0 | ].
    exists sz, lo, hi. repeat split; try lia.
    left. split; [ lia | ]. rewrite mask5, mask6, dec2 by apply Hm6.
    reflexivity. }
  destruct rest1 as [|s2 rest2]; [ pair_inv; auto | ].
  unfold utf8.iscont, utf8.locb, utf8.hicb.
  destruct (Z.leb_spec 128 s2); cbn [andb negb]; [ | pair_inv; auto ].
  destruct (Z.leb_spec s2 191); cbn [andb negb]; [ | pair_inv; auto ].
  destruct (Z.leb_spec sz 3).
  { pair_inv. right; right. split; [ exact Hs0 | ].
    exists sz, lo, hi. repeat split; try lia.
    right. split; [ lia | ]. left. split; [ lia | ].
    rewrite mask4, !mask6, dec3 by apply Hm6. reflexivity. }
  destruct rest2 as [|s3 rest3]; [ pair_inv; auto | ].
  destruct (Z.leb_spec 128 s3); cbn [andb negb]; [ | pair_inv; auto ].
  destruct (Z.leb_spec s3 191); cbn [andb negb]; [ | pair_inv; auto ].
  pair_inv. right; right. split; [ exact Hs0 | ].
  exists sz, lo, hi. repeat split; try lia.
  right. split; [ lia | ]. right. split; [ lia | ]. split; [ lia | ].
  rewrite mask3, !mask6, dec4 by apply Hm6. reflexivity.
Qed.

Lemma DecodeRune_ascii c s :
  b2z c < 0x80 -> utf8.DecodeRuneInString (c :: s) = (b2z c, 1).
Proof.
  intros Hc. unfold utf8.DecodeRuneInString, utf8.DecodeRune. cbn [map].
  destruct (Z.ltb_spec (b2z c) utf8.RuneSelf) as [_ | Hge];
    [ reflexivity | unfold utf8.RuneSelf in Hge; lia ].
Qed.

Lemma first_cases s0 sz lo hi :
  utf8.first s0 = Some (sz, (lo, hi)) ->
  (0xC2 <= s0 <= 0xDF /\ sz = 2 /\ lo = 0x80 /\ hi = 0xBF)
  \/ (0xE0 <= s0 <= 0xEF /\ sz = 3 /\ 0x80 <= lo /\ hi <= 0xBF
      /\ (s0 = 0xE0 -> lo = 0xA0) /\ (s0 = 0xED -> hi = 0x9F))
  \/ (0xF0 <= s0 <= 0xF4 /\ sz = 4 /\ 0x80 <= lo /\ hi <= 0xBF
      /\ (s0 = 0xF0 -> lo = 0x90) /\ (s0 = 0xF4 -> hi = 0x8F)).
Proof.
  unfold utf8.first, utf8.locb, utf8.hicb.
  zbool; intros Hf; inversion Hf; subst; lia.
Qed.

(** A lead byte that is not ASCII never decodes to an ASCII rune. *)
Lemma DecodeRune_nonascii s0 rest :
  0x80 <= s0 -> 0x80 <= fst (utf8.DecodeRune (s0 :: rest)).
Proof.
  intros Hs0.
  destruct (utf8.DecodeRune (s0 :: rest)) as [r size] eqn:Hd.
  apply DecodeRune_value in Hd. cbn [fst].
  destruct Hd as [(Hlt & _) | [(-> & _) | (_ & sz & lo & hi & Hf & _ & Hr)]];
    [ lia | unfold utf8.RuneError; lia | ].
  apply first_cases in Hf.
  destruct rest as [|s1 rest1]; [ contradiction | ].
  destruct Hr as (Hs1 & [(Hsz & ->) | Hr]).
  { destruct Hf as [Hf | [Hf | Hf]]; try lia.
    assert (2 <= s0 mod 32) by (Z.div_mod_to_equations; lia).
    assert (0 <= s1 mod 64) by (Z.div_mod_to_equations; lia). lia. }
  destruct rest1 as [|s2 rest2]; [ contradiction | ].
  destruct Hr as (Hs2 & [(Hsz & ->) | Hr]).
  { destruct Hf as [Hf | [Hf | Hf]]; try lia.
    assert (0 <= s2 mod 64) by (Z.div_mod_to_equations; lia).
    destruct (Z.eq_dec s0 0xE0) as [He | He].
    - assert (s0 mod 16 = 0) by (Z.div_mod_to_equations; lia).
      assert (32 <= s1 mod 64) by (Z.div_mod_to_equations; lia). lia.
    - assert (1 <= s0 mod 16) by (Z.div_mod_to_equations; lia).
      assert (0 <= s1 mod 64) by (Z.div_mod_to_equations; lia). lia. }
  destruct rest2 as [|s3 rest3]; [ contradiction | ].
  destruct Hr as (Hs3 & Hsz & ->).
  destruct Hf as [Hf | [Hf | Hf]]; try lia.
  assert (0 <= s3 mod 64) by (Z.div_mod_to_equations; lia).
  assert (0 <= s2 mod 64) by (Z.div_mod_to_equations; lia).
  destruct (Z.eq_dec s0 0xF0) as [He | He].
  - assert (s0 mod 8 = 0) by (Z.div_mod_to_equations; lia).
    assert (16 <= s1 mod 64) by (Z.div_mod_to_equations; lia). lia.
  - assert (1 <= s0 mod 8) by (Z.div_mod_to_equations; lia).
    assert (0 <= s1 mod 64) by (Z.div_mod_to_equations; lia). lia.
Qed.

(** ** The port *)

Lemma asciiDigit_ascii c : asciiDigit c = true -> b2z c < 0x80.
Proof. unfold asciiDigit, isDigit. lia. Qed.

Lemma isNotDigit_isDigit r : isNotDigit r = negb (isDigit r).
Proof. unfold isNotDigit, isDigit. lia. Qed.

Lemma first_rune_not_digit c s :
  asciiDigit c = false ->
  isNotDigit (fst (utf8.DecodeRuneInString (c :: s))) = true.
Proof.
  intros Hc. destruct (Z.lt_ge_cases (b2z c) 0x80) as [Hlt | Hge].
  - rewrite DecodeRune_ascii by assumption. cbn [fst].
    rewrite isNotDigit_isDigit. unfold asciiDigit in Hc. rewrite Hc.
    reflexivity.
  - unfold utf8.DecodeRuneInString. cbn [map].
    pose proof (DecodeRune_nonascii (b2z c) (map b2z s) Hge) as Hr.
    unfold isNotDigit. lia.
Qed.

Lemma find_rangeString_digits s : forall fuel pos,
  forallb asciiDigit s = true ->
  find (fun pr : Z * rune => isNotDigit (snd pr)) (rangeString_from fuel pos s) = None.
Proof.
  induction s as [|c s IH]; intros fuel pos Hs.
  - destruct fuel; reflexivity.
  - destruct fuel as [|fuel]; [ reflexivity | ].
    cbn [forallb] in Hs. apply andb_prop in Hs. destruct Hs as [Hc Hs].
    cbn [rangeString_from].
    rewrite DecodeRune_ascii by (apply asciiDigit_ascii; assumption).
    cbn [find snd]. rewrite isNotDigit_isDigit.
    unfold asciiDigit in Hc. rewrite Hc. cbn [negb].
    change (from (c :: s) 1) with s. apply IH, Hs.
Qed.

Lemma find_rangeString_nondigit s : forall fuel pos,
  forallb asciiDigit s = false -> (List.length s <= fuel)%nat -> 0 <= pos ->
  exists p r,
    find (fun pr : Z * rune => isNotDigit (snd pr)) (rangeString_from fuel pos s)
    = Some (p, r) /\ 0 <= p.
Proof.
  induction s as [|c s IH]; intros fuel pos Hs Hfuel Hpos;
    [ discriminate Hs | ].
  destruct fuel as [|fuel]; [ simpl in Hfuel; lia | ].
  cbn [forallb] in Hs. cbn [rangeString_from].
  destruct (asciiDigit c) eqn:Hc.
  - rewrite DecodeRune_ascii by (apply asciiDigit_ascii; assumption).
    cbn [find snd]. rewrite isNotDigit_isDigit.
    unfold asciiDigit in Hc. rewrite Hc. cbn [negb].
    change (from (c :: s) 1) with s.
    apply IH; [ exact Hs | simpl in Hfuel; lia | lia ].
  - pose proof (first_rune_not_digit c s Hc) as Hn.
    destruct (utf8.DecodeRuneInString (c :: s)) as [r size].
    cbn [fst] in Hn. cbn [find snd]. rewrite Hn.
    exists pos, r. split; [ reflexivity | assumption ].
Qed.

Lemma isNumerical_digits s : isNumerical s = forallb asciiDigit s.
Proof.
  unfold isNumerical, strings_IndexFunc, rangeString.
  destruct (forallb asciiDigit s) eqn:Hs.
  - rewrite find_rangeString_digits by assumption. reflexivity.
  - destruct (find_rangeString_nondigit s (List.length s) 0 Hs)
      as (p & r & Hfind & Hp); [ lia | lia | ].
    rewrite Hfind. apply Z.eqb_neq. lia.
Qed.

Lemma decimalFrom_ge s : forall n,
  forallb asciiDigit s = true -> 0 <= n -> n <= decimalFrom s n.
Proof.
  induction s as [|c s IH]; intros n Hs Hn; [ simpl; lia | ].
  cbn [forallb] in Hs. apply andb_prop in Hs. destruct Hs as [Hc Hs].
  unfold decimalFrom. cbn [fold_left]. fold (decimalFrom s (10 * n + (b2z c - 48))).
  unfold asciiDigit, isDigit in Hc.
  specialize (IH (10 * n + (b2z c - 48)) Hs). lia.
Qed.

Lemma ParseUint_loop_saturates s : forall n,
  forallb asciiDigit s = true -> 0 <= n <= strconv.maxVal ->
  strconv.ParseUint_loop s n = Z.min strconv.maxVal (decimalFrom s n).
Proof.
  induction s as [|c s IH]; intros n Hs Hn.
  - simpl. lia.
  - pose proof (decimalFrom_ge (c :: s) n Hs (proj1 Hn)) as Hge.
    cbn [forallb] in Hs. apply andb_prop in Hs. destruct Hs as [Hc Hs].
    cbn [strconv.ParseUint_loop]. unfold asciiDigit in Hc. rewrite Hc.
    unfold decimalFrom in *. cbn [fold_left] in *.
    fold (decimalFrom s (10 * n + (b2z c - 48))) in *.
    pose proof (decimalFrom_ge s (10 * n + (b2z c - 48)) Hs) as Hge'.
    unfold isDigit in Hc.
    change strconv.cutoff with 1844674407370955162 in *.
    change strconv.maxVal with 18446744073709551615 in *.
    destruct (Z.leb_spec 1844674407370955162 n); [ lia | ].
    destruct (Z.ltb_spec 18446744073709551615 (n * 10 + (b2z c - 48)));
      [ lia | ].
    replace (n * 10) with (10 * n) by lia.
    rewrite IH by (try assumption; lia). reflexivity.
Qed.

Lemma decimalValue_from s : decimalValue s = decimalFrom s 0.
Proof. reflexivity. Qed.

(** C6, as amended: the port is checked in three steps. A byte that is
    not an ASCII digit gives [InvalidPort], whatever the host; otherwise an
    empty host gives [MissingHost], whatever the value; otherwise a value
    above 65535 gives [InvalidPort]; otherwise the port is accepted. *)
Theorem validatePort_rule (port host : gostring) (o : options) :
  portVerdictOf (validatePort port host o) = Some (portRule port host).
Proof.
  unfold validatePort, portRule. rewrite isNumerical_digits.
  destruct (forallb asciiDigit port) eqn:Hd; cbn [negb]; [ | reflexivity ].
  destruct (isEmpty host); [ reflexivity | ].
  unfold strconv.ParseUint.
  rewrite ParseUint_loop_saturates
    by (try assumption; unfold strconv.maxVal; simpl; lia).
  rewrite decimalValue_from. unfold maxPort.
  change strconv.maxVal with 18446744073709551615.
  destruct (Z.ltb_spec 65535 (decimalFrom port 0));
    destruct (Z.ltb_spec 65535 (Z.min 18446744073709551615 (decimalFrom port 0)));
    try lia; reflexivity.
Qed.

(** C6, as stated, fails where its clauses overlap: with an empty host, a
    port that is not numeric is reported as [InvalidPort] and not as
    [MissingHost], and a numeric port above 65535 is reported as
    [MissingHost] and not as [InvalidPort]. *)
Lemma validatePort_overlap_counterexample :
  (exists e, validatePort (str "x") [] packageLevelDefaults = Some e
             /\ errors_Is e ErrMissingHost = false)
  /\ (exists e, snd (@Parse modelled (str "http://:x") []) = Some e
                /\ errors_Is e ErrMissingHost = false)
  /\ (exists e, validatePort (str "99999") [] packageLevelDefaults = Some e
                /\ errors_Is e ErrInvalidPort = false).
Proof.
  split; [ | split ]; eexists; split; reflexivity.
Qed.

(** ** The order of the checks *)

Section Order.
Context `{Extern}.

Lemma allFlags_set o flag :
  allFlags o ->
  In flag [flagValidateScheme; flagValidateHost; flagValidatePort;
           flagValidateUserInfo; flagValidatePath; flagValidateQuery;
           flagValidateFragment] ->
  flagSet o flag = true.
Proof.
  unfold allFlags, flagSet. intros -> Hin. simpl in Hin.
  repeat (destruct Hin as [<- | Hin]; [ reflexivity | ]). contradiction.
Qed.

Lemma validateForScheme_order a sch o :
  allFlags o ->
  snd (validateForScheme a sch o)
  = firstError [pathCheck a o; hostCheck a sch o; portCheck a o;
                userinfoCheck a o].
Proof.
  intros Ho. unfold validateForScheme, pathCheck, hostCheck, portCheck,
    userinfoCheck.
  rewrite !(allFlags_set o) by (assumption || (simpl; tauto)).
  rewrite !andb_true_r.
  destruct (isEmpty (path a)); cbn [negb firstError];
    try (destruct (validatePath a (path a) o); [ reflexivity | ]);
    (destruct (isEmpty (host a)); cbn [negb firstError snd];
     [ | destruct (validateHost (host a) (isIPv6 (ip a)) sch o) as [t [e|]];
         cbn [snd firstError]; [ reflexivity | ] ]);
    (destruct (isEmpty (port a)); cbn [negb firstError];
     [ | destruct (validatePort (port a) (host a) o);
         cbn [snd firstError]; [ reflexivity | ] ]);
    (destruct (isEmpty (userinfo a)); cbn [negb firstError];
     [ | destruct (validateUserInfo (userinfo a) o) ]); reflexivity.
Qed.

(** On any value, [validate] reports the first failing check in the
    order scheme, query, fragment, path, host, port, userinfo. *)
Lemma validate_order u o :
  allFlags o -> snd (validate u o) = firstError (canonicalOrder u o).
Proof.
  intros Ho. unfold validate, canonicalOrder, schemeCheck, queryCheck,
    fragmentCheck.
  rewrite !(allFlags_set o) by (assumption || (simpl; tauto)).
  rewrite !andb_true_r. cbn [app].
  destruct (isEmpty (scheme u)); cbn [negb firstError];
    try (destruct (validateScheme (scheme u) o); [ reflexivity | ]);
    (destruct (isEmpty (query u)); cbn [negb firstError];
     [ | destruct (validateQuery (query u) o);
         cbn [snd firstError]; [ reflexivity | ] ]);
    (destruct (isEmpty (fragment u)); cbn [negb firstError];
     [ | destruct (validateFragment (fragment u) o);
         cbn [snd firstError]; [ reflexivity | ] ]);
    (destruct (isEmpty (hierPart u)); cbn [negb firstError];
     [ reflexivity | apply validateForScheme_order, Ho ]).
Qed.

Lemma failed_ordered o e : structural e = true -> ordered o (failed e).
Proof. intros He. left. exists e. auto. Qed.

Lemma validated_parts u o : sameParts (validated u o) u.
Proof.
  unfold validated, sameParts. destruct (validate u o). cbn. repeat split.
Qed.

Lemma sameParts_decomposed u v o :
  sameParts u v -> decomposed u o = decomposed v o.
Proof.
  intros (Hs & Hh & Hq & Hf & _). unfold decomposed. congruence.
Qed.

Lemma decomposed_mkURI s h q f a o :
  parseAuthority h o = (a, None) -> decomposed (mkURI s h q f a) o = mkURI s h q f a.
Proof. intros Ha. unfold decomposed. cbn. rewrite Ha. reflexivity. Qed.

Lemma finish_ordered s h q f a o :
  allFlags o -> parseAuthority h o = (a, None) ->
  ordered o (finish (mkURI s h q f a) o).
Proof.
  intros Ho Ha. right.
  pose proof (finish_parts (mkURI s h q f a) o) as Hp.
  rewrite (sameParts_decomposed _ _ o Hp), (decomposed_mkURI _ _ _ _ _ _ Ha).
  split; [ exact Hp | ]. rewrite finish_snd. apply validate_order, Ho.
Qed.

Lemma parseAuthority_nil o : parseAuthority [] o = (emptyAuthority, None).
Proof. reflexivity. Qed.

Ltac order_step Ho :=
  match goal with
  | |- ordered _ (failed _) => apply failed_ordered; reflexivity
  | |- ordered _ (finish (mkURI _ _ _ _ emptyAuthority) _) =>
      apply finish_ordered; [ exact Ho | apply parseAuthority_nil ]
  | |- ordered _ (finish _ _) =>
      apply finish_ordered; [ exact Ho | eassumption ]
  | |- context [match parseAuthority ?h ?o with _ => _ end] =>
      let a := fresh "a" in
      let e := fresh "e" in
      let Ha := fresh "Ha" in
      destruct (parseAuthority h o) as [a [e|]] eqn:Ha
  | |- context [if ?b then _ else _] => destruct b
  end.

Lemma parse_hier_ordered raw o sch sE hE qE :
  allFlags o -> ordered o (parse_hier raw o sch sE hE qE).
Proof.
  intros Ho. unfold parse_hier. repeat order_step Ho.
Qed.

Lemma parse_ordered raw o : allFlags o -> ordered o (parse raw o).
Proof.
  intros Ho. unfold parse.
  repeat first [ apply parse_hier_ordered; exact Ho | order_step Ho ].
  right.
  set (u0 := mkURI (slice raw 0 (strings.IndexByte raw colonMark)) [] [] []
               emptyAuthority).
  pose proof (validated_parts u0 o) as Hp. cbn [fst snd].
  rewrite (sameParts_decomposed _ _ o Hp).
  unfold u0 at 2 3. rewrite decomposed_mkURI by apply parseAuthority_nil.
  split; [ exact Hp | ]. rewrite validated_err. apply validate_order, Ho.
Qed.

(** C3, as amended: once the decomposer has accepted the input, the error
    returned by [parse] (and stored in the value) is the error of the first
    offending component in the order scheme, query, fragment, path, host,
    port, userinfo. When the decomposer rejects the input (misplaced
    delimiters, bad brackets, missing or one-character scheme), it returns
    its own error and no component is validated. *)
Theorem parse_reports_first_offender (raw : gostring) (o : options)
  (u : URI) (e : option error) :
  allFlags o -> parse raw o = (u, e) ->
  (exists de, e = Some de /\ u = errURI de /\ structural de = true)
  \/ (sameParts u (decomposed u o)
      /\ e = firstError (canonicalOrder (decomposed u o) o)).
Proof.
  intros Ho Hp. pose proof (parse_ordered raw o Ho) as Hord.
  rewrite Hp in Hord. exact Hord.
Qed.

End Order.

Lemma parse_reports_first_offender_witness :
  allFlags packageLevelDefaults
  /\ (let u := fst (@parse modelled (str "ht!tp://h?%#%") packageLevelDefaults) in
      snd (@parse modelled (str "ht!tp://h?%#%") packageLevelDefaults)
      = @firstError
          (@canonicalOrder modelled (decomposed u packageLevelDefaults)
             packageLevelDefaults)).
Proof.
  assert (Ho : allFlags packageLevelDefaults) by reflexivity.
  split; [ exact Ho | ].
  destruct (@parse_reports_first_offender modelled (str "ht!tp://h?%#%")
              packageLevelDefaults _ _ Ho (surjective_pairing _))
    as [(de & _ & Hu & _) | (_ & He)].
  - exfalso. vm_compute in Hu. discriminate Hu.
  - exact He.
Defined.

(** C3, as stated, fails on an input the decomposer rejects: in
    ["1a://[]"] the scheme is invalid (it starts with a digit) and comes
    first in the order, yet the error returned is the one of the empty
    brackets of the host. *)
Lemma parse_first_offender_counterexample :
  validateScheme (str "1a") packageLevelDefaults <> None
  /\ exists e, snd (@Parse modelled (str "1a://[]") []) = Some e
               /\ errors_Is e ErrInvalidScheme = false
               /\ errors_Is e ErrInvalidHostAddress = true.
Proof.
  split; [ discriminate | ]. eexists. repeat split.
Qed.

(** ** Slices keep bytes of the sliced string *)

Lemma In_from c s i : In c (from s i) -> In c s.
Proof.
  unfold from. intros Hin. rewrite <- (firstn_skipn (Z.to_nat i) s).
  apply in_or_app. now right.
Qed.

Lemma In_upto c s i : In c (upto s i) -> In c s.
Proof.
  unfold upto. intros Hin. rewrite <- (firstn_skipn (Z.to_nat i) s).
  apply in_or_app. now left.
Qed.

Lemma In_slice c s i j : In c (slice s i j) -> In c s.
Proof. unfold slice. intros Hin. eapply In_from, In_upto, Hin. Qed.

Lemma upto_mono c s j k : j <= k -> In c (upto s j) -> In c (upto s k).
Proof.
  unfold upto. intros Hjk Hin.
  replace (firstn (Z.to_nat j) s)
    with (firstn (Z.to_nat j) (firstn (Z.to_nat k) s)) in Hin
    by (rewrite firstn_firstn; f_equal; lia).
  rewrite <- (firstn_skipn (Z.to_nat j) (firstn (Z.to_nat k) s)).
  apply in_or_app. now left.
Qed.

Lemma slice_within c s i j k :
  0 <= i -> j <= k -> In c (slice s i j) -> In c (upto s k).
Proof.
  unfold slice, upto, from. intros Hi Hjk Hin.
  rewrite firstn_skipn_comm in Hin.
  apply (upto_mono c s (i + (j - i)) k); [ lia | ]. unfold upto.
  destruct (Z.le_gt_cases i j) as [Hij | Hij].
  - replace (Z.to_nat (i + (j - i)))
      with (Z.to_nat i + Z.to_nat (j - i))%nat by lia.
    rewrite <- (firstn_skipn (Z.to_nat i)
                  (firstn (Z.to_nat i + Z.to_nat (j - i)) s)).
    apply in_or_app. now right.
  - replace (Z.to_nat (j - i)) with 0%nat in Hin by lia.
    rewrite Nat.add_0_r, skipn_firstn_comm, Nat.sub_diag in Hin.
    contradiction.
Qed.

Lemma from_within c s i : In c (from s i) -> In c (upto s (len s)).
Proof. rewrite upto_all. apply In_from. Qed.

Lemma IndexByte_upto s c : ~ In c (upto s (strings.IndexByte s c)).
Proof.
  induction s as [|x s IH]; cbn [strings.IndexByte].
  - unfold upto. rewrite firstn_nil. tauto.
  - destruct (Ascii.eqb_spec x c) as [-> | Hne]; [ cbn; tauto | ].
    destruct (IndexByte_range s c) as [Hr | Hr].
    + rewrite Hr. cbn. tauto.
    + destruct (Z.ltb_spec (strings.IndexByte s c) 0); [ lia | ].
      unfold upto in *.
      replace (Z.to_nat (strings.IndexByte s c + 1))
        with (S (Z.to_nat (strings.IndexByte s c))) by lia.
      cbn [firstn]. intros [He | Hin]; [ congruence | tauto ].
Qed.

Lemma IndexByte_none s c : strings.IndexByte s c = -1 -> ~ In c s.
Proof.
  induction s as [|x s IH]; cbn [strings.IndexByte]; [ tauto | ].
  destruct (Ascii.eqb_spec x c) as [-> | Hne]; [ discriminate | ].
  destruct (IndexByte_range s c) as [Hr | Hr].
  - intros _ [He | Hin]; [ congruence | tauto ].
  - destruct (Z.ltb_spec (strings.IndexByte s c) 0); lia.
Qed.

Lemma HasPrefix_In s p c : strings.HasPrefix s p = true -> In c p -> In c s.
Proof.
  revert s. induction p as [|x p IH]; intros s Hp Hin; [ contradiction | ].
  destruct s as [|y s]; [ discriminate Hp | ].
  cbn [strings.HasPrefix] in Hp. apply andb_prop in Hp.
  destruct Hp as [Hxy Hp]. apply Ascii.eqb_eq in Hxy. subst y.
  destruct Hin as [-> | Hin]; [ now left | right; eauto ].
Qed.

Lemma In_TrimPrefix c s p : In c (strings.TrimPrefix s p) -> In c s.
Proof.
  unfold strings.TrimPrefix. destruct (strings.HasPrefix s p); [ | tauto ].
  intros Hin. rewrite <- (firstn_skipn (List.length p) s).
  apply in_or_app. now right.
Qed.

(** The pieces of an authority are cut out of the hier-part. *)
Ltac chase_in :=
  repeat match goal with
    | H : False |- _ => contradiction H
    | H : In _ [] |- _ => contradiction H
    | H : In _ (if ?b then _ else _) |- _ => destruct b
    | H : In _ (from _ _) |- _ => apply In_from in H
    | H : In _ (upto _ _) |- _ => apply In_upto in H
    | H : In _ (slice _ _ _) |- _ => apply In_slice in H
    | H : In _ (strings.TrimPrefix _ _) |- _ => apply In_TrimPrefix in H
    end; try assumption.

Lemma parseAuthority_within hier o a c :
  parseAuthority hier o = (a, None) -> inAuthority c a -> In c hier.
Proof.
  unfold parseAuthority, inAuthority.
  destruct (strings.HasPrefix hier authorityPrefix) eqn:Hpre.
  - cbn [isEmpty authorityPrefix str list_ascii_of_string].
    repeat match goal with
      | |- context [if ?b then _ else _] =>
          lazymatch b with
          | _ <? _ => destruct b
          | _ <=? _ => destruct b
          | _ && _ => fail
          end
      end;
      intros Ha; inversion Ha; subst; clear Ha; cbn;
      intros [Hin | [Hin | [Hin | [Hin | Hin]]]];
      try (eapply HasPrefix_In; [ exact Hpre | exact Hin ]);
      chase_in.
  - cbn [isEmpty]. intros Ha; inversion Ha; subst; clear Ha; cbn.
    intros [Hin | [Hin | [Hin | [Hin | Hin]]]]; chase_in.
Qed.

(** ** The decomposition of an accepted input *)

Section Parts.
Context `{Extern}.

Lemma finish_inv u0 o u e : finish u0 o = (u, e) -> sameParts u u0.
Proof.
  intros Hf. replace u with (fst (finish u0 o)) by (rewrite Hf; reflexivity).
  apply finish_parts.
Qed.

Ltac zspec :=
  repeat (match goal with
          | |- context [?a <? ?b] => destruct (Z.ltb_spec a b)
          | |- context [?a <=? ?b] => destruct (Z.leb_spec a b)
          | |- context [?a =? ?b] => destruct (Z.eqb_spec a b)
          end; cbn [andb orb negb]).

Ltac leaf raw :=
  let Hr := fresh "Hr" in
  let c := fresh "c" in
  let Hin := fresh "Hin" in
  intros Hr;
  first
    [ discriminate Hr
    | apply finish_inv in Hr;
      destruct Hr as (Hs1 & Hs2 & Hs3 & Hs4 & Hs5 & Hs6 & Hs7 & Hs8 & Hs9);
      cbn [mkURI scheme hierPart query fragment authority] in *;
      unfold inAuthority;
      rewrite Hs1, Hs3, Hs4, Hs5, Hs6, Hs7, Hs8, Hs9;
      split; [ | split ];
      [ intros c [Hin | Hin];
        [ eauto
        | first
            [ eapply slice_within;
              [ | | eapply parseAuthority_within; [ eassumption | exact Hin ] ];
              lia
            | exfalso; revert Hin; cbn; tauto ] ]
      | first
          [ left; reflexivity
          | right; repeat split; try lia;
            intros c Hin;
            first [ eapply from_within; exact Hin
                  | eapply slice_within; [ | | exact Hin ]; lia ] ]
      | first [ left; reflexivity | right; lia ] ] ].

Lemma parse_hier_parts raw o sch sE hE qE u :
  -1 <= sE -> hE <> 0 -> qE <> 0 -> hE < len raw -> qE < len raw ->
  (hE < 0 \/ qE < 0 \/ hE <= qE) ->
  let HE := if 0 <? hE then hE else if 0 <? qE then qE else len raw in
  (forall c, In c sch -> In c (upto raw HE)) ->
  parse_hier raw o sch sE hE qE = (u, None) ->
  (forall c, In c (scheme u) \/ inAuthority c (authority u) ->
             In c (upto raw HE))
  /\ (query u = []
      \/ (0 < hE /\ hE + 1 < len raw /\ (qE < 0 \/ hE < qE - 1)
          /\ forall c, In c (query u) ->
                       In c (upto raw (if 0 <? qE then qE else len raw))))
  /\ (fragment u = [] \/ (0 < qE /\ qE + 1 < len raw)).
Proof.
  intros HsE HhE HqE Hhl Hql Hhq HE Hsch. subst HE. revert Hsch.
  unfold parse_hier. zspec; intros Hsch;
    repeat match goal with
      | |- context [match parseAuthority ?h ?o with _ => _ end] =>
          let a := fresh "a" in
          let e := fresh "e" in
          let Ha := fresh "Ha" in
          destruct (parseAuthority h o) as [a [e|]] eqn:Ha
      end;
    try lia; leaf raw.
Qed.

Ltac zhyp H :=
  repeat match type of H with
    | context [?a <? ?b] => destruct (Z.ltb_spec a b); try lia
    | context [?a <=? ?b] => destruct (Z.leb_spec a b); try lia
    end.

Lemma parse_parts raw o u :
  parse raw o = (u, None) ->
  let hE := strings.IndexByte raw questionMark in
  let qE := strings.IndexByte raw fragmentMark in
  (forall c, In c (scheme u) \/ inAuthority c (authority u) ->
             In c (upto raw (hierEnd raw)))
  /\ (query u = []
      \/ (0 < hE /\ hE + 1 < len raw /\ (qE < 0 \/ hE < qE - 1)
          /\ forall c, In c (query u) -> In c (upto raw (queryEnd raw))))
  /\ (fragment u = [] \/ (0 < qE /\ qE + 1 < len raw)).
Proof.
  unfold parse, hierEnd, queryEnd.
  pose proof (len_nonneg raw) as Hlen.
  pose proof (IndexByte_range raw colonMark) as HsE.
  pose proof (IndexByte_range raw questionMark) as HhE.
  pose proof (IndexByte_range raw fragmentMark) as HqE.
  set (sE := strings.IndexByte raw colonMark) in *.
  set (hE := strings.IndexByte raw questionMark) in *.
  set (qE := strings.IndexByte raw fragmentMark) in *.
  cbv zeta.
  destruct ((sE =? 0) || (hE =? 0) || (qE =? 0)) eqn:H0;
    [ intros Hp; discriminate Hp | ].
  destruct (sE =? 1) eqn:H1; [ intros Hp; discriminate Hp | ].
  destruct ((hE =? 1) || (qE =? 1)) eqn:H2; [ intros Hp; discriminate Hp | ].
  destruct ((0 <? hE) && (hE <? sE) || (0 <? qE) && (qE <? sE)) eqn:H3;
    [ intros Hp; discriminate Hp | ].
  assert (F0 : sE <> 0 /\ hE <> 0 /\ qE <> 0) by lia.
  assert (F3 : ~ (0 < hE < sE) /\ ~ (0 < qE < sE)) by lia.
  clear H0 H1 H2 H3.
  set (hE' := if (0 <? qE) && (qE <? hE) then qE else hE).
  assert (HhE' : (hE' = qE /\ 0 < qE < hE) \/ (hE' = hE /\ ~ (0 < qE < hE))).
  { subst hE'. zspec; lia. }
  assert (HHE : (if 0 <? hE' then hE'
                 else if 0 <? qE then qE else len raw)
                = (if (0 <=? hE) && ((qE <? 0) || (hE <? qE)) then hE
                   else if 0 <=? qE then qE else len raw)).
  { zspec; lia. }
  assert (HQE : (if 0 <? qE then qE else len raw)
                = (if 0 <=? qE then qE else len raw)).
  { zspec; lia. }
  assert (Hhier : forall sch sE',
             -1 <= sE' ->
             (forall c, In c sch ->
                        In c (upto raw (if 0 <? hE' then hE'
                                        else if 0 <? qE then qE
                                             else len raw))) ->
             parse_hier raw o sch sE' hE' qE = (u, None) ->
             (forall c, In c (scheme u) \/ inAuthority c (authority u) ->
               In c (upto raw
                 (if (0 <=? hE) && ((qE <? 0) || (hE <? qE)) then hE
                  else if 0 <=? qE then qE else len raw)))
             /\ (query u = []
                 \/ (0 < hE /\ hE + 1 < len raw /\ (qE < 0 \/ hE < qE - 1)
                     /\ forall c, In c (query u) ->
                          In c (upto raw (if 0 <=? qE then qE else len raw))))
             /\ (fragment u = [] \/ (0 < qE /\ qE + 1 < len raw))).
  { intros sch sE' HsE' Hsch Hp.
    apply parse_hier_parts in Hp; try assumption; try lia.
    cbv zeta in Hp. rewrite HHE, HQE in Hp.
    destruct Hp as (Hp1 & Hp2 & Hp3).
    split; [ exact Hp1 | split; [ | exact Hp3 ] ].
    destruct Hp2 as [Hp2 | (Ha & Hb & Hc & Hd)]; [ now left | right ].
    repeat split; try lia. exact Hd. }
  destruct ((0 <? sE) && negb (strings.HasPrefix raw authorityPrefix)) eqn:Hc1.
  - assert (HsE1 : 0 < sE) by lia.
    destruct (sE + 1 =? len raw) eqn:Hcolon.
    + intros Hp. apply pair_equal_spec in Hp. destruct Hp as [<- Hp].
      pose proof (validated_parts
                    (mkURI (slice raw 0 sE) [] [] [] emptyAuthority) o)
        as (Hs1 & Hs2 & Hs3 & Hs4 & Hs5 & Hs6 & Hs7 & Hs8 & Hs9).
      unfold inAuthority. rewrite Hs1, Hs3, Hs4, Hs5, Hs6, Hs7, Hs8, Hs9.
      cbn [mkURI scheme hierPart query fragment authority emptyAuthority
           prefix userinfo host port path In].
      split; [ | split; left; reflexivity ].
      intros c [Hin | Hin]; [ | tauto ].
      eapply slice_within; [ | | exact Hin ]; [ lia | ].
      zspec; lia.
    + apply Hhier; [ lia | ]. intros c Hin.
      eapply slice_within; [ | | exact Hin ]; [ lia | ].
      zspec; lia.
  - destruct (negb (withURIReference o)); [ intros Hp; discriminate Hp | ].
    destruct (strings.HasPrefix raw authorityPrefix);
      (apply Hhier; [ lia | intros c Hin; contradiction Hin ]).
Qed.

End Parts.


(** ** Rendering *)

Lemma len_pos_isEmpty s : (0 <? len s) = negb (isEmpty s).
Proof.
  destruct s; [ reflexivity | ]. rewrite len_cons.
  pose proof (len_nonneg s). cbn [isEmpty negb]. apply Z.ltb_lt. lia.
Qed.

Lemma String_rendering u : String u = rendering u.
Proof.
  unfold String, rendering, buildString, strings.WriteString,
    strings.WriteByte, withSeparatorAfter, withSeparatorBefore.
  rewrite !len_pos_isEmpty.
  destruct (scheme u), (userinfo (authority u)), (port (authority u)),
    (query u), (fragment u), (isIPv6 (ip (authority u)));
    cbn [negb app isEmpty]; rewrite <- ?app_assoc; cbn [app];
    rewrite ?app_nil_r; reflexivity.
Qed.

Lemma rendering_In c u :
  In c (rendering u) ->
  In c (scheme u) \/ inAuthority c (authority u)
  \/ In c (query u) \/ In c (fragment u)
  \/ In c [colonMark; atHost; openingBracketMark; closingBracketMark]
  \/ (c = questionMark /\ query u <> [])
  \/ (c = fragmentMark /\ fragment u <> []).
Proof.
  unfold rendering, withSeparatorAfter, withSeparatorBefore, inAuthority,
    str.
  cbn [list_ascii_of_string]. intros Hin.
  repeat (apply in_app_or in Hin; destruct Hin as [Hin | Hin]);
    repeat match type of Hin with
      | In _ (if ?b then _ else _) => destruct b eqn:?
      | In _ (_ ++ _) => apply in_app_or in Hin; destruct Hin as [Hin | Hin]
      | In _ (_ :: _) => destruct Hin as [Hin | Hin]
      | In _ [] => contradiction Hin
      end;
    subst; cbn [In]; try tauto;
    first
      [ right; right; right; right; right; left; split; [ reflexivity | ];
        intros Hq; rewrite Hq in *; discriminate
      | right; right; right; right; right; right; split; [ reflexivity | ];
        intros Hq; rewrite Hq in *; discriminate ].
Qed.

Section Separators.
Context `{Extern}.

Lemma upto_before s c k :
  k <= strings.IndexByte s c -> ~ In c (upto s k).
Proof.
  intros Hk Hin. apply (IndexByte_upto s c).
  eapply upto_mono; [ exact Hk | exact Hin ].
Qed.

(** C2, as amended: [String] writes [':'] after a non-empty scheme, the
    stored ["//"] prefix as it is, ['@'] after a non-empty userinfo, [':']
    before a non-empty port, ['?'] before a non-empty query and ['#'] before
    a non-empty fragment, and nothing else but the brackets of an IPv6
    host. A query or fragment that is present but empty leaves no trace in
    the value: an accepted input that ends with its first ['?'] (and has no
    ['#']) is rendered without any ['?'], and one that ends with its first
    ['#'] is rendered without any ['#']. *)
Theorem String_separators (raw : gostring) (o : options) (u : URI) :
  parse raw o = (u, None) ->
  String u = rendering u
  /\ (strings.IndexByte raw questionMark = len raw - 1 ->
      strings.IndexByte raw fragmentMark = -1 ->
      query u = [] /\ ~ In questionMark (String u))
  /\ (strings.IndexByte raw fragmentMark = len raw - 1 ->
      fragment u = [] /\ ~ In fragmentMark (String u)).
Proof.
  intros Hp. apply parse_parts in Hp. cbv zeta in Hp.
  destruct Hp as (Hhier & Hq & Hf).
  pose proof (len_nonneg raw) as Hlen.
  split; [ apply String_rendering | split ].
  - intros HhE HqE.
    assert (Hq0 : query u = [])
      by (destruct Hq as [Hq | Hq]; [ exact Hq | lia ]).
    assert (Hf0 : fragment u = [])
      by (destruct Hf as [Hf | Hf]; [ exact Hf | lia ]).
    split; [ exact Hq0 | ].
    assert (Hno : ~ In questionMark (upto raw (hierEnd raw))).
    { unfold hierEnd. rewrite HqE.
      destruct (Z.leb_spec 0 (strings.IndexByte raw questionMark)); cbn.
      - apply IndexByte_upto.
      - rewrite upto_all. apply IndexByte_none. lia. }
    rewrite String_rendering. intros Hin. apply rendering_In in Hin.
    rewrite Hq0, Hf0 in Hin.
    destruct Hin as [Hin | [Hin | [Hin | [Hin | [Hin | [Hin | Hin]]]]]].
    + exact (Hno (Hhier _ (or_introl Hin))).
    + exact (Hno (Hhier _ (or_intror Hin))).
    + contradiction Hin.
    + contradiction Hin.
    + cbn in Hin. intuition discriminate.
    + destruct Hin as [_ Hin]. congruence.
    + destruct Hin as [Hin _]. discriminate Hin.
  - intros HqE.
    assert (Hf0 : fragment u = [])
      by (destruct Hf as [Hf | Hf]; [ exact Hf | lia ]).
    split; [ exact Hf0 | ].
    pose proof (IndexByte_range raw questionMark) as HhR.
    assert (Hno : forall k, k <= len raw - 1 ->
                            ~ In fragmentMark (upto raw k)).
    { intros k Hk. destruct (Z.eq_dec (len raw) 0) as [Hz | Hz].
      - unfold upto. replace (Z.to_nat k) with 0%nat by lia. cbn. tauto.
      - apply upto_before. lia. }
    assert (Hz : len raw = 0 -> forall k, ~ In fragmentMark (upto raw k)).
    { intros Hz k. clear - Hz.
      destruct raw as [|x r];
        [ | rewrite len_cons in Hz; pose proof (len_nonneg r); lia ].
      unfold upto. rewrite firstn_nil. cbn. tauto. }
    assert (Hno1 : ~ In fragmentMark (upto raw (hierEnd raw))).
    { destruct (Z.eq_dec (len raw) 0) as [Hz0 | Hz0]; [ apply Hz, Hz0 | ].
      apply Hno. unfold hierEnd. rewrite HqE.
      destruct (Z.leb_spec 0 (strings.IndexByte raw questionMark));
        destruct (Z.ltb_spec (len raw - 1) 0);
        destruct (Z.ltb_spec (strings.IndexByte raw questionMark)
                    (len raw - 1));
        destruct (Z.leb_spec 0 (len raw - 1)); cbn; lia. }
    assert (Hno2 : ~ In fragmentMark (upto raw (queryEnd raw))).
    { destruct (Z.eq_dec (len raw) 0) as [Hz0 | Hz0]; [ apply Hz, Hz0 | ].
      apply Hno. unfold queryEnd. rewrite HqE.
      destruct (Z.leb_spec 0 (len raw - 1)); lia. }
    rewrite String_rendering. intros Hin. apply rendering_In in Hin.
    rewrite Hf0 in Hin.
    destruct Hin as [Hin | [Hin | [Hin | [Hin | [Hin | [Hin | Hin]]]]]].
    + exact (Hno1 (Hhier _ (or_introl Hin))).
    + exact (Hno1 (Hhier _ (or_intror Hin))).
    + destruct Hq as [Hq | (_ & _ & _ & Hq)];
        [ rewrite Hq in Hin; contradiction Hin | ].
      exact (Hno2 (Hq _ Hin)).
    + contradiction Hin.
    + cbn in Hin. intuition discriminate.
    + destruct Hin as [Hin _]. discriminate Hin.
    + destruct Hin as [_ Hin]. congruence.
Qed.

End Separators.

Lemma String_separators_witness :
  let raw := str "https://h?" in
  let u := fst (@parse modelled raw packageLevelDefaults) in
  @parse modelled raw packageLevelDefaults = (u, None)
  /\ query u = [] /\ ~ In questionMark (String u).
Proof.
  intros raw u.
  assert (Hp : @parse modelled raw packageLevelDefaults = (u, None))
    by (vm_compute; reflexivity).
  split; [ exact Hp | ].
  exact (proj1 (proj2 (@String_separators modelled raw packageLevelDefaults
                         u Hp)) eq_refl eq_refl).
Defined.

(** C2, as stated, fails on its own example: ["https://h?"] parses
    successfully and is rendered as ["https://h"], without the trailing
    ['?']; likewise ["https://h#"]. *)
Lemma String_trailing_delimiter_counterexample :
  (snd (@Parse modelled (str "https://h?") []) = None
   /\ String (fst (@Parse modelled (str "https://h?") [])) = str "https://h")
  /\ (snd (@Parse modelled (str "https://h#") []) = None
      /\ String (fst (@Parse modelled (str "https://h#") []))
         = str "https://h").
Proof. repeat split. Qed.

(** ** The round trip through [String] *)

Section RoundTrip.
Context `{Extern}.

(** C1 fails on the code: ["http://user@:"] parses successfully, with
    userinfo ["user"] and an empty host and port; it is rendered as
    ["http://user@"]; and parsing that string again does not give the same
    decomposition, whatever the IPv4 validator answers: [parseAuthority]
    leaves the whole ["user@"] in the host when nothing follows the ['@'],
    so that the second parse either fails or has the host ["user@"]. *)
Theorem roundtrip_fails_after_userinfo_with_empty_host :
  let r := Parse (str "http://user@:") [] in
  let r' := Parse (String (fst r)) [] in
  snd r = None
  /\ userinfo (authority (fst r)) = str "user"
  /\ host (authority (fst r)) = []
  /\ String (fst r) = str "http://user@"
  /\ (snd r' <> None
      \/ host (authority (fst r')) <> host (authority (fst r))).
Proof.
  destruct H as [tl td v4 v6 vf pj].
  set (E := Build_Extern tl td v4 v6 vf pj). cbv zeta.
  assert (H1 : exists u, @Parse E (str "http://user@:") [] = (u, None)
                         /\ userinfo (authority u) = str "user"
                         /\ host (authority u) = []
                         /\ String u = str "http://user@").
  { eexists. split; [ vm_compute; reflexivity | repeat split ]. }
  destruct H1 as (u & -> & Hu & Hh & Hs). cbn [fst snd].
  rewrite Hs, Hh. repeat split; try assumption.
  vm_compute.
  match goal with
  | |- context [v4 ?h] => destruct (v4 h)
  end.
  - left. discriminate.
  - right. discriminate.
Qed.

End RoundTrip.

(** ** The percent-decoder *)

(** C4 fails on the code at the scalar U+FFFD: its UTF-8 encoding is
    [EF BF BD], and on the escaped form of these bytes
    [unescapePercentEncoding] returns an error instead of the scalar,
    because it takes the decoded rune [utf8.RuneError] (which is U+FFFD) for
    a decoding failure. A neighbouring scalar is decoded as claimed. *)
Theorem unescape_rejects_replacement_character :
  utf8.ValidRune 0xFFFD = true
  /\ utf8.EncodeRune 0xFFFD = [0xEF; 0xBF; 0xBD]
  /\ utf8.DecodeRune [0xEF; 0xBF; 0xBD] = (0xFFFD, 3)
  /\ (exists e, unescapePercentEncoding (str "EF%BF%BD")
                = (utf8.RuneError, 0, Some e))
  /\ unescapePercentEncoding (str "EF%BF%BC") = (0xFFFC, 8, None).
Proof.
  repeat split. eexists. reflexivity.
Qed.

(** ** Runes and escapes consume a prefix of the input *)

Lemma from_cons c s i : 0 <= i -> from (c :: s) (i + 1) = from s i.
Proof.
  intros Hi. unfold from.
  replace (Z.to_nat (i + 1)) with (S (Z.to_nat i)) by lia. reflexivity.
Qed.

Lemma from_app_exact s t i : i = len s -> from (s ++ t) i = t.
Proof. intros ->. apply from_app_len. Qed.

(** A successful decoding reads a lead byte and continuation bytes, all
    of them at or above [0x80] unless the rune is ASCII, and does not depend
    on what follows. *)
Lemma DecodeRune_consumed s r size :
  utf8.DecodeRuneInString s = (r, size) -> r <> utf8.RuneError ->
  exists c conts rest,
    s = c :: conts ++ rest /\ size = 1 + len conts
    /\ (forall x, In x conts -> 0x80 <= b2z x)
    /\ (b2z c < 0x80 -> r = b2z c /\ conts = [])
    /\ (0x80 <= b2z c -> 0x80 <= r).
Proof.
  unfold utf8.DecodeRuneInString. intros Hd Hr.
  pose proof (DecodeRune_value _ _ _ Hd) as Hv.
  destruct s as [|c s]; cbn [map] in *; [ tauto | ].
  pose proof (DecodeRune_nonascii (b2z c) (map b2z s)) as Hna.
  rewrite Hd in Hna. cbn [fst] in Hna.
  destruct Hv as [(Hlt & -> & ->) | [(-> & _) | (Hge & sz & lo & hi & Hf & -> & Hv)]];
    [ | congruence | ].
  { exists c, [], s. repeat split; try tauto; try lia.
    intros x []. }
  apply first_cases in Hf.
  assert (Hlo : 0x80 <= lo) by lia.
  destruct s as [|c1 s]; cbn [map] in Hv; [ contradiction | ].
  destruct Hv as (Hc1 & [(-> & _) | Hv]).
  { exists c, [c1], s. repeat split; try lia; try tauto.
    intros x [<- | []]. lia. }
  destruct s as [|c2 s]; cbn [map] in Hv; [ contradiction | ].
  destruct Hv as (Hc2 & [(-> & _) | Hv]).
  { exists c, [c1; c2], s. repeat split; try lia; try tauto.
    intros x [<- | [<- | []]]; lia. }
  destruct s as [|c3 s]; cbn [map] in Hv; [ contradiction | ].
  destruct Hv as (Hc3 & -> & _).
  exists c, [c1; c2; c3], s. repeat split; try lia; try tauto.
  intros x [<- | [<- | [<- | []]]]; lia.
Qed.

Lemma DecodeRune_app p q r size :
  utf8.DecodeRune p = (r, size) -> r <> utf8.RuneError ->
  utf8.DecodeRune (p ++ q) = (r, size).
Proof.
  unfold utf8.DecodeRune.
  destruct p as [|s0 p]; [ intros Hd; inversion Hd; congruence | ].
  cbn [app].
  destruct (s0 <? utf8.RuneSelf); [ tauto | ].
  destruct (utf8.first s0) as [[sz [lo hi]]|] eqn:Hf; [ | tauto ].
  apply first_cases in Hf.
  destruct (Z.ltb_spec (Z.of_nat (List.length (s0 :: p))) sz) as [Hl | Hl];
    [ intros Hd; inversion Hd; congruence | ].
  destruct (Z.ltb_spec (Z.of_nat (List.length (s0 :: p ++ q))) sz) as [Hl' | _].
  { cbn [List.length] in *. rewrite length_app in Hl'. lia. }
  destruct p as [|s1 p]; [ cbn [List.length] in Hl; lia | ]. cbn [app].
  destruct ((s1 <? lo) || (hi <? s1)); [ tauto | ].
  destruct (Z.leb_spec sz 2); [ tauto | ].
  destruct p as [|s2 p]; [ cbn [List.length] in Hl; lia | ]. cbn [app].
  destruct (negb (utf8.iscont s2)); [ tauto | ].
  destruct (Z.leb_spec sz 3); [ tauto | ].
  destruct p as [|s3 p]; [ cbn [List.length] in Hl; lia | ]. cbn [app].
  tauto.
Qed.

Lemma DecodeRuneInString_app s t r size :
  utf8.DecodeRuneInString s = (r, size) -> r <> utf8.RuneError ->
  utf8.DecodeRuneInString (s ++ t) = (r, size).
Proof.
  unfold utf8.DecodeRuneInString. rewrite map_app. apply DecodeRune_app.
Qed.

Lemma from_app_le s t i :
  0 <= i <= len s -> from (s ++ t) i = from s i ++ t.
Proof.
  unfold from, len. intros Hi. rewrite skipn_app.
  replace (Z.to_nat i - List.length s)%nat with 0%nat by lia. reflexivity.
Qed.

Lemma at_app s t i : 0 <= i < len s -> at_ (s ++ t) i = at_ s i.
Proof.
  unfold at_, len. intros Hi. apply app_nth1. lia.
Qed.

Lemma len_from s i : 0 <= i <= len s -> len (from s i) = len s - i.
Proof.
  unfold from, len. intros Hi. rewrite length_skipn. lia.
Qed.

Lemma from_from s i j : 0 <= i -> 0 <= j -> from (from s i) j = from s (i + j).
Proof.
  intros Hi Hj. unfold from. rewrite skipn_skipn. f_equal. lia.
Qed.

Lemma unescapeSequence_ok s b :
  unescapeSequence s = (b, None) ->
  exists h1 h2 rest, s = h1 :: h2 :: rest
                     /\ isHex (b2z h1) = true /\ isHex (b2z h2) = true.
Proof.
  unfold unescapeSequence.
  destruct s as [|h1 [|h2 rest]];
    try (rewrite ?len_cons, ?len_nil; cbn; intros Hu; discriminate Hu).
  rewrite !len_cons. pose proof (len_nonneg rest).
  destruct (Z.ltb_spec (len rest + 1 + 1) 2); [ lia | ].
  change (at_ (h1 :: h2 :: rest) 0) with h1.
  change (at_ (h1 :: h2 :: rest) 1) with h2.
  destruct (isHex (b2z h1)) eqn:H1, (isHex (b2z h2)) eqn:H2;
    cbn [negb orb]; intros Hu; try discriminate Hu.
  exists h1, h2, rest. repeat split; assumption.
Qed.

Lemma unescapeSequence_app s t b :
  unescapeSequence s = (b, None) -> unescapeSequence (s ++ t) = (b, None).
Proof.
  intros Hu. destruct (unescapeSequence_ok s b Hu) as (h1 & h2 & rest & -> & H1 & H2).
  revert Hu. unfold unescapeSequence. cbn [app]. rewrite !len_cons.
  pose proof (len_nonneg rest). pose proof (len_nonneg (rest ++ t)).
  destruct (Z.ltb_spec (len rest + 1 + 1) 2); [ lia | ].
  destruct (Z.ltb_spec (len (rest ++ t) + 1 + 1) 2); [ lia | ].
  change (at_ (h1 :: h2 :: rest) 0) with h1.
  change (at_ (h1 :: h2 :: rest) 1) with h2.
  change (at_ (h1 :: h2 :: rest ++ t) 0) with h1.
  change (at_ (h1 :: h2 :: rest ++ t) 1) with h2.
  tauto.
Qed.

Lemma unescapeSequence_incomplete tail :
  incompleteEscape tail = true ->
  exists e, unescapeSequence tail = (0, Some e).
Proof.
  unfold unescapeSequence, incompleteEscape.
  destruct tail as [|h1 [|h2 rest]];
    try (intros _; rewrite ?len_cons, ?len_nil; cbn; eexists; reflexivity).
  rewrite !len_cons. pose proof (len_nonneg rest).
  destruct (Z.ltb_spec (len rest + 1 + 1) 2); [ lia | ].
  change (at_ (h1 :: h2 :: rest) 0) with h1.
  change (at_ (h1 :: h2 :: rest) 1) with h2.
  intros ->. eexists. reflexivity.
Qed.

Lemma nextEscaped_failed s offset r :
  nextEscaped s offset = inl r -> exists a b e, r = (a, b, Some e).
Proof.
  unfold nextEscaped.
  destruct (len s <=? offset); [ intros [= <-]; eauto | ].
  destruct (negb (Ascii.eqb (at_ s offset) percentMark));
    [ intros [= <-]; eauto | ].
  destruct (unescapeSequence (from s (offset + 1))) as [b [e|]];
    [ intros [= <-]; eauto | discriminate ].
Qed.

Lemma nextEscaped_ok s offset b off' :
  nextEscaped s offset = inr (b, off') -> 0 <= offset ->
  exists h1 h2,
    from s offset = percentMark :: h1 :: h2 :: from s (offset + 3)
    /\ isHex (b2z h1) = true /\ isHex (b2z h2) = true
    /\ off' = offset + 3 /\ offset + 3 <= len s.
Proof.
  intros Hn Ho. revert Hn. unfold nextEscaped.
  destruct (Z.leb_spec (len s) offset) as [|Hlt]; [ discriminate | ].
  destruct (Ascii.eqb_spec (at_ s offset) percentMark) as [He | _];
    [ | discriminate ].
  cbn [negb].
  destruct (unescapeSequence (from s (offset + 1))) as [b' [e|]] eqn:Hu;
    [ discriminate | ].
  intros Hb. inversion Hb; subst b' off'; clear Hb.
  destruct (unescapeSequence_ok _ _ Hu) as (h1 & h2 & rest & Hs & H1 & H2).
  exists h1, h2.
  assert (Hfrom : from s offset = at_ s offset :: from s (offset + 1)).
  { unfold from, at_.
    replace (Z.to_nat (offset + 1)) with (S (Z.to_nat offset)) by lia.
    assert (Hn : (Z.to_nat offset < List.length s)%nat)
      by (unfold len in Hlt; lia).
    clear - Hn. revert Hn. generalize (Z.to_nat offset) as n.
    induction s as [|x s IH]; intros n Hn; [ simpl in Hn; lia | ].
    destruct n; [ reflexivity | ]. cbn. apply IH. simpl in Hn. lia. }
  assert (Hrest : from s (offset + 3) = rest).
  { replace (offset + 3) with ((offset + 1) + 2) by lia.
    rewrite <- from_from by lia. rewrite Hs. reflexivity. }
  rewrite Hfrom, He, Hs, Hrest. repeat split; try assumption; try lia.
  assert (Hl : len (from s (offset + 1)) = len s - (offset + 1))
    by (apply len_from; lia).
  rewrite Hs, !len_cons in Hl. pose proof (len_nonneg rest). lia.
Qed.

Lemma nextEscaped_app s t offset b off' :
  nextEscaped s offset = inr (b, off') -> 0 <= offset ->
  nextEscaped (s ++ t) offset = inr (b, off').
Proof.
  intros Hn Ho.
  destruct (nextEscaped_ok s offset b off' Hn Ho) as (h1 & h2 & _ & _ & _ & _ & Hl).
  revert Hn. unfold nextEscaped. rewrite len_app.
  pose proof (len_nonneg t).
  destruct (Z.leb_spec (len s) offset); [ lia | ].
  destruct (Z.leb_spec (len s + len t) offset); [ lia | ].
  rewrite at_app by lia.
  destruct (negb (Ascii.eqb (at_ s offset) percentMark)); [ tauto | ].
  rewrite from_app_le by lia.
  destruct (unescapeSequence (from s (offset + 1))) as [b' [e|]] eqn:Hu;
    [ discriminate | ].
  rewrite (unescapeSequence_app _ t _ Hu). tauto.
Qed.

Lemma decodeCodePoint_ok cp offset u off' :
  decodeCodePoint cp offset = (u, off', None) -> off' = offset.
Proof.
  unfold decodeCodePoint. destruct (utf8.DecodeRune cp) as [r sz].
  destruct (r =? utf8.RuneError); [ discriminate | ].
  intros Hd. inversion Hd. reflexivity.
Qed.

Ltac escaped_step s :=
  match goal with
  | |- context [nextEscaped s ?o] =>
      let Hn := fresh "Hn" in
      let r := fresh "r" in
      let b := fresh "b" in
      let off := fresh "off" in
      destruct (nextEscaped s o) as [r | [b off]] eqn:Hn;
      [ let Hf := fresh "Hf" in
        intros Hf;
        destruct (nextEscaped_failed _ _ _ Hn) as (? & ? & ? & ->);
        discriminate Hf
      | ]
  end.

Ltac escaped_ok Hn Hk :=
  let Hk' := fresh "Hk'" in
  pose proof (nextEscaped_ok _ _ _ _ Hn) as Hk';
  assert (Hk := Hk' ltac:(lia)); clear Hk'.

Lemma unescape_app s t u offset :
  unescapePercentEncoding s = (u, offset, None) ->
  unescapePercentEncoding (s ++ t) = (u, offset, None).
Proof.
  unfold unescapePercentEncoding.
  destruct (unescapeSequence s) as [c0 [e|]] eqn:Hu; [ discriminate | ].
  rewrite (unescapeSequence_app _ t _ Hu). cbv zeta.
  destruct (0xC0 <=? c0); [ | tauto ].
  escaped_step s. escaped_ok Hn Hk.
  destruct Hk as (_ & _ & _ & _ & _ & -> & _).
  rewrite (nextEscaped_app _ t _ _ _ Hn) by lia.
  destruct (0xE0 <=? c0); [ | tauto ].
  escaped_step s. escaped_ok Hn0 Hk.
  destruct Hk as (_ & _ & _ & _ & _ & -> & _).
  rewrite (nextEscaped_app _ t _ _ _ Hn0) by lia.
  destruct (0xF0 <=? c0); [ | tauto ].
  escaped_step s. escaped_ok Hn1 Hk.
  destruct Hk as (_ & _ & _ & _ & _ & -> & _).
  rewrite (nextEscaped_app _ t _ _ _ Hn1) by lia.
  tauto.
Qed.

Lemma from_cons2 h1 h2 s : from (h1 :: h2 :: s) 2 = s.
Proof. reflexivity. Qed.

Lemma unescape_consumed s u offset :
  unescapePercentEncoding s = (u, offset, None) ->
  exists consumed,
    s = consumed ++ from s offset /\ len consumed = offset
    /\ escapeTail consumed = true /\ 2 <= offset.
Proof.
  unfold unescapePercentEncoding.
  destruct (unescapeSequence s) as [c0 [e|]] eqn:Hu; [ discriminate | ].
  destruct (unescapeSequence_ok _ _ Hu) as (h1 & h2 & rest & -> & H1 & H2).
  cbv zeta. set (s := h1 :: h2 :: rest).
  assert (Hone : forall cp u, decodeCodePoint cp 2 = (u, offset, None) ->
            exists consumed, s = consumed ++ from s offset
              /\ len consumed = offset /\ escapeTail consumed = true
              /\ 2 <= offset).
  { intros cp u' Hd. apply decodeCodePoint_ok in Hd. subst offset.
    exists [h1; h2]. cbn. rewrite H1, H2. repeat split. lia. }
  destruct (0xC0 <=? c0); [ | apply Hone ].
  escaped_step s. escaped_ok Hn Hk.
  destruct Hk as (h3 & h4 & Hs3 & H3 & H4 & -> & _).
  change (from s 2) with rest in Hs3.
  assert (Htwo : forall cp u, decodeCodePoint cp (2 + 3) = (u, offset, None) ->
            exists consumed, s = consumed ++ from s offset
              /\ len consumed = offset /\ escapeTail consumed = true
              /\ 2 <= offset).
  { intros cp u' Hd. apply decodeCodePoint_ok in Hd. subst offset.
    exists [h1; h2; percentMark; h3; h4]. unfold s. rewrite Hs3.
    cbn. rewrite H1, H2, H3, H4. repeat split. lia. }
  destruct (0xE0 <=? c0); [ | apply Htwo ].
  escaped_step s. escaped_ok Hn0 Hk.
  destruct Hk as (h5 & h6 & Hs5 & H5 & H6 & -> & _).
  assert (Hthree : forall cp u,
            decodeCodePoint cp (2 + 3 + 3) = (u, offset, None) ->
            exists consumed, s = consumed ++ from s offset
              /\ len consumed = offset /\ escapeTail consumed = true
              /\ 2 <= offset).
  { intros cp u' Hd. apply decodeCodePoint_ok in Hd. subst offset.
    exists [h1; h2; percentMark; h3; h4; percentMark; h5; h6].
    unfold s at 1. rewrite Hs3.
    change (from s (2 + 3)) with (from rest 3) in Hs5.
    rewrite Hs3 in Hs5. change (from (percentMark :: h3 :: h4 :: from s (2 + 3)) 3)
      with (from s (2 + 3)) in Hs5.
    rewrite Hs5.
    cbn. rewrite H1, H2, H3, H4, H5, H6. repeat split. lia. }
  destruct (0xF0 <=? c0); [ | apply Hthree ].
  escaped_step s. escaped_ok Hn1 Hk.
  destruct Hk as (h7 & h8 & Hs7 & H7 & H8 & -> & _).
  intros Hd. apply decodeCodePoint_ok in Hd. subst offset.
  exists [h1; h2; percentMark; h3; h4; percentMark; h5; h6; percentMark;
          h7; h8].
  unfold s at 1. rewrite Hs3.
  change (from s (2 + 3)) with (from rest 3) in Hs5.
  rewrite Hs3 in Hs5.
  change (from (percentMark :: h3 :: h4 :: from s (2 + 3)) 3)
    with (from s (2 + 3)) in Hs5.
  rewrite Hs5. rewrite Hs7.
  cbn. rewrite H1, H2, H3, H4, H5, H6, H7, H8. repeat split. lia.
Qed.

(** ** The percent-decoder on the encoding of a scalar *)

Lemma unhex_range c : 0 <= unhex c < 16.
Proof. unfold unhex. zbool; lia. Qed.

Lemma unescapeSequence_hex h1 h2 t b :
  hexByte h1 h2 = Some b -> unescapeSequence (h1 :: h2 :: t) = (b, None).
Proof.
  unfold hexByte, unescapeSequence. rewrite !len_cons.
  pose proof (len_nonneg t).
  destruct (Z.ltb_spec (len t + 1 + 1) 2); [ lia | ].
  change (at_ (h1 :: h2 :: t) 0) with h1.
  change (at_ (h1 :: h2 :: t) 1) with h2.
  destruct (isHex (b2z h1)); [ | discriminate ].
  destruct (isHex (b2z h2)); [ | discriminate ].
  cbn [andb negb orb]. intros Hb.
  assert (Hv : b = 16 * unhex (b2z h1) + unhex (b2z h2)).
  { symmetry. exact (f_equal (fun o => match o with Some x => x | None => 0 end) Hb). }
  rewrite (lor_shiftl_add _ _ 4)
    by (pose proof (unhex_range (b2z h2)); change (2 ^ 4) with 16; lia).
  f_equal. change (2 ^ 4) with 16. lia.
Qed.

Lemma nextEscaped_hex pre h1 h2 t b offset :
  offset = len pre -> hexByte h1 h2 = Some b ->
  nextEscaped (pre ++ percentMark :: h1 :: h2 :: t) offset
  = inr (b, offset + 3).
Proof.
  intros -> Hb. unfold nextEscaped.
  rewrite len_app, !len_cons.
  pose proof (len_nonneg t). pose proof (len_nonneg pre).
  destruct (Z.leb_spec (len pre + (len t + 1 + 1 + 1)) (len pre)); [ lia | ].
  replace (at_ (pre ++ percentMark :: h1 :: h2 :: t) (len pre)) with percentMark.
  2:{ unfold at_, len. rewrite Nat2Z.id.
      rewrite app_nth2 by (apply Nat.le_refl).
      rewrite Nat.sub_diag. reflexivity. }
  cbn [Ascii.eqb negb].
  replace (from (pre ++ percentMark :: h1 :: h2 :: t) (len pre + 1))
    with (h1 :: h2 :: t).
  2:{ change (pre ++ percentMark :: h1 :: h2 :: t)
        with (pre ++ [percentMark] ++ h1 :: h2 :: t).
      rewrite app_assoc. symmetry. apply from_app_exact.
      rewrite len_app, len_cons, len_nil. lia. }
  rewrite (unescapeSequence_hex _ _ _ _ Hb).
  replace (len pre + 1 + 2) with (len pre + 3) by lia. reflexivity.
Qed.

Lemma escapedGroups_one s b :
  escapedGroups 1 s = Some [b] ->
  exists h1 h2 t, s = h1 :: h2 :: t /\ hexByte h1 h2 = Some b.
Proof.
  destruct s as [|h1 [|h2 t]]; try discriminate. cbn [escapedGroups].
  destruct (hexByte h1 h2) as [b'|] eqn:Hb; [ | discriminate ].
  intros Hs. exists h1, h2, t. split; [ reflexivity | ].
  congruence.
Qed.

Lemma escapedGroups_more n s b bs :
  escapedGroups (S (S n)) s = Some (b :: bs) ->
  exists h1 h2 t, s = h1 :: h2 :: percentMark :: t
                  /\ hexByte h1 h2 = Some b
                  /\ escapedGroups (S n) t = Some bs.
Proof.
  destruct s as [|h1 [|h2 t]]; try discriminate.
  change (escapedGroups (S (S n)) (h1 :: h2 :: t))
    with (match hexByte h1 h2 with
          | None => None
          | Some b =>
              match t with
              | p :: t' =>
                  if Ascii.eqb p percentMark
                  then option_map (cons b) (escapedGroups (S n) t')
                  else None
              | [] => None
              end
          end).
  destruct (hexByte h1 h2) as [b'|] eqn:Hb; [ | discriminate ].
  destruct t as [|p t']; [ discriminate | ].
  destruct (Ascii.eqb_spec p percentMark) as [-> | ]; [ | discriminate ].
  destruct (escapedGroups (S n) t') as [bs'|] eqn:Ht; [ | discriminate ].
  cbn [option_map]. intros Hs.
  exists h1, h2, t'. split; [ reflexivity | ]. split; congruence.
Qed.

Ltac next_hex pre t off Hb :=
  let Hn := fresh "Hn" in
  pose proof (nextEscaped_hex pre _ _ t _ off eq_refl Hb) as Hn;
  cbn [app] in Hn; rewrite Hn; clear Hn.

Lemma unescape_groups bs s :
  leadOf bs -> escapedGroups (List.length bs) s = Some bs ->
  unescapePercentEncoding s
  = decodeCodePoint bs (3 * Z.of_nat (List.length bs) - 1).
Proof.
  destruct bs as [|c0 [|c1 [|c2 [|c3 [|c4 bs]]]]]; cbn [leadOf List.length];
    try contradiction; intros Hl Hs.
  - apply escapedGroups_one in Hs. destruct Hs as (h1 & h2 & t & -> & Hb).
    unfold unescapePercentEncoding.
    rewrite (unescapeSequence_hex _ _ _ _ Hb).
    destruct (Z.leb_spec 0xC0 c0); [ lia | ]. reflexivity.
  - apply escapedGroups_more in Hs. destruct Hs as (h1 & h2 & t & -> & Hb & Hs).
    apply escapedGroups_one in Hs. destruct Hs as (h3 & h4 & t' & -> & Hb1).
    unfold unescapePercentEncoding.
    rewrite (unescapeSequence_hex _ _ _ _ Hb).
    destruct (Z.leb_spec 0xC0 c0); [ | lia ].
    next_hex [h1; h2] t' 2 Hb1.
    destruct (Z.leb_spec 0xE0 c0); [ lia | ]. reflexivity.
  - apply escapedGroups_more in Hs. destruct Hs as (h1 & h2 & t & -> & Hb & Hs).
    apply escapedGroups_more in Hs. destruct Hs as (h3 & h4 & t' & -> & Hb1 & Hs).
    apply escapedGroups_one in Hs. destruct Hs as (h5 & h6 & t'' & -> & Hb2).
    unfold unescapePercentEncoding.
    rewrite (unescapeSequence_hex _ _ _ _ Hb).
    destruct (Z.leb_spec 0xC0 c0); [ | lia ].
    next_hex [h1; h2] (percentMark :: h5 :: h6 :: t'') 2 Hb1.
    destruct (Z.leb_spec 0xE0 c0); [ | lia ].
    next_hex [h1; h2; percentMark; h3; h4] t'' (2 + 3) Hb2.
    destruct (Z.leb_spec 0xF0 c0); [ lia | ]. reflexivity.
  - apply escapedGroups_more in Hs. destruct Hs as (h1 & h2 & t & -> & Hb & Hs).
    apply escapedGroups_more in Hs. destruct Hs as (h3 & h4 & t' & -> & Hb1 & Hs).
    apply escapedGroups_more in Hs. destruct Hs as (h5 & h6 & t'' & -> & Hb2 & Hs).
    apply escapedGroups_one in Hs. destruct Hs as (h7 & h8 & t3 & -> & Hb3).
    unfold unescapePercentEncoding.
    rewrite (unescapeSequence_hex _ _ _ _ Hb).
    destruct (Z.leb_spec 0xC0 c0); [ | lia ].
    next_hex [h1; h2]
             (percentMark :: h5 :: h6 :: percentMark :: h7 :: h8 :: t3) 2 Hb1.
    destruct (Z.leb_spec 0xE0 c0); [ | lia ].
    next_hex [h1; h2; percentMark; h3; h4]
             (percentMark :: h7 :: h8 :: t3) (2 + 3) Hb2.
    destruct (Z.leb_spec 0xF0 c0); [ | lia ].
    next_hex [h1; h2; percentMark; h3; h4; percentMark; h5; h6] t3
             (2 + 3 + 3) Hb3.
    reflexivity.
Qed.

Lemma lor_C0 x : 0 <= x < 64 -> Z.lor 0xC0 x = 192 + x.
Proof. intros Hx. exact (lor_shiftl_add 3 x 6 ltac:(lia) Hx). Qed.

Lemma lor_E0 x : 0 <= x < 32 -> Z.lor 0xE0 x = 224 + x.
Proof. intros Hx. exact (lor_shiftl_add 7 x 5 ltac:(lia) Hx). Qed.

Lemma lor_F0 x : 0 <= x < 16 -> Z.lor 0xF0 x = 240 + x.
Proof. intros Hx. exact (lor_shiftl_add 15 x 4 ltac:(lia) Hx). Qed.

Lemma lor_80 x : 0 <= x < 128 -> Z.lor 0x80 x = 128 + x.
Proof. intros Hx. exact (lor_shiftl_add 1 x 7 ltac:(lia) Hx). Qed.

Lemma ValidRune_range r :
  utf8.ValidRune r = true ->
  0 <= r <= 0x10FFFF /\ (r < 0xD800 \/ 0xDFFF < r).
Proof. unfold utf8.ValidRune. zbool; try discriminate; lia. Qed.

Lemma EncodeRune_cases r :
  utf8.ValidRune r = true ->
  (r < 0x80 /\ utf8.EncodeRune r = [r])
  \/ (0x80 <= r < 0x800
      /\ utf8.EncodeRune r = [192 + r / 64; 128 + r mod 64])
  \/ (0x800 <= r < 0x10000
      /\ utf8.EncodeRune r
         = [224 + r / 4096; 128 + (r / 64) mod 64; 128 + r mod 64])
  \/ (0x10000 <= r
      /\ utf8.EncodeRune r
         = [240 + r / 262144; 128 + (r / 4096) mod 64;
            128 + (r / 64) mod 64; 128 + r mod 64]).
Proof.
  intros Hv. apply ValidRune_range in Hv. destruct Hv as [Hr _].
  unfold utf8.EncodeRune.
  rewrite !Z.shiftr_div_pow2 by lia. rewrite !mask6.
  change (2 ^ 6) with 64. change (2 ^ 12) with 4096.
  change (2 ^ 18) with 262144.
  destruct (Z.ltb_spec r 0x80); [ left; split; [ lia | reflexivity ] | ].
  destruct (Z.ltb_spec r 0x800).
  { right; left. split; [ lia | ].
    rewrite lor_C0 by (Z.div_mod_to_equations; lia).
    rewrite lor_80 by (Z.div_mod_to_equations; lia). reflexivity. }
  destruct (Z.ltb_spec r 0x10000).
  { right; right; left. split; [ lia | ].
    rewrite lor_E0 by (Z.div_mod_to_equations; lia).
    rewrite !lor_80 by (Z.div_mod_to_equations; lia). reflexivity. }
  right; right; right. split; [ lia | ].
  rewrite lor_F0 by (Z.div_mod_to_equations; lia).
  rewrite !lor_80 by (Z.div_mod_to_equations; lia). reflexivity.
Qed.

Ltac zdec :=
  repeat (match goal with
          | |- context [?a <? ?b] => destruct (Z.ltb_spec a b); try lia
          | |- context [?a <=? ?b] => destruct (Z.leb_spec a b); try lia
          | |- context [?a =? ?b] => destruct (Z.eqb_spec a b); try lia
          end; cbn [andb orb negb]).

Lemma DecodeRune_EncodeRune r :
  utf8.ValidRune r = true ->
  utf8.DecodeRune (utf8.EncodeRune r)
  = (r, Z.of_nat (List.length (utf8.EncodeRune r))).
Proof.
  intros Hv. pose proof (ValidRune_range r Hv) as [Hr Hs].
  destruct (EncodeRune_cases r Hv)
    as [(H1 & ->) | [(H2 & ->) | [(H3 & ->) | (H4 & ->)]]].
  - unfold utf8.DecodeRune, utf8.RuneSelf.
    destruct (Z.ltb_spec r 128); [ reflexivity | lia ].
  - assert (Hq : exists q m, r / 64 = q /\ r mod 64 = m
                             /\ r = 64 * q + m /\ 0 <= m < 64).
    { eexists; eexists; split; [ reflexivity | split; [ reflexivity | ] ].
      Z.div_mod_to_equations; lia. }
    destruct Hq as (q & m & -> & -> & Hq & Hm).
    unfold utf8.DecodeRune, utf8.first, utf8.RuneSelf, utf8.locb, utf8.hicb.
    cbn [List.length]. change (Z.of_nat 2) with 2.
    rewrite mask5, mask6, dec2 by (Z.div_mod_to_equations; lia).
    zdec. f_equal. Z.div_mod_to_equations; lia.
  - assert (Hq : exists q m1 m0,
               r / 4096 = q /\ (r / 64) mod 64 = m1 /\ r mod 64 = m0
               /\ r = 4096 * q + 64 * m1 + m0
               /\ 0 <= m1 < 64 /\ 0 <= m0 < 64).
    { do 3 eexists; split; [ reflexivity | split; [ reflexivity | split;
        [ reflexivity | ] ] ].
      Z.div_mod_to_equations; lia. }
    destruct Hq as (q & m1 & m0 & -> & -> & -> & Hq & Hm1 & Hm0).
    unfold utf8.DecodeRune, utf8.first, utf8.iscont, utf8.RuneSelf,
      utf8.locb, utf8.hicb.
    cbn [List.length]. change (Z.of_nat 3) with 3.
    rewrite mask4, !mask6, dec3 by (Z.div_mod_to_equations; lia).
    zdec; f_equal; Z.div_mod_to_equations; lia.
  - assert (Hq : exists q m2 m1 m0,
               r / 262144 = q /\ (r / 4096) mod 64 = m2
               /\ (r / 64) mod 64 = m1 /\ r mod 64 = m0
               /\ r = 262144 * q + 4096 * m2 + 64 * m1 + m0
               /\ 0 <= m2 < 64 /\ 0 <= m1 < 64 /\ 0 <= m0 < 64).
    { do 4 eexists; split; [ reflexivity | split; [ reflexivity | split;
        [ reflexivity | split; [ reflexivity | ] ] ] ].
      Z.div_mod_to_equations; lia. }
    destruct Hq as (q & m2 & m1 & m0 & -> & -> & -> & -> & Hq & Hm2 & Hm1 & Hm0).
    unfold utf8.DecodeRune, utf8.first, utf8.iscont, utf8.RuneSelf,
      utf8.locb, utf8.hicb.
    cbn [List.length]. change (Z.of_nat 4) with 4.
    rewrite mask3, !mask6, dec4 by (Z.div_mod_to_equations; lia).
    zdec; f_equal; Z.div_mod_to_equations; lia.
Qed.

Lemma EncodeRune_lead r : utf8.ValidRune r = true -> leadOf (utf8.EncodeRune r).
Proof.
  intros Hv. pose proof (ValidRune_range r Hv) as [Hr Hs].
  destruct (EncodeRune_cases r Hv)
    as [(H1 & ->) | [(H2 & ->) | [(H3 & ->) | (H4 & ->)]]];
    cbn [leadOf]; Z.div_mod_to_equations; lia.
Qed.

(** Away from U+FFFD the decoder does return the scalar: when the leading
    escape groups of [s] spell the UTF-8 encoding of a scalar [r] other than
    U+FFFD, [unescapePercentEncoding] returns [r] and the number of bytes of
    these groups, whatever follows them. *)
Theorem unescape_decodes_scalar (r : rune) (s : gostring) :
  utf8.ValidRune r = true -> r <> 0xFFFD ->
  escapedGroups (List.length (utf8.EncodeRune r)) s
  = Some (utf8.EncodeRune r) ->
  unescapePercentEncoding s
  = (r, 3 * Z.of_nat (List.length (utf8.EncodeRune r)) - 1, None).
Proof.
  intros Hv Hne Hs.
  rewrite (unescape_groups _ _ (EncodeRune_lead r Hv) Hs).
  unfold decodeCodePoint. rewrite (DecodeRune_EncodeRune r Hv).
  destruct (Z.eqb_spec r utf8.RuneError) as [He | _];
    [ contradiction | reflexivity ].
Qed.

Example unescape_decodes_euro_sign :
  unescapePercentEncoding (str "e2%82%ACx") = (0x20AC, 8, None).
Proof.
  apply (unescape_decodes_scalar 0x20AC (str "e2%82%ACx"));
    [ reflexivity | discriminate | reflexivity ].
Qed.

(** ** An incomplete escape is never skipped *)

Lemma conts_skip conts : forall pre tail rest,
  (forall x, In x conts -> x <> percentMark) ->
  conts ++ rest = pre ++ percentMark :: tail ->
  exists pre', rest = pre' ++ percentMark :: tail.
Proof.
  induction conts as [|x conts IH]; intros pre tail rest Hne Heq.
  - exists pre. exact Heq.
  - destruct pre as [|y pre]; cbn [app] in Heq; inversion Heq; subst.
    + exfalso. apply (Hne percentMark); [ now left | reflexivity ].
    + eapply IH; [ | eassumption ]. intros z Hz. apply Hne. now right.
Qed.

Lemma hex_not_percent h : isHex (b2z h) = true -> h <> percentMark.
Proof. intros Hh ->. discriminate Hh. Qed.

Lemma escape_skip n : forall consumed pre tail rest,
  (List.length consumed <= n)%nat ->
  escapeTail consumed = true ->
  consumed ++ rest = pre ++ percentMark :: tail ->
  incompleteEscape tail = true ->
  exists pre', rest = pre' ++ percentMark :: tail.
Proof.
  induction n as [|n IH]; intros consumed pre tail rest Hn He Heq Hinc.
  - destruct consumed; [ discriminate He | simpl in Hn; lia ].
  - destruct consumed as [|h1 [|h2 more]]; try discriminate He.
    cbn [escapeTail] in He.
    apply andb_prop in He. destruct He as [He Hmore].
    apply andb_prop in He. destruct He as [H1 H2].
    destruct pre as [|y1 pre]; cbn [app] in Heq.
    { inversion Heq; subst. exfalso.
      exact (hex_not_percent _ H1 eq_refl). }
    destruct pre as [|y2 pre]; cbn [app] in Heq.
    { inversion Heq; subst. exfalso.
      exact (hex_not_percent _ H2 eq_refl). }
    inversion Heq as [[E1 E2 Hrest]]. clear Heq.
    destruct more as [|p more'].
    { exists pre. exact Hrest. }
    apply andb_prop in Hmore. destruct Hmore as [Hp Hmore].
    apply Ascii.eqb_eq in Hp. subst p.
    destruct pre as [|y3 pre]; cbn [app] in Hrest.
    { inversion Hrest as [Htail]. exfalso.
      destruct more' as [|h3 [|h4 more'']]; try discriminate Hmore.
      cbn [escapeTail] in Hmore.
      apply andb_prop in Hmore. destruct Hmore as [Hm _].
      apply andb_prop in Hm. destruct Hm as [H3 H4].
      rewrite <- Htail in Hinc. cbn [app incompleteEscape] in Hinc.
      rewrite H3, H4 in Hinc. discriminate Hinc. }
    inversion Hrest as [[E3 Hrest']].
    apply (IH more' pre tail rest); try assumption.
    simpl in Hn. lia.
Qed.

Section Escapes.
Context `{Extern}.

Lemma loop_nil fuel acc : validateUnreservedWithExtra_loop fuel [] acc = None.
Proof. destruct fuel; reflexivity. Qed.

Lemma from_consumed c conts rest :
  from (c :: conts ++ rest) (1 + len conts) = rest.
Proof.
  change (c :: conts ++ rest) with ((c :: conts) ++ rest).
  apply from_app_exact. rewrite len_cons. lia.
Qed.

Lemma length_from_le s i : (List.length (from s i) <= List.length s)%nat.
Proof. unfold from. rewrite length_skipn. lia. Qed.

Lemma length_consumed (consumed s : gostring) offset :
  s = consumed ++ from s offset -> len consumed = offset -> 2 <= offset ->
  (List.length (from s offset) + 2 <= List.length s)%nat.
Proof.
  intros Hs Hl Ho. rewrite Hs at 2. rewrite length_app.
  unfold len in Hl. lia.
Qed.

(** An input with an incomplete escape is rejected. *)
Lemma loop_rejects_incomplete acc : forall fuel s,
  (List.length s <= fuel)%nat -> hasIncompleteEscape s ->
  exists e, validateUnreservedWithExtra_loop fuel s acc = Some e.
Proof.
  induction fuel as [|fuel IH]; intros s Hfuel (pre & tail & Hs & Hinc).
  { subst s. rewrite length_app in Hfuel. simpl in Hfuel. lia. }
  destruct s as [|c0 s0]; [ destruct pre; discriminate Hs | ].
  cbn [validateUnreservedWithExtra_loop].
  destruct (utf8.DecodeRuneInString (c0 :: s0)) as [r size] eqn:Hd.
  destruct (Z.eqb_spec r utf8.RuneError) as [_ | Hr]; [ eauto | ].
  destruct (DecodeRune_consumed _ _ _ Hd Hr)
    as (c & conts & rest & Hcs & -> & Hconts & Hascii & Hhigh).
  rewrite Hcs, from_consumed.
  assert (Hlen : (List.length rest <= fuel)%nat).
  { rewrite Hcs in Hfuel. cbn [List.length] in Hfuel.
    rewrite length_app in Hfuel. lia. }
  pose proof (b2z_range c) as Hc.
  destruct (Z.eqb_spec r (b2z percentMark)) as [Hp | Hp].
  - assert (Hlow : b2z c < 0x80).
    { destruct (Z.lt_ge_cases (b2z c) 0x80) as [Hl | Hg]; [ exact Hl | ].
      specialize (Hhigh Hg). subst r. cbv in Hhigh. congruence. }
    destruct (Hascii Hlow) as (Hrc & ->). cbn [app] in Hcs.
    assert (c = percentMark) by (apply b2z_inj; congruence). subst c.
    rewrite Hcs in Hs.
    destruct pre as [|y pre]; cbn [app] in Hs; inversion Hs; subst.
    + destruct tail as [|t1 tail']; [ cbn; eauto | ]. cbn [isEmpty].
      destruct (unescapeSequence_incomplete _ Hinc) as (e & He).
      unfold unescapePercentEncoding. rewrite He. eauto.
    + destruct (pre ++ percentMark :: tail) as [|z zs] eqn:Hz;
        [ destruct pre; discriminate Hz | ].
      cbn [isEmpty]. rewrite <- Hz in *.
      destruct (unescapePercentEncoding (pre ++ percentMark :: tail))
        as [[u offset] [e|]] eqn:Hu; [ eauto | ].
      destruct (unescape_consumed _ _ _ Hu) as (consumed & Hcons & Hcl & Hesc & Ho).
      apply IH.
      * pose proof (length_consumed _ _ _ Hcons Hcl Ho). lia.
      * destruct (escape_skip (List.length consumed) consumed pre tail
                    (from (pre ++ percentMark :: tail) offset))
          as (pre' & Hpre'); auto.
        exists pre', tail. auto.
  - destruct (notUnreservedOrSubDelims r && negb (existsb (Z.eqb r) acc));
      [ eauto | ].
    apply IH; [ exact Hlen | ].
    rewrite Hcs in Hs.
    destruct pre as [|y pre]; cbn [app] in Hs; inversion Hs; subst.
    + exfalso. apply Hp. assert (Hlow : b2z percentMark < 0x80) by (cbv; reflexivity).
      destruct (Hascii Hlow) as (-> & _). reflexivity.
    + destruct (conts_skip conts pre tail rest) as (pre' & Hpre'); auto.
      * intros x Hx ->. specialize (Hconts _ Hx). cbv in Hconts.
        apply Hconts. reflexivity.
      * exists pre', tail. auto.
Qed.


(** More fuel than bytes changes nothing. *)
Lemma loop_fuel acc : forall fuel fuel' s,
  (List.length s <= fuel)%nat -> (List.length s <= fuel')%nat ->
  validateUnreservedWithExtra_loop fuel s acc
  = validateUnreservedWithExtra_loop fuel' s acc.
Proof.
  induction fuel as [|fuel IH]; intros fuel' s Hf Hf'.
  { destruct s; [ | simpl in Hf; lia ]. rewrite !loop_nil. reflexivity. }
  destruct s as [|c0 s0]; [ rewrite !loop_nil; reflexivity | ].
  destruct fuel' as [|fuel']; [ simpl in Hf'; lia | ].
  cbn [validateUnreservedWithExtra_loop].
  destruct (utf8.DecodeRuneInString (c0 :: s0)) as [r size] eqn:Hd.
  destruct (Z.eqb_spec r utf8.RuneError) as [_ | Hr]; [ reflexivity | ].
  destruct (DecodeRune_consumed _ _ _ Hd Hr)
    as (c & conts & rest & Hcs & -> & _).
  rewrite Hcs, from_consumed.
  assert (Hlen : (List.length rest < List.length (c0 :: s0))%nat).
  { rewrite Hcs. cbn [List.length]. rewrite length_app. lia. }
  cbn [List.length] in *.
  destruct (r =? b2z percentMark).
  - destruct (isEmpty rest); [ reflexivity | ].
    destruct (unescapePercentEncoding rest) as [[u offset] [e|]];
      [ reflexivity | ].
    pose proof (length_from_le rest offset). apply IH; lia.
  - destruct (notUnreservedOrSubDelims r && negb (existsb (Z.eqb r) acc));
      [ reflexivity | ].
    apply IH; lia.
Qed.

(** An accepted prefix is walked through. *)
Lemma loop_app acc rest : forall fuel pre,
  (List.length (pre ++ rest) <= fuel)%nat ->
  validateUnreservedWithExtra_loop fuel pre acc = None ->
  validateUnreservedWithExtra_loop fuel (pre ++ rest) acc
  = validateUnreservedWithExtra_loop (List.length rest) rest acc.
Proof.
  induction fuel as [|fuel IH]; intros pre Hf Hv.
  { destruct pre; [ | simpl in Hf; lia ]. cbn [app] in *.
    apply loop_fuel; lia. }
  destruct pre as [|c0 s0]; [ cbn [app] in *; apply loop_fuel; lia | ].
  revert Hv. cbn [app validateUnreservedWithExtra_loop].
  destruct (utf8.DecodeRuneInString (c0 :: s0)) as [r size] eqn:Hd.
  destruct (Z.eqb_spec r utf8.RuneError) as [_ | Hr]; [ discriminate | ].
  change (c0 :: s0 ++ rest) with ((c0 :: s0) ++ rest).
  rewrite (DecodeRuneInString_app _ rest _ _ Hd Hr).
  destruct (Z.eqb_spec r utf8.RuneError) as [? | _]; [ contradiction | ].
  destruct (DecodeRune_consumed _ _ _ Hd Hr)
    as (c & conts & tl & Hcs & -> & _).
  rewrite Hcs. rewrite from_consumed.
  replace ((c :: conts ++ tl) ++ rest) with (c :: conts ++ (tl ++ rest))
    by (cbn [app]; rewrite <- app_assoc; reflexivity).
  rewrite from_consumed.
  assert (Hlen : (List.length (tl ++ rest) <= fuel)%nat).
  { rewrite Hcs in Hf. cbn [List.length app] in Hf.
    rewrite !length_app in Hf. rewrite length_app. lia. }
  destruct (r =? b2z percentMark).
  - destruct tl as [|t1 tl']; [ discriminate | ].
    cbn [isEmpty app].
    change (t1 :: tl' ++ rest) with ((t1 :: tl') ++ rest).
    destruct (unescapePercentEncoding (t1 :: tl'))
      as [[u offset] [e|]] eqn:Hu; [ discriminate | ].
    rewrite (unescape_app _ rest _ _ Hu).
    destruct (unescape_consumed _ _ _ Hu) as (consumed & Hcons & Hcl & _ & Ho).
    assert (Hol : 0 <= offset <= len (t1 :: tl')).
    { rewrite Hcons at 1. rewrite len_app.
      pose proof (len_nonneg (from (t1 :: tl') offset)). lia. }
    rewrite from_app_le by exact Hol.
    intros Hv. apply IH; [ | exact Hv ].
    pose proof (length_from_le (t1 :: tl') offset).
    rewrite length_app in *. lia.
  - destruct (notUnreservedOrSubDelims r && negb (existsb (Z.eqb r) acc));
      [ discriminate | ].
    intros Hv. apply IH; assumption.
Qed.

Lemma loop_at_incomplete acc fuel tail :
  incompleteEscape tail = true ->
  exists e,
    validateUnreservedWithExtra_loop (S fuel) (percentMark :: tail) acc
    = Some e
    /\ errors_Is e ErrInvalidEscaping = true.
Proof.
  intros Hinc. cbn [validateUnreservedWithExtra_loop].
  rewrite DecodeRune_ascii by (cbv; reflexivity).
  change (b2z percentMark =? utf8.RuneError) with false.
  rewrite Z.eqb_refl. change (from (percentMark :: tail) 1) with tail.
  cbv iota.
  destruct tail as [|t1 tail']; [ cbn; eauto | ]. cbn [isEmpty].
  destruct (unescapeSequence_incomplete _ Hinc) as (e & He).
  unfold unescapePercentEncoding. rewrite He. eexists. split; reflexivity.
Qed.

(** C5, as amended: a string that contains a ['%'] followed by nothing, by
    one byte, or by two bytes that are not both hex digits is rejected by
    [validateUnreservedWithExtra]; when the part of the string before
    that ['%'] is itself accepted, the error matches [ErrInvalidEscaping],
    also through the query validator built on it. *)
Theorem incomplete_escape_is_rejected (pre tail : gostring)
  (acceptedRunes : list rune) :
  incompleteEscape tail = true ->
  (exists e, validateUnreservedWithExtra (pre ++ percentMark :: tail)
               acceptedRunes = Some e)
  /\ (validateUnreservedWithExtra pre acceptedRunes = None ->
      exists e, validateUnreservedWithExtra (pre ++ percentMark :: tail)
                  acceptedRunes = Some e
                /\ errors_Is e ErrInvalidEscaping = true)
  /\ (validateUnreservedWithExtra pre queryOrFragmentExtraRunes = None ->
      forall o, exists e,
        validateQuery (pre ++ percentMark :: tail) o = Some e
        /\ errors_Is e ErrInvalidEscaping = true
        /\ errors_Is e ErrInvalidQuery = true).
Proof.
  intros Hinc.
  assert (Hvalid : forall acc,
             validateUnreservedWithExtra pre acc = None ->
             exists e, validateUnreservedWithExtra (pre ++ percentMark :: tail)
                         acc = Some e
                       /\ errors_Is e ErrInvalidEscaping = true).
  { intros acc Hpre. unfold validateUnreservedWithExtra in *.
    rewrite loop_app.
    - apply loop_at_incomplete, Hinc.
    - lia.
    - rewrite <- Hpre. apply loop_fuel; [ | lia ].
      rewrite length_app. lia. }
  split; [ | split ].
  - apply loop_rejects_incomplete; [ lia | ]. exists pre, tail. auto.
  - apply Hvalid.
  - intros Hpre o. destruct (Hvalid _ Hpre) as (e & He & Hesc).
    unfold validateQuery. rewrite He. eexists. split; [ reflexivity | ].
    cbn [errors_Is errorsJoin]. rewrite Hesc. split; reflexivity.
Qed.

End Escapes.

Lemma incomplete_escape_is_rejected_witness :
  incompleteEscape (str "4") = true
  /\ exists e, @validateUnreservedWithExtra modelled (str "a=%4") [0x3D]
               = Some e
               /\ errors_Is e ErrInvalidEscaping = true.
Proof.
  assert (Hinc : incompleteEscape (str "4") = true) by reflexivity.
  split; [ exact Hinc | ].
  exact (proj1 (proj2 (@incomplete_escape_is_rejected modelled (str "a=")
                         (str "4") [0x3D] Hinc)) eq_refl).
Defined.

(** C5, as stated, fails when a byte outside the allowed set comes before
    the incomplete escape: the query ["a b%"] is rejected for its space, with
    an error that does not match [ErrInvalidEscaping]. *)
Lemma incomplete_escape_counterexample :
  incompleteEscape [] = true
  /\ exists e, @validateQuery modelled (str "a b" ++ percentMark :: [])
                 packageLevelDefaults = Some e
               /\ errors_Is e ErrInvalidEscaping = false.
Proof.
  split; [ reflexivity | ]. eexists. split; reflexivity.
Qed.


(** ** DNS labels *)

Lemma splitDots_cons rs : exists l ls, splitDots rs = l :: ls.
Proof.
  destruct rs as [|r rs]; cbn [splitDots]; [ eauto | ].
  destruct (r =? b2z dotSeparator); [ eauto | ].
  destruct (splitDots rs); eauto.
Qed.

Lemma splitDots_app_dot lab rs :
  noDots lab = true ->
  splitDots (lab ++ b2z dotSeparator :: rs) = lab :: splitDots rs.
Proof.
  induction lab as [|r lab IH]; intros Hn; cbn [app splitDots].
  - rewrite Z.eqb_refl. reflexivity.
  - cbn [noDots forallb] in Hn. apply andb_prop in Hn.
    destruct Hn as [Hr Hn]. apply negb_true_iff in Hr. rewrite Hr.
    rewrite (IH Hn). reflexivity.
Qed.

Lemma splitDots_noDots rs : noDots rs = true -> splitDots rs = [rs].
Proof.
  induction rs as [|r rs IH]; intros Hn; cbn [splitDots]; [ reflexivity | ].
  cbn [noDots forallb] in Hn. apply andb_prop in Hn.
  destruct Hn as [Hr Hn]. apply negb_true_iff in Hr. rewrite Hr.
  rewrite (IH Hn). reflexivity.
Qed.

Lemma decodesTo_nil rs : decodesTo [] rs -> rs = [].
Proof. intros [fuel Hf]. destruct fuel; cbn in Hf; congruence. Qed.

(** One scalar of a host that decodes: the bytes it takes and what is
    left. *)
Lemma decodesTo_step s rs :
  s <> [] -> decodesTo s rs ->
  exists r size consumed rest1 r1 rs1,
    utf8.DecodeRuneInString s = (r, size)
    /\ (r =? utf8.RuneError) = false
    /\ s = consumed ++ rest1 /\ 0 < len consumed
    /\ rs = r1 :: rs1 /\ decodesTo rest1 rs1
    /\ ((r <> b2z percentMark /\ r1 = r /\ rest1 = from s size
         /\ len consumed = size)
        \/ (r = b2z percentMark /\ from s size <> []
            /\ exists offset,
                 unescapePercentEncoding (from s size) = (r1, offset, None)
                 /\ rest1 = from (from s size) offset
                 /\ len consumed = size + offset)).
Proof.
  intros Hs [fuel Hf].
  destruct s as [|c0 s0]; [ congruence | ].
  destruct fuel as [|fuel]; [ discriminate Hf | ].
  cbn [hostScalars] in Hf.
  destruct (utf8.DecodeRuneInString (c0 :: s0)) as [r size] eqn:Hd.
  destruct (Z.eqb_spec r utf8.RuneError) as [ | Hr]; [ discriminate Hf | ].
  destruct (DecodeRune_consumed _ _ _ Hd Hr)
    as (c & conts & rest & Hcs & Hsize & _).
  assert (Hfrom : from (c0 :: s0) size = rest)
    by (rewrite Hcs, Hsize; apply from_consumed).
  rewrite Hfrom in *.
  pose proof (len_nonneg conts) as Hlc.
  destruct (Z.eqb_spec r (b2z percentMark)) as [Hp | Hp].
  - destruct rest as [|t1 tl] eqn:Hrest; [ discriminate Hf | ].
    cbn [isEmpty] in Hf. rewrite <- Hrest in *.
    destruct (unescapePercentEncoding rest) as [[u offset] [e|]] eqn:Hu;
      [ discriminate Hf | ].
    destruct (hostScalars fuel (from rest offset)) as [rs1|] eqn:Hrs1;
      [ | discriminate Hf ].
    cbn [option_map] in Hf. inversion Hf; subst rs.
    destruct (unescape_consumed _ _ _ Hu) as (esc & Hesc & Hel & _ & Ho).
    exists r, size, ((c :: conts) ++ esc), (from rest offset), u, rs1.
    repeat split.
    + apply Z.eqb_neq, Hr.
    + rewrite Hcs at 1. rewrite Hesc at 1. cbn [app].
      rewrite <- !app_assoc. reflexivity.
    + exists fuel. exact Hrs1.
    + right. rewrite !Hfrom. split; [ exact Hp | ].
      split; [ rewrite Hrest; discriminate | ].
      exists offset. repeat split; [ exact Hu | ].
      cbn [app]. rewrite len_cons, len_app. lia.
  - destruct (hostScalars fuel rest) as [rs1|] eqn:Hrs1;
      [ | discriminate Hf ].
    cbn [option_map] in Hf. inversion Hf; subst rs.
    exists r, size, (c :: conts), rest, r, rs1.
    repeat split.
    + apply Z.eqb_neq, Hr.
    + rewrite Hcs. reflexivity.
    + exists fuel. exact Hrs1.
    + left. rewrite !Hfrom. repeat split; try assumption.
      rewrite len_cons. lia.
Qed.

Section DNSLabels.
Context `{Extern}.

Lemma isEmpty_false s : s <> [] -> isEmpty s = false.
Proof. destruct s; [ congruence | reflexivity ]. Qed.

Lemma isEmpty_false_inv s : isEmpty s = false -> s <> [].
Proof. destruct s; [ discriminate | discriminate ]. Qed.

Lemma letter_digit_negb r :
  negb (unicode.IsLetter r) && negb (unicode.IsDigit r)
  = negb (letterOrDigit r).
Proof. unfold letterOrDigit. rewrite negb_orb. reflexivity. Qed.

Lemma ldh_negb r :
  negb (unicode.IsLetter r) && negb (unicode.IsDigit r) && negb (r =? 0x2D)
  = negb (letterDigitHyphen r).
Proof. unfold letterDigitHyphen. rewrite !negb_orb. reflexivity. Qed.

(** One turn of the segment loop on a host that decodes. *)
Lemma turn_spec rest offset last rs :
  rest <> [] -> decodesTo rest rs ->
  match validateHostSegment_turn rest offset last with
  | inl (_, _, Some e) => errors_Is e ErrInvalidDNSName = true
  | inl (r', off', None) =>
      r' = b2z dotSeparator /\ letterOrDigit last = true
      /\ exists rs2 pre2 rest2,
           rs = b2z dotSeparator :: rs2 /\ rest = pre2 ++ rest2
           /\ off' = offset + len pre2 /\ rest2 <> []
           /\ decodesTo rest2 rs2
  | inr (rest', off', r) =>
      exists rs1 pre1,
        rs = r :: rs1 /\ r <> b2z dotSeparator
        /\ letterDigitHyphen r = true
        /\ rest = pre1 ++ rest' /\ 0 < len pre1
        /\ off' = offset + len pre1 /\ decodesTo rest' rs1
  end.
Proof.
  intros Hne Hdec.
  destruct (decodesTo_step _ _ Hne Hdec)
    as (r & size & consumed & rest1 & r1 & rs1 & Hd & Hr & Hcons & Hcl
        & Hrs & Hdec1 & Hcase).
  unfold validateHostSegment_turn. rewrite Hd, Hr.
  assert (Hun :
    (if r =? b2z percentMark
     then
       if isEmpty (from rest size)
       then inl (errorsJoin ErrInvalidDNSName errIncompleteEscape)
       else
         match unescapePercentEncoding (from rest size) with
         | (_, _, Some e) =>
             inl (errorsJoin ErrInvalidDNSName
                    (errorsJoin ErrInvalidEscaping e))
         | (unescapedRune, size0, None) =>
             inr (unescapedRune, offset + size + size0,
                  from (from rest size) size0)
         end
     else inr (r, offset + size, from rest size))
    = inr (r1, offset + len consumed, rest1)).
  { destruct Hcase as [(Hp & -> & -> & ->)
                      | (Hp & Hne1 & off & Hu & -> & ->)].
    - apply Z.eqb_neq in Hp. rewrite Hp. reflexivity.
    - subst r. rewrite Z.eqb_refl, (isEmpty_false _ Hne1), Hu.
      rewrite Z.add_assoc. reflexivity. }
  cbv zeta. rewrite Hun. clear Hun Hcase Hd Hr.
  rewrite letter_digit_negb, ldh_negb.
  destruct (Z.eqb_spec r1 (b2z dotSeparator)) as [Hdot | Hdot].
  - destruct (isEmpty rest1) eqn:He; [ reflexivity | ].
    destruct (letterOrDigit last) eqn:Hl; cbn [negb]; [ | reflexivity ].
    split; [ exact Hdot | ]. split; [ reflexivity | ].
    exists rs1, consumed, rest1. subst r1.
    repeat split; try assumption. apply isEmpty_false_inv, He.
  - destruct (maxSegmentLength <? offset + len consumed); [ reflexivity | ].
    destruct (letterDigitHyphen r1) eqn:Hl; cbn [negb]; [ | reflexivity ].
    exists rs1, consumed. repeat split; assumption.
Qed.

Lemma letter_not_dot r : unicode.IsLetter r = true -> r <> b2z dotSeparator.
Proof. intros Hl ->. discriminate Hl. Qed.

Lemma ldh_not_dot r : letterDigitHyphen r = true -> r <> b2z dotSeparator.
Proof. intros Hl ->. discriminate Hl. Qed.

Lemma labelOK_intro first mid :
  unicode.IsLetter first = true -> forallb letterDigitHyphen mid = true ->
  letterOrDigit (last (first :: mid) first) = true ->
  labelOK (first :: mid) = true.
Proof.
  intros Hf Hm Hl. unfold labelOK. rewrite Hf, Hm, Hl. reflexivity.
Qed.

Lemma last_snoc (first : rune) mid r :
  last (first :: mid ++ [r]) first = r.
Proof.
  change (first :: mid ++ [r]) with ((first :: mid) ++ [r]).
  apply last_last.
Qed.

(** The segment loop, from a state that stands for the scalars
    [first :: mid] already read in the label. *)
Lemma segment_loop_spec : forall fuel rest offset first mid lst once rs,
  (List.length rest <= fuel)%nat -> decodesTo rest rs ->
  unicode.IsLetter first = true ->
  forallb letterDigitHyphen mid = true ->
  lst = last (first :: mid) first ->
  once = match mid with [] => false | _ :: _ => true end ->
  match validateHostSegment_loop fuel rest offset lst once with
  | (_, _, Some e) => errors_Is e ErrInvalidDNSName = true
  | (r', off', None) =>
      (r' = b2z dotSeparator
       /\ exists lab rs2 pre2 rest2,
            rs = lab ++ b2z dotSeparator :: rs2 /\ noDots lab = true
            /\ labelOK (first :: mid ++ lab) = true
            /\ rest = pre2 ++ rest2 /\ off' = offset + len pre2
            /\ rest2 <> [] /\ decodesTo rest2 rs2)
      \/ (r' <> b2z dotSeparator /\ noDots rs = true
          /\ labelOK (first :: mid ++ rs) = true)
  end.
Proof.
  assert (Hend : forall offset first mid lst once,
    unicode.IsLetter first = true ->
    forallb letterDigitHyphen mid = true ->
    lst = last (first :: mid) first ->
  once = match mid with [] => false | _ :: _ => true end ->
    match validateHostSegment_end offset lst once with
    | (_, _, Some e) => errors_Is e ErrInvalidDNSName = true
    | (r', off', None) =>
        r' <> b2z dotSeparator /\ labelOK (first :: mid) = true
    end).
  { intros offset first mid lst once Hf Hm -> ->.
    unfold validateHostSegment_end.
    rewrite <- andb_assoc, letter_digit_negb.
    destruct mid as [|m mid'].
    - cbn [andb last]. split; [ apply letter_not_dot, Hf | ].
      apply labelOK_intro; try assumption. cbn [last].
      unfold letterOrDigit. rewrite Hf. reflexivity.
    - cbn [andb].
      destruct (letterOrDigit (last (first :: m :: mid') first)) eqn:Hl;
        cbn [negb]; [ | reflexivity ].
      split; [ | apply labelOK_intro; assumption ].
      intros Hdot. rewrite Hdot in Hl. discriminate Hl. }
  induction fuel as [|fuel IH];
    intros rest offset first mid lst once rs Hfuel Hdec Hf Hm Hl Ho.
  - destruct rest; [ | simpl in Hfuel; lia ].
    apply decodesTo_nil in Hdec. subst rs. cbn [validateHostSegment_loop].
    specialize (Hend offset first mid lst once Hf Hm Hl Ho).
    destruct (validateHostSegment_end offset lst once) as [[r' off'] [e|]];
      [ exact Hend | ].
    right. rewrite app_nil_r. destruct Hend. repeat split; assumption.
  - destruct rest as [|c0 rest0].
    { apply decodesTo_nil in Hdec. subst rs. cbn [validateHostSegment_loop].
      specialize (Hend offset first mid lst once Hf Hm Hl Ho).
      destruct (validateHostSegment_end offset lst once) as [[r' off'] [e|]];
        [ exact Hend | ].
      right. rewrite app_nil_r. destruct Hend. repeat split; assumption. }
    cbn [validateHostSegment_loop].
    pose proof (turn_spec (c0 :: rest0) offset lst rs ltac:(discriminate) Hdec)
      as Hturn.
    destruct (validateHostSegment_turn (c0 :: rest0) offset lst)
      as [[[r' off'] [e|]] | [[rest' off'] r]].
    + exact Hturn.
    + destruct Hturn as (-> & Hlast & rs2 & pre2 & rest2 & -> & Hrest & -> & Hne & Hdec2).
      left. split; [ reflexivity | ].
      exists [], rs2, pre2, rest2. rewrite app_nil_r.
      repeat split; try assumption.
      apply labelOK_intro; try assumption. rewrite <- Hl. exact Hlast.
    + destruct Hturn as (rs1 & pre1 & -> & Hnd & Hldh & Hrest & Hpl & -> & Hdec1).
      assert (Hlen : (List.length rest' <= fuel)%nat).
      { rewrite Hrest in Hfuel. rewrite length_app in Hfuel.
        unfold len in Hpl. lia. }
      specialize (IH rest' (offset + len pre1) first (mid ++ [r]) r true rs1
                    Hlen Hdec1 Hf).
      rewrite forallb_app in IH. cbn [forallb] in IH.
      rewrite Hm, Hldh in IH. specialize (IH eq_refl).
      rewrite last_snoc in IH. specialize (IH eq_refl).
      assert (Hmid : true = match mid ++ [r] with [] => false | _ :: _ => true end)
        by (destruct mid; reflexivity).
      specialize (IH Hmid).
      destruct (validateHostSegment_loop fuel rest' (offset + len pre1) r true)
        as [[r' off''] [e|]]; [ exact IH | ].
      destruct IH as [(-> & lab & rs2 & pre2 & rest2 & -> & Hnl & Hok & -> & -> & Hne & Hdec2)
                     | (Hr' & Hnl & Hok)].
      * left. split; [ reflexivity | ].
        exists (r :: lab), rs2, (pre1 ++ pre2), rest2.
        rewrite <- app_assoc in Hok. cbn [app] in Hok.
        repeat split; try assumption.
        -- cbn [noDots forallb]. fold (noDots lab). rewrite Hnl.
           apply Z.eqb_neq in Hnd. rewrite Hnd. reflexivity.
        -- rewrite Hrest, app_assoc. reflexivity.
        -- rewrite len_app. lia.
      * right. rewrite <- app_assoc in Hok. cbn [app] in Hok.
        repeat split; try assumption.
        cbn [noDots forallb]. fold (noDots rs1). rewrite Hnl.
        apply Z.eqb_neq in Hnd. rewrite Hnd. reflexivity.
Qed.


Lemma from_nonempty_lt s i : 0 <= i -> from s i <> [] -> i < len s.
Proof.
  intros Hi Hne. destruct (Z.lt_ge_cases i (len s)) as [Hlt | Hge];
    [ exact Hlt | ].
  exfalso. apply Hne. unfold from. apply skipn_all2. unfold len in Hge. lia.
Qed.

(** A whole segment of a host that decodes. *)
Lemma segment_spec s rs :
  s <> [] -> decodesTo s rs ->
  match validateHostSegment s with
  | (_, _, Some e) => errors_Is e ErrInvalidDNSName = true
  | (r', off', None) =>
      (r' = b2z dotSeparator
       /\ exists lab rs2,
            rs = lab ++ b2z dotSeparator :: rs2 /\ noDots lab = true
            /\ labelOK lab = true /\ from s off' <> []
            /\ decodesTo (from s off') rs2
            /\ (List.length (from s off') < List.length s)%nat)
      \/ (r' <> b2z dotSeparator /\ noDots rs = true /\ labelOK rs = true)
  end.
Proof.
  intros Hne Hdec.
  destruct (decodesTo_step _ _ Hne Hdec)
    as (r & size & consumed & rest1 & r1 & rs1 & Hd & Hr & Hcons & Hcl
        & Hrs & Hdec1 & Hcase).
  assert (Hfirst :
    match validateFirstRuneInSegment s with
    | (_, _, Some e) => errors_Is e ErrInvalidDNSName = true
    | (r', off', None) =>
        r' = r1 /\ off' = len consumed /\ unicode.IsLetter r1 = true
    end).
  { unfold validateFirstRuneInSegment. rewrite Hd, Hr.
    destruct (r =? b2z dotSeparator); [ reflexivity | ].
    destruct Hcase as [(Hp & -> & -> & ->)
                      | (Hp & Hne1 & off & Hu & -> & ->)].
    - apply Z.eqb_neq in Hp. rewrite Hp.
      destruct (unicode.IsLetter r) eqn:Hl; cbn [negb];
        [ auto | reflexivity ].
    - subst r. rewrite Z.eqb_refl.
      assert (Hsz : 0 <= size).
      { pose proof (len_nonneg consumed).
        destruct (unescape_consumed _ _ _ Hu) as (_ & _ & _ & _ & Ho).
        destruct (Z.lt_ge_cases size 0) as [Hneg | ]; [ | assumption ].
        exfalso. apply Hne1.
        unfold from in *. replace (Z.to_nat size) with 0%nat in * by lia.
        cbn [skipn] in *.
        destruct (utf8.DecodeRuneInString s) as [r' size'] eqn:Hd'.
        assert (Hr' : r' <> utf8.RuneError)
          by (inversion Hd; subst; cbv; congruence).
        destruct (DecodeRune_consumed _ _ _ Hd' Hr')
          as (? & cs & ? & _ & Hsize' & _).
        pose proof (len_nonneg cs). inversion Hd; subst. lia. }
      pose proof (from_nonempty_lt s size Hsz Hne1) as Hlt.
      destruct (Z.leb_spec (len s) size); [ lia | ].
      rewrite Hu.
      destruct (unicode.IsLetter r1) eqn:Hl; cbn [negb];
        [ auto | reflexivity ]. }
  unfold validateHostSegment.
  destruct (validateFirstRuneInSegment s) as [[r' off'] [e|]];
    [ exact Hfirst | ].
  destruct Hfirst as (-> & -> & Hl).
  assert (Hfrom : from s (len consumed) = rest1).
  { rewrite Hcons. apply from_app_len. }
  rewrite Hfrom.
  assert (Hlen : (List.length rest1 <= List.length s)%nat).
  { rewrite Hcons, length_app. lia. }
  pose proof (segment_loop_spec (List.length s) rest1 (len consumed) r1 []
                r1 false rs1 Hlen Hdec1 Hl eq_refl eq_refl eq_refl) as Hloop.
  destruct (validateHostSegment_loop (List.length s) rest1 (len consumed)
              r1 false) as [[r' off'] [e|]]; [ exact Hloop | ].
  subst rs. cbn [app] in Hloop.
  pose proof (letter_not_dot _ Hl) as Hnd. apply Z.eqb_neq in Hnd.
  destruct Hloop as [(-> & lab & rs2 & pre2 & rest2 & -> & Hnl & Hok & -> & -> & Hne2 & Hdec2)
                    | (Hr' & Hnl & Hok)].
  - left. split; [ reflexivity | ].
    exists (r1 :: lab), rs2.
    assert (Hfrom2 : from s (len consumed + len pre2) = rest2).
    { rewrite Hcons, app_assoc, <- len_app. apply from_app_len. }
    rewrite Hfrom2. repeat split; try assumption.
    + cbn [noDots forallb]. fold (noDots lab). rewrite Hnl, Hnd. reflexivity.
    + rewrite Hcons, !length_app. unfold len in Hcl. lia.
  - right. repeat split; try assumption.
    cbn [noDots forallb]. fold (noDots rs1). rewrite Hnl, Hnd. reflexivity.
Qed.

(** The labels of an accepted host all obey the rule, and every error is
    an [ErrInvalidDNSName]. *)
Lemma host_loop_spec : forall fuel rest rs,
  (List.length rest <= fuel)%nat -> rest <> [] -> decodesTo rest rs ->
  match validateDNSHost_loop fuel rest with
  | Some e => errors_Is e ErrInvalidDNSName = true
  | None => forallb labelOK (splitDots rs) = true
  end.
Proof.
  induction fuel as [|fuel IH]; intros rest rs Hfuel Hne Hdec.
  { destruct rest; [ congruence | simpl in Hfuel; lia ]. }
  destruct rest as [|c0 rest0]; [ congruence | ].
  cbn [validateDNSHost_loop].
  pose proof (segment_spec (c0 :: rest0) rs Hne Hdec) as Hseg.
  destruct (validateHostSegment (c0 :: rest0)) as [[r' off'] [e|]];
    [ exact Hseg | ].
  destruct Hseg as [(-> & lab & rs2 & -> & Hnl & Hok & Hne2 & Hdec2 & Hlt)
                   | (Hr' & Hnl & Hok)].
  - rewrite Z.eqb_refl. cbn [negb].
    assert (Hlen : (List.length (from (c0 :: rest0) off') <= fuel)%nat) by lia.
    specialize (IH _ _ Hlen Hne2 Hdec2).
    destruct (validateDNSHost_loop fuel (from (c0 :: rest0) off'));
      [ exact IH | ].
    rewrite splitDots_app_dot by assumption. cbn [forallb].
    rewrite Hok, IH. reflexivity.
  - apply Z.eqb_neq in Hr'. rewrite Hr'. cbn [negb].
    rewrite splitDots_noDots by assumption. cbn [forallb].
    rewrite Hok. reflexivity.
Qed.

(** C7, as amended: in a host that decodes, every label (the scalars
    between dots, after percent-decoding) must start with a letter, go on
    with letters, digits or ['-'] and end with a letter or a digit, where
    a letter is any Unicode letter ([unicode.IsLetter]), not only an ASCII one,
    and a digit any Unicode decimal digit; when some label breaks the rule,
    [validateDNSHostForScheme] fails with an error that matches
    [ErrInvalidDNSName]. *)
Theorem dns_label_rule (host : gostring) (rs : list rune) :
  decodesTo host rs ->
  (exists l, In l (splitDots rs) /\ labelOK l = false) ->
  exists e, validateDNSHostForScheme host = Some e
            /\ errors_Is e ErrInvalidDNSName = true.
Proof.
  intros Hdec (l & Hin & Hbad). unfold validateDNSHostForScheme.
  destruct (maxDomainLength <? len host); [ eexists; split; reflexivity | ].
  destruct (Z.eqb_spec (len host) 0) as [Hz | Hz];
    [ eexists; split; reflexivity | ].
  assert (Hne : host <> []) by (intros ->; apply Hz; reflexivity).
  pose proof (host_loop_spec (List.length host) host rs (le_n _) Hne Hdec)
    as Hloop.
  destruct (validateDNSHost_loop (List.length host) host) as [e|].
  - exists e. split; [ reflexivity | exact Hloop ].
  - rewrite forallb_forall in Hloop. rewrite (Hloop l Hin) in Hbad.
    discriminate Hbad.
Qed.

End DNSLabels.

Lemma dns_label_rule_witness :
  decodesTo (str "ab.c%2D.d") [0x61; 0x62; 0x2E; 0x63; 0x2D; 0x2E; 0x64]
  /\ exists e, @validateDNSHostForScheme modelled (str "ab.c%2D.d") = Some e
               /\ errors_Is e ErrInvalidDNSName = true.
Proof.
  assert (Hdec : decodesTo (str "ab.c%2D.d")
                   [0x61; 0x62; 0x2E; 0x63; 0x2D; 0x2E; 0x64])
    by (exists 9%nat; reflexivity).
  split; [ exact Hdec | ].
  apply (@dns_label_rule modelled _ _ Hdec).
  exists [0x63; 0x2D]. split; [ | reflexivity ].
  cbn. tauto.
Defined.

(** C7, as stated, fails on its first clause: the label ["é"] (the bytes
    [C3 A9]) does not start with an ASCII letter, yet the DNS validator
    accepts it, and so does [Parse] under a DNS scheme. *)
Lemma dns_first_scalar_counterexample :
  let e_acute := [ascii_of_nat 195; ascii_of_nat 169] in
  decodesTo e_acute [0xE9]
  /\ @labelOK_ascii modelled [0xE9] = false
  /\ @validateDNSHostForScheme modelled e_acute = None
  /\ snd (@Parse modelled (str "http://" ++ e_acute ++ str ".com") []) = None.
Proof.
  cbv zeta. split; [ exists 2%nat; reflexivity | ]. repeat split.
Qed.

(** * Further properties of the code *)


(** ** URI references *)

Section References.
Context `{Extern}.

Lemma validated_options u o o' :
  validationFlags o' = validationFlags o -> validated u o' = validated u o.
Proof. destruct o, o'. simpl. intros ->. reflexivity. Qed.

Lemma parse_hier_options raw o o' sch sE hE qE :
  validationFlags o' = validationFlags o ->
  parse_hier raw o' sch sE hE qE = parse_hier raw o sch sE hE qE.
Proof. destruct o, o'. simpl. intros ->. reflexivity. Qed.

Lemma parse_reference_mode raw o o' :
  validationFlags o' = validationFlags o ->
  withURIReference o' = true ->
  parse raw o' = parse raw o \/ snd (parse raw o) = Some errNoScheme.
Proof.
  intros Hf Hr. unfold parse. rewrite Hr. cbn [negb].
  rewrite !(parse_hier_options raw o o') by exact Hf.
  rewrite !(validated_options _ o o') by exact Hf.
  destruct (withURIReference o); cbn [negb];
    repeat match goal with
           | |- context [if ?b then _ else _] => destruct b
           end;
    first [ left; reflexivity | right; reflexivity ].
Qed.

(** [ParseReference] is [Parse] with the option [WithReference(true)], as
    its documentation says, and it extends [Parse]: without options, the
    two return the same value and error on every input, except where
    [Parse] stops for a missing scheme. *)
Theorem ParseReference_extends_Parse (raw : gostring) :
  (forall opts, ParseReference raw opts = Parse raw (WithReference true :: opts))
  /\ (ParseReference raw [] = Parse raw []
      \/ snd (Parse raw []) = Some errNoScheme)
  /\ (IsURI raw [] = true -> IsURIReference raw [] = true).
Proof.
  split; [ | split ].
  - intros opts. unfold ParseReference, Parse. f_equal.
    destruct opts; reflexivity.
  - apply parse_reference_mode; reflexivity.
  - unfold IsURI, IsURIReference.
    destruct (parse_reference_mode raw packageLevelDefaults
                packageLevelReferenceDefaults eq_refl eq_refl) as [Heq | Hno].
    + unfold ParseReference, Parse. cbn [applyURIReferenceOptions applyURIOptions].
      rewrite Heq. tauto.
    + unfold Parse. cbn [applyURIOptions]. rewrite Hno. discriminate.
Qed.

End References.

(** ** Builders on a value without hier-part *)

Section BuildersNoHier.
Context `{Extern}.

Lemma builderOptions_flags opts flags :
  validationFlags (builderOptions opts flags) = flags.
Proof.
  unfold builderOptions, applyURIOptions.
  destruct (opts ++ [withValidationFlags flags]) as [|x l] eqn:Heq.
  - destruct opts; discriminate Heq.
  - rewrite <- Heq, fold_left_app. reflexivity.
Qed.

Lemma validate_without_hier u o :
  hierPart u = [] ->
  flagSet o flagValidateScheme = false ->
  flagSet o flagValidateQuery = false ->
  flagSet o flagValidateFragment = false ->
  validate u o = (noIP, None).
Proof.
  intros Hh Hs Hq Hf. unfold validate.
  rewrite Hs, Hq, Hf, Hh, !andb_false_r. reflexivity.
Qed.

Lemma validated_without_hier u o :
  hierPart u = [] ->
  flagSet o flagValidateScheme = false ->
  flagSet o flagValidateQuery = false ->
  flagSet o flagValidateFragment = false ->
  validated u o = setErr (setAuthority u (setIP (authority u) noIP)) None.
Proof.
  intros Hh Hs Hq Hf. unfold validated.
  rewrite (validate_without_hier u o Hh Hs Hq Hf). reflexivity.
Qed.

(** The builders that set a part of the authority validate nothing on a
    value whose hier-part is empty (as after parsing ["scheme:"]):
    [validate] only looks at the authority when [u.hierPart] is not empty,
    and the builders leave that field as it is. Whatever the new userinfo,
    host, port or path, the result carries no error and holds the new
    value. *)
Theorem builders_do_not_validate_without_hier_part (u : URI) :
  Err u = None -> hierPart u = [] ->
  forall (s : gostring) (opts : list Option),
    (Err (WithUserInfo u s opts) = None
     /\ userinfo (authority (WithUserInfo u s opts)) = s)
    /\ (Err (WithHost u s opts) = None
        /\ host (authority (WithHost u s opts)) = s)
    /\ (Err (WithPort u s opts) = None
        /\ port (authority (WithPort u s opts)) = s)
    /\ (Err (WithPath u s opts) = None
        /\ path (authority (WithPath u s opts)) = s).
Proof.
  intros He Hh s opts.
  unfold WithUserInfo, WithHost, WithPort, WithPath. rewrite He.
  cbv zeta.
  repeat split.
  all: rewrite validated_without_hier;
    [ reflexivity
    | assumption
    | unfold flagSet; rewrite builderOptions_flags; reflexivity .. ].
Qed.

End BuildersNoHier.

Lemma builders_do_not_validate_without_hier_part_witness :
  let u := fst (@Parse modelled (str "http:") []) in
  Err u = None /\ hierPart u = []
  /\ Err (@WithPort modelled u (str "X8080") []) = None.
Proof.
  assert (He : Err (fst (@Parse modelled (str "http:") [])) = None)
    by (vm_compute; reflexivity).
  assert (Hh : hierPart (fst (@Parse modelled (str "http:") [])) = [])
    by (vm_compute; reflexivity).
  split; [ exact He | split; [ exact Hh | ] ].
  exact (proj1 (proj1 (proj2 (proj2
           (@builders_do_not_validate_without_hier_part modelled _ He Hh
              (str "X8080") []))))).
Defined.

(** ** The validator of unreserved characters *)

Section Unreserved.
Context `{Extern}.

Lemma existsb_incl (r : rune) (A B : list rune) :
  incl A B -> existsb (Z.eqb r) A = true -> existsb (Z.eqb r) B = true.
Proof.
  intros Hi Ha. apply existsb_exists in Ha. destruct Ha as (x & Hx & Hr).
  apply existsb_exists. exists x. split; [ apply Hi, Hx | exact Hr ].
Qed.

Lemma loop_incl (A B : list rune) : incl A B -> forall fuel s,
  validateUnreservedWithExtra_loop fuel s A = None ->
  validateUnreservedWithExtra_loop fuel s B = None.
Proof.
  intros Hi. induction fuel as [|fuel IH]; intros s.
  - destruct s; reflexivity.
  - destruct s as [|c s']; [ reflexivity | ].
    cbn [validateUnreservedWithExtra_loop].
    destruct (utf8.DecodeRuneInString (c :: s')) as [r size].
    destruct (r =? utf8.RuneError); [ discriminate | ].
    destruct (r =? b2z percentMark).
    + destruct (isEmpty (from (c :: s') size)); [ discriminate | ].
      destruct (unescapePercentEncoding (from (c :: s') size))
        as [[u off] [e|]]; [ discriminate | ].
      apply IH.
    + destruct (notUnreservedOrSubDelims r); cbn [andb].
      * destruct (existsb (Z.eqb r) A) eqn:Ha; cbn [negb]; [ | discriminate ].
        rewrite (existsb_incl r A B Hi Ha). cbn [negb]. apply IH.
      * apply IH.
Qed.

(** An accepted prefix is skipped. *)
Lemma accepted_then acc s t :
  validateUnreservedWithExtra s acc = None ->
  validateUnreservedWithExtra (s ++ t) acc = validateUnreservedWithExtra t acc.
Proof.
  unfold validateUnreservedWithExtra. intros Hs.
  apply loop_app; [ apply Nat.le_refl | ].
  rewrite (loop_fuel acc _ (List.length s) s); [ exact Hs | | apply Nat.le_refl ].
  rewrite length_app. lia.
Qed.

(** What [validateUnreservedWithExtra] accepts with a set of extra runes,
    it accepts with any larger set: a valid registered name (no extra) is
    a valid path segment, userinfo, query and fragment, and a valid path
    segment is a valid query and fragment. *)
Theorem validateUnreservedWithExtra_monotone (s : gostring)
  (A B : list rune) :
  incl A B ->
  validateUnreservedWithExtra s A = None ->
  validateUnreservedWithExtra s B = None.
Proof. intros Hi. apply loop_incl, Hi. Qed.

(** An accepted prefix does not change the verdict on what follows: when
    [s] is accepted, [s ++ t] is validated as [t] is, with the same
    error if any. In particular the concatenation of two accepted strings
    is accepted. *)
Theorem validateUnreservedWithExtra_app (s t : gostring) (A : list rune) :
  validateUnreservedWithExtra s A = None ->
  validateUnreservedWithExtra (s ++ t) A = validateUnreservedWithExtra t A.
Proof. apply accepted_then. Qed.

End Unreserved.

Lemma validateUnreservedWithExtra_monotone_witness :
  @validateUnreservedWithExtra modelled (str "a%2Fb~c") pcharExtraRunes = None.
Proof.
  apply (@validateUnreservedWithExtra_monotone modelled (str "a%2Fb~c") []
           pcharExtraRunes).
  - intros x Hx. contradiction Hx.
  - vm_compute. reflexivity.
Defined.

Lemma validateUnreservedWithExtra_app_witness :
  @validateUnreservedWithExtra modelled (str "a%2Fb" ++ str "c d") [] 
  = @validateUnreservedWithExtra modelled (str "c d") [].
Proof.
  apply (@validateUnreservedWithExtra_app modelled (str "a%2Fb") (str "c d") []).
  vm_compute. reflexivity.
Defined.

(** ** The scheme *)

Section Scheme.
Context `{Extern}.

Lemma validateScheme_loop_bytes rest :
  forallb schemeByte rest = true ->
  (fix loop (rest : gostring) : option error :=
     match rest with
     | [] => None
     | c :: rest =>
         let c := b2z c in
         if isDigit c then loop rest
         else if isASCIILetter c then loop rest
         else if (c =? 0x2B) || (c =? 0x2D) || (c =? 0x2E) then loop rest
         else Some (errorsJoin ErrInvalidScheme
                      (Errorf "invalid character found in scheme"))
     end) rest = None.
Proof.
  induction rest as [|c rest IH]; [ reflexivity | ].
  cbn [forallb]. intros Hb. apply andb_prop in Hb. destruct Hb as [Hc Hr].
  cbv zeta. unfold schemeByte in Hc.
  destruct (isDigit (b2z c)); [ apply IH, Hr | ].
  destruct (isASCIILetter (b2z c)); [ apply IH, Hr | ].
  cbn [orb] in Hc. rewrite Hc. apply IH, Hr.
Qed.

Lemma validateScheme_loop_kind rest e :
  (fix loop (rest : gostring) : option error :=
     match rest with
     | [] => None
     | c :: rest =>
         let c := b2z c in
         if isDigit c then loop rest
         else if isASCIILetter c then loop rest
         else if (c =? 0x2B) || (c =? 0x2D) || (c =? 0x2E) then loop rest
         else Some (errorsJoin ErrInvalidScheme
                      (Errorf "invalid character found in scheme"))
     end) rest = Some e ->
  errors_Is e ErrInvalidScheme = true.
Proof.
  induction rest as [|c rest IH]; [ discriminate | ].
  cbv zeta.
  destruct (isDigit (b2z c)); [ exact IH | ].
  destruct (isASCIILetter (b2z c)); [ exact IH | ].
  destruct ((b2z c =? 0x2B) || (b2z c =? 0x2D) || (b2z c =? 0x2E));
    [ exact IH | ].
  intros [= <-]. reflexivity.
Qed.

(** [validateScheme] accepts exactly the schemes of at least two bytes made
    of an ASCII letter followed by ASCII letters, digits, ['+'], ['-'] and
    ['.'], and every rejection matches [ErrInvalidScheme]. *)
Theorem validateScheme_accepts_grammar (sch : gostring) (o : options) :
  (validateScheme sch o = None <-> schemeGrammar sch = true)
  /\ (forall e, validateScheme sch o = Some e ->
                errors_Is e ErrInvalidScheme = true).
Proof.
  split; [ split | ].
  - intros Hv. apply validateScheme_bytes in Hv.
    destruct Hv as (c & rest & -> & Hc & Hne & Hb).
    destruct rest as [|d rest]; [ contradiction Hne; reflexivity | ].
    cbn [schemeGrammar]. rewrite Hc. exact Hb.
  - destruct sch as [|c [|d rest]]; try discriminate.
    cbn [schemeGrammar]. intros Hg. apply andb_prop in Hg.
    destruct Hg as [Hc Hb]. unfold validateScheme.
    rewrite !len_cons. pose proof (len_nonneg rest).
    destruct (Z.ltb_spec (len rest + 1 + 1) 2); [ lia | ].
    change (at_ (c :: d :: rest) 0) with c. rewrite Hc. cbn [negb].
    change (from (c :: d :: rest) 1) with (d :: rest).
    apply validateScheme_loop_bytes, Hb.
  - intros e. unfold validateScheme.
    destruct (len sch <? 2); [ intros [= <-]; reflexivity | ].
    destruct (negb (isASCIILetter (b2z (at_ sch 0))));
      [ intros [= <-]; reflexivity | ].
    apply validateScheme_loop_kind.
Qed.

End Scheme.

(** ** Bounds *)



Lemma buildString_app a buf : buildString a buf = buf ++ buildString a [].
Proof.
  unfold buildString, strings.WriteString, strings.WriteByte.
  repeat match goal with
         | |- context [if ?b then _ else _] => destruct b
         end; cbn [app]; rewrite <- ?app_assoc; reflexivity.
Qed.

Lemma len_Authority_String a :
  len (Authority_String a)
  = len (prefix a) + len (userinfo a)
    + (if isEmpty (userinfo a) then 0 else 1)
    + len (host a) + (if isIPv6 (ip a) then 2 else 0)
    + (if isEmpty (port a) then 0 else 1) + len (port a) + len (path a).
Proof.
  unfold Authority_String, buildString, strings.WriteString, strings.WriteByte.
  rewrite !len_pos_isEmpty.
  destruct (isEmpty (userinfo a)); destruct (isIPv6 (ip a));
    destruct (isEmpty (port a)); cbn [negb app];
    rewrite ?len_app, ?len_cons, ?len_nil;
    change (len (str "[")) with 1; change (len (str "]")) with 1;
    rewrite ?len_app; change (len (str "]")) with 1; lia.
Qed.

(** The capacity reserved by [String] with [buf.Grow] is never exceeded:
    the rendering of the authority is at most [builderSize] bytes long and
    the rendering of the URI at most the size grown for, so that the
    builder never reallocates. *)
Theorem String_fits_reserved_capacity (u : URI) :
  len (Authority_String (authority u)) <= builderSize (authority u)
  /\ len (String u) <= stringCapacity u.
Proof.
  assert (Ha : len (Authority_String (authority u))
               <= builderSize (authority u)).
  { rewrite len_Authority_String. unfold builderSize.
    destruct (isEmpty (userinfo (authority u)));
      destruct (isIPv6 (ip (authority u)));
      destruct (isEmpty (port (authority u))); lia. }
  split; [ exact Ha | ].
  unfold String, stringCapacity, strings.WriteString, strings.WriteByte.
  pose proof (len_nonneg (scheme u)). pose proof (len_nonneg (query u)).
  pose proof (len_nonneg (fragment u)).
  fold (Authority_String (authority u)) in *.
  rewrite buildString_app. fold (Authority_String (authority u)).
  destruct (0 <? len (scheme u)); destruct (0 <? len (query u));
    destruct (0 <? len (fragment u));
    rewrite ?len_app, ?len_cons, ?len_nil; lia.
Qed.

(** ** The kinds of the errors *)

Section Kinds.
Context `{Extern}.

Lemma parse_hier_shape raw o sch sE hE qE :
  (exists e, parse_hier raw o sch sE hE qE = failed e
             /\ errors_Is e ErrInvalidURI = true)
  \/ (exists u0, parse_hier raw o sch sE hE qE = finish u0 o).
Proof.
  unfold parse_hier.
  repeat match goal with
         | |- (exists e, failed ?x = failed e /\ _) \/ _ =>
             left; exists x; split; reflexivity
         | |- _ \/ (exists u0, finish ?x _ = finish u0 _) =>
             right; exists x; reflexivity
         | |- context [if ?b then _ else _] => destruct b
         | |- context [match ?x with _ => _ end] => destruct x
         end.
Qed.

Lemma parse_shape raw o :
  (exists e, parse raw o = failed e /\ structural e = true)
  \/ (exists u0, parse raw o = finish u0 o)
  \/ (exists u0, parse raw o = (validated u0 o, err (validated u0 o))).
Proof.
  unfold parse.
  repeat match goal with
         | |- (exists e, failed ?x = failed e /\ _) \/ _ =>
             left; exists x; split; reflexivity
         | |- _ \/ _ \/ (exists u0, (validated ?x _, _) = _) =>
             right; right; exists x; reflexivity
         | |- context [parse_hier ?r ?o ?s ?a ?b ?c] =>
             destruct (parse_hier_shape r o s a b c) as [(e & -> & He) | (u0 & ->)];
             [ left; exists e; split; [ reflexivity | unfold structural; rewrite He; reflexivity ]
             | right; left; exists u0; reflexivity ]
         | |- context [if ?b then _ else _] => destruct b
         end.
Qed.

Lemma validatePath_loop_kind p items : forall prev e,
  validatePath_loop p items prev = inl e -> errors_Is e ErrInvalidPath = true.
Proof.
  induction items as [|[pos char] items IH]; intros prev e.
  - discriminate.
  - cbn [validatePath_loop].
    destruct (negb (char =? b2z slashMark)); [ apply IH | ].
    destruct (if prev <? pos then _ else _) as [err|];
      [ intros [= <-]; reflexivity | apply IH ].
Qed.

Lemma validatePath_kind a p o e :
  validatePath a p o = Some e -> errors_Is e ErrInvalidPath = true.
Proof.
  unfold validatePath.
  destruct (_ && _); [ intros [= <-]; reflexivity | ].
  destruct (validatePath_loop p (rangeString p) 0) as [err | prev] eqn:Hl.
  - intros [= <-]. eapply validatePath_loop_kind, Hl.
  - destruct (prev <? len p); [ | discriminate ].
    destruct (validateUnreservedWithExtra _ _); [ | discriminate ].
    intros [= <-]. reflexivity.
Qed.

Lemma validateHost_kind h v6 sch o t e :
  validateHost h v6 sch o = (t, Some e) ->
  errors_Is e ErrInvalidHost = true
  \/ errors_Is e ErrInvalidHostAddress = true
  \/ validateIPv6 h = Some e.
Proof.
  unfold validateHost. destruct v6.
  - destruct (_ || _).
    + destruct (validateIPvFuture _); [ | discriminate ].
      intros [= _ <-]. right; left; reflexivity.
    + intros [= _ ->]. right; right; reflexivity.
  - destruct (validateIPv4 h); [ | discriminate ].
    destruct (validateHostForScheme h sch o); [ | discriminate ].
    intros [= _ <-]. left; reflexivity.
Qed.

Lemma validatePort_kind p h o e :
  validatePort p h o = Some e ->
  errors_Is e ErrInvalidPort = true \/ errors_Is e ErrMissingHost = true.
Proof.
  unfold validatePort.
  destruct (negb (isNumerical p)); [ intros [= <-]; left; reflexivity | ].
  destruct (isEmpty h); [ intros [= <-]; right; reflexivity | ].
  cbv zeta. destruct (maxPort <? _); [ | discriminate ].
  intros [= <-]; left; reflexivity.
Qed.

Lemma classified_intro e k :
  In k partKinds -> errors_Is e k = true -> classified e = true.
Proof.
  intros Hk He. apply existsb_exists. exists k. split; assumption.
Qed.

Ltac kind k := left; apply (classified_intro _ k); [ cbn; tauto | ].

Lemma guarded_some {A} (b : bool) (x : option A) e :
  (if b then x else None) = Some e -> x = Some e.
Proof. destruct b; [ tauto | discriminate ]. Qed.

Lemma guarded_pair {A B} (b : bool) (x : A * option B) a0 t e :
  (if b then x else (a0, None)) = (t, Some e) -> x = (t, Some e).
Proof. destruct b; [ tauto | discriminate ]. Qed.

Lemma validateForScheme_kinds a sch o t e :
  validateForScheme a sch o = (t, Some e) ->
  classified e = true \/ exists h, validateIPv6 h = Some e.
Proof.
  unfold validateForScheme. cbv zeta.
  destruct (if _ && flagSet o flagValidatePath then _ else _) as [ep|] eqn:Hp.
  { intros [= _ <-]. apply guarded_some in Hp.
    kind ErrInvalidPath. eapply validatePath_kind, Hp. }
  destruct (if _ && flagSet o flagValidateHost then _ else _)
    as [ip1 [eh|]] eqn:Hh.
  { intros [= _ <-]. apply guarded_pair in Hh.
    apply validateHost_kind in Hh.
    destruct Hh as [Hk | [Hk | Hk]];
      [ kind ErrInvalidHost; exact Hk
      | kind ErrInvalidHostAddress; exact Hk
      | right; eexists; exact Hk ]. }
  destruct (if _ && flagSet o flagValidatePort then _ else _) as [ep|] eqn:Hpt.
  { intros [= _ <-]. apply guarded_some in Hpt.
    apply validatePort_kind in Hpt.
    destruct Hpt as [Hk | Hk];
      [ kind ErrInvalidPort; exact Hk | kind ErrMissingHost; exact Hk ]. }
  destruct (if _ && flagSet o flagValidateUserInfo then _ else _)
    as [eu|] eqn:Hu; [ | discriminate ].
  intros [= _ <-]. apply guarded_some in Hu.
  unfold validateUserInfo in Hu.
  destruct (validateUnreservedWithExtra _ _); [ | discriminate ].
  injection Hu as <-. kind ErrInvalidUserInfo. reflexivity.
Qed.

Lemma validate_kinds u o e :
  snd (validate u o) = Some e ->
  classified e = true \/ exists h, validateIPv6 h = Some e.
Proof.
  unfold validate.
  destruct (if _ && flagSet o flagValidateScheme then _ else _) as [es|] eqn:Hs.
  { cbn [snd]. intros [= <-]. apply guarded_some in Hs.
    kind ErrInvalidScheme.
    revert Hs. unfold validateScheme.
    destruct (len (scheme u) <? 2); [ intros [= <-]; reflexivity | ].
    destruct (negb _); [ intros [= <-]; reflexivity | ].
    generalize (from (scheme u) 1). intros rest.
    induction rest as [|c rest IH]; [ discriminate | ].
    cbv zeta.
    destruct (isDigit (b2z c)); [ exact IH | ].
    destruct (isASCIILetter (b2z c)); [ exact IH | ].
    destruct (_ || _); [ exact IH | ].
    intros [= <-]. reflexivity. }
  destruct (if _ && flagSet o flagValidateQuery then _ else _) as [eq|] eqn:Hq.
  { cbn [snd]. intros [= <-]. apply guarded_some in Hq.
    unfold validateQuery in Hq.
    destruct (validateUnreservedWithExtra _ _); [ | discriminate ].
    injection Hq as <-. kind ErrInvalidQuery. reflexivity. }
  destruct (if _ && flagSet o flagValidateFragment then _ else _)
    as [ef|] eqn:Hf.
  { cbn [snd]. intros [= <-]. apply guarded_some in Hf.
    unfold validateFragment in Hf.
    destruct (validateUnreservedWithExtra _ _); [ | discriminate ].
    injection Hf as <-. kind ErrInvalidFragment. reflexivity. }
  destruct (negb (isEmpty (hierPart u))); [ | discriminate ].
  destruct (validateForScheme (authority u) (scheme u) o) as [t e'] eqn:Hv.
  cbn [snd]. intros ->. eapply validateForScheme_kinds, Hv.
Qed.

(** Every error returned by [parse] (hence by [Parse] and
    [ParseReference], with any options) matches at least one of the
    sentinel errors that name a part of the URI; the only exception is an
    error of [validateIPv6], which [validateHost] returns as it gets
    it. *)
Theorem errors_name_the_part_at_fault (raw : gostring) (o : options)
  (u : URI) (e : error) :
  parse raw o = (u, Some e) ->
  classified e = true \/ exists h, validateIPv6 h = Some e.
Proof.
  intros Hp.
  destruct (parse_shape raw o)
    as [(e0 & Hf & Hs) | [(u0 & Hf) | (u0 & Hf)]];
    rewrite Hf in Hp.
  - injection Hp as _ <-. left. unfold structural in Hs.
    apply orb_prop in Hs. destruct Hs as [Hs | Hs];
      [ apply orb_prop in Hs; destruct Hs as [Hs | Hs] | ].
    + apply (classified_intro _ ErrInvalidURI); [ cbn; tauto | exact Hs ].
    + apply (classified_intro _ ErrNoSchemeFound); [ cbn; tauto | exact Hs ].
    + apply (classified_intro _ ErrInvalidScheme); [ cbn; tauto | exact Hs ].
  - apply validate_kinds with (u := u0) (o := o).
    rewrite <- finish_snd, Hp. reflexivity.
  - apply validate_kinds with (u := u0) (o := o).
    rewrite <- validated_err. injection Hp as _ ->. reflexivity.
Qed.

End Kinds.

Lemma errors_name_the_part_at_fault_witness :
  exists e, snd (@parse modelled (str "http://host:80a/") packageLevelDefaults)
            = Some e
            /\ classified e = true.
Proof.
  destruct (@parse modelled (str "http://host:80a/") packageLevelDefaults)
    as [u [e|]] eqn:Hp.
  - exists e. split; [ reflexivity | ].
    destruct (@errors_name_the_part_at_fault modelled _ _ _ _ Hp)
      as [Hc | (h & Hh)]; [ exact Hc | ].
    vm_compute in Hp. injection Hp as _ <-. reflexivity.
  - vm_compute in Hp. discriminate Hp.
Defined.

(** ** What the percent-decoder accepts *)

Lemma hexByte_range h1 h2 b : hexByte h1 h2 = Some b -> 0 <= b < 256.
Proof.
  unfold hexByte. destruct (_ && _); [ | discriminate ].
  intros Hb.
  assert (Hv : b = 16 * unhex (b2z h1) + unhex (b2z h2)).
  { symmetry. exact (f_equal (fun o => match o with Some x => x | None => 0 end) Hb). }
  pose proof (unhex_range (b2z h1)). pose proof (unhex_range (b2z h2)). lia.
Qed.

Lemma unescapeSequence_inv s b :
  unescapeSequence s = (b, None) ->
  exists h1 h2 t, s = h1 :: h2 :: t /\ hexByte h1 h2 = Some b.
Proof.
  intros Hu.
  destruct (unescapeSequence_ok s b Hu) as (h1 & h2 & t & -> & H1 & H2).
  exists h1, h2, t. split; [ reflexivity | ].
  assert (Hh : hexByte h1 h2 = Some (16 * unhex (b2z h1) + unhex (b2z h2))).
  { unfold hexByte. rewrite H1, H2. reflexivity. }
  rewrite (unescapeSequence_hex _ _ t _ Hh) in Hu.
  rewrite Hh. f_equal.
  exact (f_equal fst Hu).
Qed.

Lemma nextEscaped_inv s offset b off' :
  nextEscaped s offset = inr (b, off') -> 0 <= offset ->
  exists h1 h2,
    from s offset = percentMark :: h1 :: h2 :: from s (offset + 3)
    /\ hexByte h1 h2 = Some b /\ off' = offset + 3.
Proof.
  intros Hn Ho.
  destruct (nextEscaped_ok s offset b off' Hn Ho)
    as (h1 & h2 & Hs & H1 & H2 & -> & Hl).
  exists h1, h2. split; [ exact Hs | ]. split; [ | reflexivity ].
  revert Hn. unfold nextEscaped.
  destruct (len s <=? offset); [ discriminate | ].
  destruct (negb _); [ discriminate | ].
  destruct (unescapeSequence (from s (offset + 1))) as [b' [e|]] eqn:Hu;
    [ discriminate | ].
  intros Hb. assert (b' = b) by congruence. subst b'.
  apply unescapeSequence_inv in Hu.
  destruct Hu as (g1 & g2 & t & Ht & Hg).
  assert (Hf : from s (offset + 1) = h1 :: h2 :: from s (offset + 3)).
  { rewrite <- (from_from s offset 1) by lia. rewrite Hs. reflexivity. }
  rewrite Hf in Ht. injection Ht as -> -> _. exact Hg.
Qed.

Lemma ValidRune_intro r :
  0 <= r <= 0x10FFFF -> (r < 0xD800 \/ 0xDFFF < r) -> utf8.ValidRune r = true.
Proof. intros Hr Hs. unfold utf8.ValidRune. zbool; try reflexivity; lia. Qed.

Lemma EncodeRune_1 r : 0 <= r < 0x80 -> utf8.EncodeRune r = [r].
Proof.
  intros Hr.
  destruct (EncodeRune_cases r (ValidRune_intro r ltac:(lia) ltac:(lia)))
    as [(_ & ->) | [(? & _) | [(? & _) | (? & _)]]]; [ reflexivity | lia .. ].
Qed.

Lemma EncodeRune_2 r :
  0x80 <= r < 0x800 -> utf8.EncodeRune r = [192 + r / 64; 128 + r mod 64].
Proof.
  intros Hr.
  destruct (EncodeRune_cases r (ValidRune_intro r ltac:(lia) ltac:(lia)))
    as [(? & _) | [(_ & ->) | [(? & _) | (? & _)]]]; [ | reflexivity | | ]; lia.
Qed.

Lemma EncodeRune_3 r :
  0x800 <= r < 0x10000 -> (r < 0xD800 \/ 0xDFFF < r) ->
  utf8.EncodeRune r
  = [224 + r / 4096; 128 + (r / 64) mod 64; 128 + r mod 64].
Proof.
  intros Hr Hs.
  destruct (EncodeRune_cases r (ValidRune_intro r ltac:(lia) Hs))
    as [(? & _) | [(? & _) | [(_ & ->) | (? & _)]]]; [ | | reflexivity | ]; lia.
Qed.

Lemma EncodeRune_4 r :
  0x10000 <= r <= 0x10FFFF ->
  utf8.EncodeRune r
  = [240 + r / 262144; 128 + (r / 4096) mod 64; 128 + (r / 64) mod 64;
     128 + r mod 64].
Proof.
  intros Hr.
  destruct (EncodeRune_cases r (ValidRune_intro r ltac:(lia) ltac:(lia)))
    as [(? & _) | [(? & _) | [(? & _) | (_ & ->)]]]; [ | | | reflexivity ]; lia.
Qed.

(** A decoded rune is a scalar, and the bytes read are its encoding: the
    decoder accepts no overlong form, no surrogate and nothing above
    U+10FFFF. *)
Lemma DecodeRune_sound bs r size :
  utf8.DecodeRune bs = (r, size) -> r <> utf8.RuneError ->
  (forall b, In b bs -> 0 <= b < 256) ->
  utf8.ValidRune r = true
  /\ utf8.EncodeRune r = firstn (Z.to_nat size) bs.
Proof.
  intros Hd Hne Hb. apply DecodeRune_value in Hd.
  destruct bs as [|s0 rest]; [ destruct Hd as [Hd _]; contradiction | ].
  assert (H0 : 0 <= s0 < 256) by (apply Hb; left; reflexivity).
  destruct Hd as [(Hlt & -> & ->) | [(Hr & _) | (Hge & sz & lo & hi & Hf & -> & Hd)]];
    [ | contradiction | ].
  { split; [ apply ValidRune_intro; lia | ].
    rewrite EncodeRune_1 by lia. reflexivity. }
  destruct rest as [|s1 rest1]; [ contradiction | ].
  destruct Hd as [H1 Hd].
  apply first_cases in Hf.
  destruct Hd as [(-> & ->) | Hd].
  { destruct Hf as [(Hs0 & _ & -> & ->) | [(_ & ? & _) | (_ & ? & _)]];
      try discriminate.
    assert (Hr : 0x80 <= s0 mod 32 * 64 + s1 mod 64 < 0x800
                 /\ (s0 mod 32 * 64 + s1 mod 64) / 64 = s0 - 192
                 /\ (s0 mod 32 * 64 + s1 mod 64) mod 64 = s1 - 128)
      by (Z.div_mod_to_equations; lia).
    destruct Hr as (Hr & Hq & Hm).
    split; [ apply ValidRune_intro; lia | ].
    rewrite EncodeRune_2 by exact Hr. rewrite Hq, Hm.
    change (Z.to_nat 2) with 2%nat. cbn [firstn]. repeat f_equal; lia. }
  destruct rest1 as [|s2 rest2]; [ contradiction | ].
  destruct Hd as [H2 Hd].
  destruct Hd as [(-> & ->) | Hd].
  { destruct Hf as [(_ & ? & _) | [(Hs0 & _ & Hlo & Hhi & HE0 & HED) | (_ & ? & _)]];
      try discriminate.
    assert (Hr : 0x800 <= s0 mod 16 * 4096 + s1 mod 64 * 64 + s2 mod 64 < 0x10000
                 /\ (s0 mod 16 * 4096 + s1 mod 64 * 64 + s2 mod 64 < 0xD800
                     \/ 0xDFFF < s0 mod 16 * 4096 + s1 mod 64 * 64 + s2 mod 64)
                 /\ (s0 mod 16 * 4096 + s1 mod 64 * 64 + s2 mod 64) / 4096
                    = s0 - 224
                 /\ ((s0 mod 16 * 4096 + s1 mod 64 * 64 + s2 mod 64) / 64) mod 64
                    = s1 - 128
                 /\ (s0 mod 16 * 4096 + s1 mod 64 * 64 + s2 mod 64) mod 64
                    = s2 - 128).
    { destruct (Z.eq_dec s0 0xE0) as [He | He];
        [ specialize (HE0 He) | clear HE0 ];
        (destruct (Z.eq_dec s0 0xED) as [Hd' | Hd'];
         [ specialize (HED Hd') | clear HED ]);
        Z.div_mod_to_equations; lia. }
    destruct Hr as (Hr & Hs & Hq & Hm1 & Hm0).
    split; [ apply ValidRune_intro; [ lia | exact Hs ] | ].
    rewrite EncodeRune_3 by assumption. rewrite Hq, Hm1, Hm0.
    change (Z.to_nat 3) with 3%nat. cbn [firstn]. repeat f_equal; lia. }
  destruct rest2 as [|s3 rest3]; [ contradiction | ].
  destruct Hd as (H3 & -> & ->).
  destruct Hf as [(_ & ? & _) | [(_ & ? & _) | (Hs0 & _ & Hlo & Hhi & HF0 & HF4)]];
    try discriminate.
  set (v := s0 mod 8 * 262144 + s1 mod 64 * 4096 + s2 mod 64 * 64 + s3 mod 64).
  assert (Hr : 0x10000 <= v <= 0x10FFFF
               /\ v / 262144 = s0 - 240
               /\ (v / 4096) mod 64 = s1 - 128
               /\ (v / 64) mod 64 = s2 - 128
               /\ v mod 64 = s3 - 128).
  { subst v.
    destruct (Z.eq_dec s0 0xF0) as [He | He];
      [ specialize (HF0 He) | clear HF0 ];
      (destruct (Z.eq_dec s0 0xF4) as [Hd' | Hd'];
       [ specialize (HF4 Hd') | clear HF4 ]);
      Z.div_mod_to_equations; lia. }
  destruct Hr as (Hr & Hq & Hm2 & Hm1 & Hm0).
  split; [ apply ValidRune_intro; lia | ].
  rewrite EncodeRune_4 by exact Hr. rewrite Hq, Hm2, Hm1, Hm0.
  change (Z.to_nat 4) with 4%nat. cbn [firstn]. repeat f_equal; lia.
Qed.

Lemma decodeCodePoint_inv bs offset r off :
  decodeCodePoint bs offset = (r, off, None) ->
  (forall b, In b bs -> 0 <= b < 256) ->
  off = offset /\ r <> utf8.RuneError /\ utf8.ValidRune r = true
  /\ exists size, utf8.DecodeRune bs = (r, size)
                  /\ utf8.EncodeRune r = firstn (Z.to_nat size) bs.
Proof.
  unfold decodeCodePoint. intros Hd Hb.
  destruct (utf8.DecodeRune bs) as [r' size] eqn:He.
  destruct (Z.eqb_spec r' utf8.RuneError) as [|Hne]; [ discriminate | ].
  assert (r' = r /\ offset = off) as [-> ->].
  { split; congruence. }
  destruct (DecodeRune_sound bs r size He Hne Hb) as [Hv Henc].
  split; [ reflexivity | ]. split; [ exact Hne | ]. split; [ exact Hv | ].
  exists size. split; [ reflexivity | exact Henc ].
Qed.

Lemma EncodeRune_length_lead r :
  utf8.ValidRune r = true ->
  match utf8.EncodeRune r with
  | [c0] => c0 < 0x80
  | [c0; _] => 0xC2 <= c0 <= 0xDF
  | [c0; _; _] => 0xE0 <= c0 <= 0xEF
  | [c0; _; _; _] => 0xF0 <= c0 <= 0xF4
  | _ => False
  end.
Proof.
  intros Hv. pose proof (ValidRune_range r Hv) as [Hr Hs].
  destruct (EncodeRune_cases r Hv)
    as [(H1 & ->) | [(H2 & ->) | [(H3 & ->) | (H4 & ->)]]];
    Z.div_mod_to_equations; lia.
Qed.

(** A list of bytes that begins with the encoding of a scalar, and whose
    length is the one its lead byte announces, is that encoding. *)
Lemma encoding_is_whole bs r size :
  utf8.ValidRune r = true ->
  utf8.EncodeRune r = firstn (Z.to_nat size) bs ->
  leadOf bs -> utf8.EncodeRune r = bs.
Proof.
  intros Hv He Hl. pose proof (EncodeRune_length_lead r Hv) as Hlen.
  rewrite He in *. clear He.
  destruct bs as [|c0 [|c1 [|c2 [|c3 [|c4 bs]]]]]; cbn [leadOf] in Hl;
    try contradiction;
    destruct (Z.to_nat size) as [|[|[|[|[|n]]]]]; cbn [firstn] in *;
    try contradiction; try reflexivity; lia.
Qed.

(** [unescapePercentEncoding] succeeds on exactly the strings whose
    leading escape groups spell the UTF-8 encoding of a Unicode scalar
    other than U+FFFD; it then returns that scalar and the number of bytes
    of these groups. So it accepts no overlong encoding, no surrogate, no
    value above U+10FFFF and no truncated sequence. *)
Theorem unescapePercentEncoding_accepts_scalars (s : gostring) (r : rune)
  (off : Z) :
  unescapePercentEncoding s = (r, off, None)
  <-> (utf8.ValidRune r = true /\ r <> 0xFFFD
       /\ escapedGroups (List.length (utf8.EncodeRune r)) s
          = Some (utf8.EncodeRune r)
       /\ off = 3 * Z.of_nat (List.length (utf8.EncodeRune r)) - 1).
Proof.
  split.
  2:{ intros (Hv & Hne & Hg & ->). apply unescape_decodes_scalar; assumption. }
  unfold unescapePercentEncoding.
  destruct (unescapeSequence s) as [c0 [e|]] eqn:Hu; [ discriminate | ].
  apply unescapeSequence_inv in Hu. destruct Hu as (h1 & h2 & t & -> & Hb0).
  pose proof (hexByte_range _ _ _ Hb0) as Hr0.
  cbv zeta.
  destruct (Z.leb_spec 0xC0 c0) as [Hc0 | Hc0].
  2:{ intros Hd. apply decodeCodePoint_inv in Hd;
        [ | intros b [<- | []]; exact Hr0 ].
      destruct Hd as (-> & Hne & Hv & size & _ & He).
      apply encoding_is_whole in He; [ | exact Hv | cbn; lia ].
      rewrite He. cbn [List.length escapedGroups]. rewrite Hb0.
      repeat split; assumption. }
  destruct (nextEscaped (h1 :: h2 :: t) 2) as [x | [c1 o1]] eqn:Hn1.
  { intros Hf. destruct (nextEscaped_failed _ _ _ Hn1) as (? & ? & ? & ->).
    discriminate Hf. }
  apply nextEscaped_inv in Hn1; [ | lia ].
  destruct Hn1 as (h3 & h4 & Hs1 & Hb1 & ->).
  rewrite from_cons2 in Hs1.
  pose proof (hexByte_range _ _ _ Hb1) as Hr1.
  destruct (Z.leb_spec 0xE0 c0) as [Hc1 | Hc1].
  2:{ intros Hd. apply decodeCodePoint_inv in Hd;
        [ | intros b [<- | [<- | []]]; assumption ].
      destruct Hd as (-> & Hne & Hv & size & _ & He).
      apply encoding_is_whole in He; [ | exact Hv | cbn; lia ].
      rewrite He, Hs1. cbn [List.length escapedGroups]. rewrite Hb0.
      change (Ascii.eqb percentMark percentMark) with true. cbv iota.
      rewrite Hb1. repeat split; assumption. }
  destruct (nextEscaped (h1 :: h2 :: t) (2 + 3)) as [x | [c2 o2]] eqn:Hn2.
  { intros Hf. destruct (nextEscaped_failed _ _ _ Hn2) as (? & ? & ? & ->).
    discriminate Hf. }
  apply nextEscaped_inv in Hn2; [ | lia ].
  destruct Hn2 as (h5 & h6 & Hs2 & Hb2 & ->).
  change (from (h1 :: h2 :: t) (2 + 3)) with (from t 3) in Hs2.
  rewrite Hs1 in Hs2 at 1.
  change (from (percentMark :: h3 :: h4 :: from (h1 :: h2 :: t) (2 + 3)) 3)
    with (from (h1 :: h2 :: t) (2 + 3)) in Hs2.
  pose proof (hexByte_range _ _ _ Hb2) as Hr2.
  destruct (Z.leb_spec 0xF0 c0) as [Hc2 | Hc2].
  2:{ intros Hd. apply decodeCodePoint_inv in Hd;
        [ | intros b [<- | [<- | [<- | []]]]; assumption ].
      destruct Hd as (-> & Hne & Hv & size & _ & He).
      apply encoding_is_whole in He; [ | exact Hv | cbn; lia ].
      rewrite He, Hs1, Hs2. cbn [List.length escapedGroups]. rewrite Hb0.
      change (Ascii.eqb percentMark percentMark) with true. cbv iota.
      rewrite Hb1. cbv iota. rewrite Hb2. repeat split; assumption. }
  destruct (nextEscaped (h1 :: h2 :: t) (2 + 3 + 3)) as [x | [c3 o3]] eqn:Hn3.
  { intros Hf. destruct (nextEscaped_failed _ _ _ Hn3) as (? & ? & ? & ->).
    discriminate Hf. }
  apply nextEscaped_inv in Hn3; [ | lia ].
  destruct Hn3 as (h7 & h8 & Hs3 & Hb3 & ->).
  pose proof (hexByte_range _ _ _ Hb3) as Hr3.
  assert (Hs3' : from (h1 :: h2 :: t) (2 + 3 + 3)
                 = from (from (h1 :: h2 :: t) (2 + 3)) 3).
  { rewrite from_from by lia. reflexivity. }
  rewrite Hs3' in Hs3 at 1. rewrite Hs2 in Hs3 at 1.
  change (from (percentMark :: h5 :: h6 :: from (h1 :: h2 :: t) (2 + 3 + 3)) 3)
    with (from (h1 :: h2 :: t) (2 + 3 + 3)) in Hs3.
  intros Hd. apply decodeCodePoint_inv in Hd;
    [ | intros b [<- | [<- | [<- | [<- | []]]]]; assumption ].
  destruct Hd as (-> & Hne & Hv & size & _ & He).
  apply encoding_is_whole in He; [ | exact Hv | cbn; lia ].
  rewrite He, Hs1, Hs2, Hs3. cbn [List.length escapedGroups]. rewrite Hb0.
  change (Ascii.eqb percentMark percentMark) with true. cbv iota.
  rewrite Hb1. cbv iota. rewrite Hb2. cbv iota. rewrite Hb3.
  repeat split; assumption.
Qed.

(** ** Escaping a rune *)

Lemma upperhex_nibble n :
  0 <= n < 16 ->
  isHex (b2z (at_ upperhex n)) = true /\ unhex (b2z (at_ upperhex n)) = n.
Proof.
  intros Hn.
  assert (Hall : forallb
                   (fun k => isHex (b2z (at_ upperhex k))
                             && (unhex (b2z (at_ upperhex k)) =? k))
                   (map Z.of_nat (seq 0 16)) = true) by reflexivity.
  rewrite forallb_forall in Hall.
  assert (Hin : In n (map Z.of_nat (seq 0 16))).
  { apply in_map_iff. exists (Z.to_nat n). split; [ lia | ].
    apply in_seq. lia. }
  apply Hall in Hin. apply andb_prop in Hin. destruct Hin as [H1 H2].
  split; [ exact H1 | apply Z.eqb_eq, H2 ].
Qed.

Lemma hexByte_upperhex c :
  0 <= c < 256 ->
  hexByte (at_ upperhex (Z.shiftr c 4)) (at_ upperhex (Z.land c 15)) = Some c.
Proof.
  intros Hc. rewrite Z.shiftr_div_pow2 by lia. change (2 ^ 4) with 16.
  change 15 with (2 ^ 4 - 1). rewrite (land_low c 4) by lia.
  change (2 ^ 4) with 16.
  assert (Ha : 0 <= c / 16 < 16) by (Z.div_mod_to_equations; lia).
  assert (Hb : 0 <= c mod 16 < 16) by (Z.div_mod_to_equations; lia).
  destruct (upperhex_nibble _ Ha) as [H1 H2].
  destruct (upperhex_nibble _ Hb) as [H3 H4].
  unfold hexByte. rewrite H1, H2, H3, H4. cbn [andb]. f_equal.
  Z.div_mod_to_equations; lia.
Qed.

Lemma writeEscaped_fold bs : forall w,
  fold_left
    (fun (w : strings.Builder) (c : Z) =>
       w ++ [percentMark; at_ upperhex (Z.shiftr c 4);
             at_ upperhex (Z.land c 15)]) bs w
  = w ++ flat_map (fun c => [percentMark; at_ upperhex (Z.shiftr c 4);
                             at_ upperhex (Z.land c 15)]) bs.
Proof.
  induction bs as [|b bs IH]; intros w; cbn [fold_left flat_map].
  - rewrite app_nil_r. reflexivity.
  - rewrite IH, <- app_assoc. reflexivity.
Qed.

Lemma escapedGroups_written bs t :
  bs <> [] -> (forall b, In b bs -> 0 <= b < 256) ->
  escapedGroups (List.length bs)
    (tl (flat_map (fun c => [percentMark; at_ upperhex (Z.shiftr c 4);
                             at_ upperhex (Z.land c 15)]) bs) ++ t)
  = Some bs.
Proof.
  induction bs as [|b bs IH]; intros Hne Hb; [ contradiction Hne; reflexivity | ].
  cbn [flat_map tl app List.length].
  assert (Hh := hexByte_upperhex b (Hb b (or_introl eq_refl))).
  destruct bs as [|b' bs].
  - cbn [flat_map app escapedGroups]. rewrite Hh. reflexivity.
  - assert (IH' := IH ltac:(discriminate)
                      (fun x Hx => Hb x (or_intror Hx))).
    cbn [flat_map tl app List.length] in IH'.
    cbn [flat_map app List.length].
    change (escapedGroups (S (S (List.length bs))) ?s)
      with (match s with
            | h1 :: h2 :: t0 =>
                match hexByte h1 h2 with
                | None => None
                | Some b0 =>
                    match t0 with
                    | p :: t' =>
                        if Ascii.eqb p percentMark
                        then option_map (cons b0)
                               (escapedGroups (S (List.length bs)) t')
                        else None
                    | [] => None
                    end
                end
            | _ => None
            end).
    cbv iota. rewrite Hh.
    change (Ascii.eqb percentMark percentMark) with true. cbv iota.
    rewrite IH'. reflexivity.
Qed.

Lemma EncodeRune_bytes r :
  utf8.ValidRune r = true ->
  utf8.EncodeRune r <> []
  /\ forall b, In b (utf8.EncodeRune r) -> 0 <= b < 256.
Proof.
  intros Hv. pose proof (ValidRune_range r Hv) as [Hr Hs].
  destruct (EncodeRune_cases r Hv)
    as [(H1 & ->) | [(H2 & ->) | [(H3 & ->) | (H4 & ->)]]];
    (split; [ discriminate | ]); cbn [In]; intros b Hb;
    repeat (destruct Hb as [<- | Hb]; [ Z.div_mod_to_equations; lia | ]);
    contradiction.
Qed.

Section Written.
Context `{Extern}.

(** Escaping then unescaping is the identity: for every Unicode scalar
    other than U+FFFD, [writeEscapedRune] writes a ['%'] followed by a
    body on which [unescapePercentEncoding] returns the scalar and consumes
    the whole body, whatever follows; and what it writes is accepted by
    [validateUnreservedWithExtra] with any set of extra runes. *)
Theorem writeEscapedRune_unescapes (r : rune) :
  utf8.ValidRune r = true -> r <> 0xFFFD ->
  exists body,
    writeEscapedRune [] r = percentMark :: body
    /\ len body = 3 * Z.of_nat (List.length (utf8.EncodeRune r)) - 1
    /\ (forall t, unescapePercentEncoding (body ++ t) = (r, len body, None))
    /\ (forall acceptedRunes,
          validateUnreservedWithExtra (writeEscapedRune [] r) acceptedRunes
          = None).
Proof.
  intros Hv Hne.
  destruct (EncodeRune_bytes r Hv) as [Hnil Hb].
  unfold writeEscapedRune, utf8_EncodeRune. rewrite Hv, writeEscaped_fold.
  cbn [app].
  set (f := fun c : Z => [percentMark; at_ upperhex (Z.shiftr c 4);
                          at_ upperhex (Z.land c 15)]).
  assert (Hlen : len (flat_map f (utf8.EncodeRune r))
                 = 3 * Z.of_nat (List.length (utf8.EncodeRune r))).
  { generalize (utf8.EncodeRune r). intros bs.
    induction bs as [|b bs IH]; [ reflexivity | ].
    cbn [flat_map List.length]. unfold f at 1. cbn [app].
    rewrite !len_cons, IH. lia. }
  destruct (flat_map f (utf8.EncodeRune r)) as [|p body] eqn:Hw.
  { destruct (utf8.EncodeRune r); [ contradiction Hnil; reflexivity | ].
    discriminate Hw. }
  assert (Hp : p = percentMark).
  { destruct (utf8.EncodeRune r); [ discriminate Hw | ].
    cbn [flat_map] in Hw. unfold f at 1 in Hw. cbn [app] in Hw. congruence. }
  subst p. rewrite len_cons in Hlen.
  assert (Hbody : len body
                  = 3 * Z.of_nat (List.length (utf8.EncodeRune r)) - 1) by lia.
  assert (Hun : forall t,
             unescapePercentEncoding (body ++ t) = (r, len body, None)).
  { intros t. rewrite Hbody. apply unescape_decodes_scalar; try assumption.
    pose proof (escapedGroups_written (utf8.EncodeRune r) t Hnil Hb) as Hg.
    fold f in Hg. rewrite Hw in Hg. exact Hg. }
  exists body. split; [ reflexivity | ]. split; [ exact Hbody | ].
  split; [ exact Hun | ].
  intros A. unfold validateUnreservedWithExtra.
  assert (Hpos : 0 < len body)
    by (destruct (utf8.EncodeRune r);
        [ contradiction Hnil; reflexivity | cbn [List.length] in Hbody; lia ]).
  destruct body as [|h body']; [ rewrite len_nil in Hpos; lia | ].
  cbn [List.length validateUnreservedWithExtra_loop].
  rewrite DecodeRune_ascii by (vm_compute; reflexivity).
  change (b2z percentMark =? utf8.RuneError) with false.
  change (b2z percentMark =? b2z percentMark) with true. cbv iota.
  change (from (percentMark :: h :: body') 1) with (h :: body').
  cbn [isEmpty].
  specialize (Hun []). rewrite app_nil_r in Hun. rewrite Hun.
  rewrite <- (app_nil_r (h :: body')) at 1. rewrite from_app_len.
  first [ apply loop_nil | reflexivity ].
Qed.

End Written.

Lemma writeEscapedRune_unescapes_witness :
  exists body,
    writeEscapedRune [] 0x20AC = percentMark :: body
    /\ unescapePercentEncoding body = (0x20AC, len body, None).
Proof.
  destruct (@writeEscapedRune_unescapes modelled 0x20AC eq_refl
              ltac:(discriminate)) as (body & Hw & _ & Hu & _).
  exists body. split; [ exact Hw | ].
  specialize (Hu []). rewrite app_nil_r in Hu. exact Hu.
Defined.

(** ** Decomposition loses nothing *)

Lemma slice_cat s i j k :
  0 <= i <= j -> j <= k -> slice s i j ++ slice s j k = slice s i k.
Proof.
  intros Hij Hjk. unfold slice, upto, from.
  replace (Z.to_nat j) with (Z.to_nat (j - i) + Z.to_nat i)%nat by lia.
  rewrite <- skipn_skipn.
  replace (Z.to_nat (k - i)) with (Z.to_nat (j - i) + Z.to_nat (k - j))%nat
    by lia.
  generalize (skipn (Z.to_nat i) s) as l. generalize (Z.to_nat (j - i)) as n.
  generalize (Z.to_nat (k - j)) as m. clear.
  intros m n. induction n as [|n IH]; intros l; [ reflexivity | ].
  destruct l as [|x l]; [ cbn; rewrite firstn_nil; reflexivity | ].
  cbn [firstn skipn Nat.add app]. f_equal. apply IH.
Qed.

Lemma slice_cat_r s i j k rest :
  0 <= i <= j -> j <= k ->
  slice s i j ++ slice s j k ++ rest = slice s i k ++ rest.
Proof. intros. rewrite app_assoc, slice_cat by assumption. reflexivity. Qed.

Lemma from_slice s i : from s i = slice s i (len s).
Proof.
  unfold slice, upto, from. symmetry. apply firstn_all2.
  rewrite length_skipn. unfold len. lia.
Qed.

Lemma slice_empty s i : slice s i i = [].
Proof. unfold slice, upto. rewrite Z.sub_diag. reflexivity. Qed.

Lemma slice_byte s c :
  0 <= strings.IndexByte s c ->
  slice s (strings.IndexByte s c) (strings.IndexByte s c + 1) = [c].
Proof.
  induction s as [|x s IH]; cbn [strings.IndexByte]; [ lia | ].
  destruct (Ascii.eqb_spec x c) as [-> | Hne]; [ reflexivity | ].
  destruct (Z.ltb_spec (strings.IndexByte s c) 0) as [Hlt | Hge]; [ lia | ].
  intros _. specialize (IH Hge). unfold slice, upto, from in *.
  replace (Z.to_nat (strings.IndexByte s c + 1))
    with (S (Z.to_nat (strings.IndexByte s c))) by lia.
  cbn [skipn].
  replace (strings.IndexByte s c + 1 + 1 - (strings.IndexByte s c + 1))
    with (strings.IndexByte s c + 1 - strings.IndexByte s c) by lia.
  exact IH.
Qed.

Lemma upto_slice s j : upto s j = slice s 0 j.
Proof. unfold slice, from. cbn [Z.to_nat skipn]. rewrite Z.sub_0_r. reflexivity. Qed.

Lemma isEmpty_slice s i j : 0 <= i -> i < j <= len s -> isEmpty (slice s i j) = false.
Proof.
  intros Hi Hj. rewrite isEmpty_len.
  destruct (Z.eqb_spec (len (slice s i j)) 0) as [He | ]; [ | reflexivity ].
  exfalso. revert He. unfold slice, upto, from, len.
  rewrite length_firstn, length_skipn. unfold len in Hj. lia.
Qed.

Section Lossless.
Context `{Extern}.

Ltac zspec' :=
  repeat (match goal with
          | |- context [?a <? ?b] => destruct (Z.ltb_spec a b)
          | |- context [?a <=? ?b] => destruct (Z.leb_spec a b)
          | |- context [?a =? ?b] => destruct (Z.eqb_spec a b)
          end; cbn [andb orb negb]).

Ltac glue :=
  rewrite ?from_slice; cbn [app]; rewrite ?app_nil_r;
  repeat first
    [ rewrite slice_cat_r by lia
    | rewrite slice_cat by lia
    | match goal with
      | |- context [slice ?s ?i ?j ++ slice ?s ?k ?l] =>
          lazymatch k with
          | j => fail
          | _ => replace (slice s k l) with (slice s j l) by (f_equal; lia)
          end
      end ];
  try reflexivity; try (f_equal; lia).

Ltac piece :=
  let Hr := fresh "Hr" in
  intros Hr;
  first
    [ discriminate Hr
    | apply finish_inv in Hr;
      destruct Hr as (Hs1 & Hs2 & Hs3 & Hs4 & _);
      cbn [mkURI scheme hierPart query fragment authority] in *;
      rewrite ?Hs1, ?Hs2, ?Hs3, ?Hs4;
      split; [ reflexivity | ]; glue ].

Lemma parse_hier_pieces raw o sch sE hE qE u :
  -1 <= sE -> sE + 1 <= len raw ->
  hE <> 0 -> qE <> 0 -> hE < len raw -> qE < len raw ->
  (hE < 0 \/ qE < 0 \/ hE <= qE) ->
  (hE = qE -> hE < 0 \/ qE + 1 < len raw) ->
  (0 < hE -> sE < hE) -> (0 < qE -> sE < qE) ->
  parse_hier raw o sch sE hE qE = (u, None) ->
  scheme u = sch
  /\ slice raw (sE + 1) (len raw)
     = hierPart u
       ++ (if (0 <? hE) && negb (hE =? qE)
           then slice raw hE (hE + 1) ++ query u else [])
       ++ (if 0 <? qE then slice raw qE (qE + 1) ++ fragment u else []).
Proof.
  intros HsE Hsl HhE HqE Hhl Hql Hhq Heq Hsh Hsq.
  unfold parse_hier. zspec';
    repeat match goal with
      | |- context [match parseAuthority ?h ?o with _ => _ end] =>
          let a := fresh "a" in
          let e := fresh "e" in
          let Ha := fresh "Ha" in
          destruct (parseAuthority h o) as [a [e|]] eqn:Ha
      end;
    try lia; piece.
Qed.
End Lossless.

Section Lossless2.
Context `{Extern}.

Lemma IndexByte_distinct s c d :
  c <> d -> 0 <= strings.IndexByte s c ->
  strings.IndexByte s c <> strings.IndexByte s d.
Proof.
  intros Hcd Hc Heq. pose proof (slice_byte s c Hc) as H1.
  assert (Hd : 0 <= strings.IndexByte s d) by lia.
  pose proof (slice_byte s d Hd) as H2. rewrite <- Heq in H2. congruence.
Qed.

Lemma raw_at_scheme raw :
  0 <= strings.IndexByte raw colonMark ->
  raw = slice raw 0 (strings.IndexByte raw colonMark)
        ++ colonMark :: slice raw (strings.IndexByte raw colonMark + 1) (len raw).
Proof.
  intros Hs. destruct (IndexByte_range raw colonMark) as [Hr | Hr]; [ lia | ].
  transitivity
    (slice raw 0 (strings.IndexByte raw colonMark)
     ++ slice raw (strings.IndexByte raw colonMark)
          (strings.IndexByte raw colonMark + 1)
     ++ slice raw (strings.IndexByte raw colonMark + 1) (len raw)).
  - rewrite slice_cat_r by lia. rewrite slice_cat by lia.
    rewrite <- from_slice. symmetry. apply from_0.
  - rewrite slice_byte by exact Hs. reflexivity.
Qed.

(** Decomposition loses nothing: an input that [parse] accepts is its
    scheme (with [':'] when there is one), hier-part, query (after ['?']
    when the input has one before any ['#']) and fragment (after ['#'] when
    the input has one), in this order. *)
Theorem parse_is_lossless (raw : gostring) (o : options) (u : URI) :
  parse raw o = (u, None) -> raw = reassembled raw u.
Proof.
  unfold parse, reassembled, hasQuery, hasFragment.
  set (sE := strings.IndexByte raw colonMark).
  set (hE := strings.IndexByte raw questionMark).
  set (qE := strings.IndexByte raw fragmentMark).
  pose proof (IndexByte_range raw colonMark) as HsR. fold sE in HsR.
  pose proof (IndexByte_range raw questionMark) as HhR. fold hE in HhR.
  pose proof (IndexByte_range raw fragmentMark) as HqR. fold qE in HqR.
  pose proof (len_nonneg raw) as Hlen.
  assert (Hsh : 0 <= sE -> sE <> hE)
    by (apply IndexByte_distinct; discriminate).
  assert (Hsq : 0 <= sE -> sE <> qE)
    by (apply IndexByte_distinct; discriminate).
  assert (Hhq : 0 <= hE -> hE <> qE)
    by (apply IndexByte_distinct; discriminate).
  assert (Hqm : 0 <= hE -> slice raw hE (hE + 1) = [questionMark])
    by (apply slice_byte).
  assert (Hfm : 0 <= qE -> slice raw qE (qE + 1) = [fragmentMark])
    by (apply slice_byte).
  destruct ((sE =? 0) || (hE =? 0) || (qE =? 0)) eqn:H0;
    [ intros Hp; discriminate Hp | ].
  destruct (Z.eqb_spec sE 1); [ intros Hp; discriminate Hp | ].
  destruct ((hE =? 1) || (qE =? 1)) eqn:H1; [ intros Hp; discriminate Hp | ].
  destruct (((0 <? hE) && (hE <? sE)) || ((0 <? qE) && (qE <? sE))) eqn:Hord;
    [ intros Hp; discriminate Hp | ].
  assert (Hz : sE <> 0 /\ hE <> 0 /\ qE <> 0).
  { revert H0. destruct (Z.eqb_spec sE 0); destruct (Z.eqb_spec hE 0);
      destruct (Z.eqb_spec qE 0); cbn; intros; try discriminate; tauto. }
  destruct Hz as (Hs0 & Hh0 & Hq0).
  assert (Ho : (0 < hE -> sE < hE) /\ (0 < qE -> sE < qE)).
  { revert Hord. destruct (Z.ltb_spec 0 hE); destruct (Z.ltb_spec hE sE);
      destruct (Z.ltb_spec 0 qE); destruct (Z.ltb_spec qE sE); cbn;
      intros; try discriminate; lia. }
  destruct Ho as (Ho1 & Ho2).
  set (hE' := if (0 <? qE) && (qE <? hE) then qE else hE).
  assert (HhE' : (hE' = qE /\ 0 < qE < hE) \/ (hE' = hE /\ ~ 0 < qE < hE)).
  { subst hE'. destruct (Z.ltb_spec 0 qE); destruct (Z.ltb_spec qE hE); cbn;
      [ left | right .. ]; split; try reflexivity; lia. }
  assert (Hfin : forall sch sE',
             (sE' = -1 \/ (sE' = sE /\ 0 < sE)) ->
             parse_hier raw o sch sE' hE' qE = (u, None) ->
             scheme u = sch
             /\ slice raw (sE' + 1) (len raw)
                = hierPart u
                  ++ (if (0 <=? hE) && ((qE <? 0) || (hE <? qE))
                      then questionMark :: query u else [])
                  ++ (if 0 <=? qE then fragmentMark :: fragment u else [])).
  { intros sch sE' HsE' Hp.
    apply parse_hier_pieces in Hp; try lia.
    destruct Hp as [Hsc Hp]. split; [ exact Hsc | ]. rewrite Hp.
    destruct HhE' as [(-> & Hadj) | (-> & Hadj)].
    - rewrite Z.eqb_refl, andb_false_r.
      destruct (Z.leb_spec 0 hE); [ | lia ].
      destruct (Z.ltb_spec qE 0); [ lia | ].
      destruct (Z.ltb_spec hE qE); [ lia | ].
      destruct (Z.ltb_spec 0 qE); [ | lia ].
      destruct (Z.leb_spec 0 qE); [ | lia ].
      cbn [andb orb app]. rewrite Hfm by lia. reflexivity.
    - destruct (Z.ltb_spec 0 hE); destruct (Z.leb_spec 0 hE); try lia;
        destruct (Z.eqb_spec hE qE); try lia;
        destruct (Z.ltb_spec qE 0); destruct (Z.ltb_spec hE qE); try lia;
        destruct (Z.ltb_spec 0 qE); destruct (Z.leb_spec 0 qE); try lia;
        cbn [andb orb negb app]; rewrite ?Hqm, ?Hfm by lia; reflexivity. }
  fold hE'.
  destruct (Z.ltb_spec 0 sE) as [Hsp | Hsn]; cbn [andb].
  - destruct (strings.HasPrefix raw authorityPrefix) eqn:Hrel; cbn [negb].
    + destruct (negb (withURIReference o)); [ intros Hp; discriminate Hp | ].
      intros Hp. apply Hfin in Hp; [ | left; reflexivity ].
      destruct Hp as [-> Hp]. cbn [withSeparatorAfter isEmpty app].
      rewrite <- Hp. change (-1 + 1) with 0. rewrite <- from_slice.
      symmetry. apply from_0.
    + assert (Hsch : withSeparatorAfter (slice raw 0 sE) colonMark
                     = slice raw 0 sE ++ [colonMark]).
      { unfold withSeparatorAfter. rewrite isEmpty_slice by lia. reflexivity. }
      destruct (Z.eqb_spec (sE + 1) (len raw)) as [Hend | Hmore].
      * intros Hp.
        assert (Hu : sameParts u (mkURI (slice raw 0 sE) [] [] [] emptyAuthority)).
        { injection Hp as <- _. apply validated_parts. }
        destruct Hu as (-> & -> & -> & -> & _).
        cbn [mkURI scheme hierPart query fragment]. rewrite Hsch.
        destruct (Z.leb_spec 0 hE); [ lia | ].
        destruct (Z.leb_spec 0 qE); [ lia | ].
        cbn [andb app]. rewrite app_nil_r.
        rewrite (raw_at_scheme raw) at 1 by (fold sE; lia). fold sE.
        rewrite Hend, slice_empty. reflexivity.
      * intros Hp. apply Hfin in Hp; [ | right; split; [ reflexivity | lia ] ].
        destruct Hp as [-> Hp]. rewrite Hsch, <- Hp.
        rewrite (raw_at_scheme raw) at 1 by (fold sE; lia). fold sE.
        rewrite <- app_assoc. reflexivity.
  - destruct (negb (withURIReference o)); [ intros Hp; discriminate Hp | ].
    assert (HsE : sE = -1) by lia.
    destruct (strings.HasPrefix raw authorityPrefix); intros Hp;
      (apply Hfin in Hp; [ | left; first [ reflexivity | exact HsE ] ]);
      destruct Hp as [-> Hp]; cbn [withSeparatorAfter isEmpty app];
      rewrite <- Hp; rewrite ?HsE; change (-1 + 1) with 0;
      rewrite <- from_slice; symmetry; apply from_0.
Qed.

End Lossless2.

Lemma parse_is_lossless_witness :
  let raw := str "http://user@host:80/p?q=1#f" in
  raw = reassembled raw (fst (@parse modelled raw packageLevelDefaults)).
Proof.
  cbv zeta.
  apply (@parse_is_lossless modelled (str "http://user@host:80/p?q=1#f")
           packageLevelDefaults).
  vm_compute. reflexivity.
Defined.

(** ** Rendering, then parsing *)

Lemma free_not_In cs s c : free cs s = true -> In c cs -> ~ In c s.
Proof.
  unfold free. intros Hf Hc Hin.
  rewrite forallb_forall in Hf. specialize (Hf c Hin).
  apply negb_true_iff in Hf.
  assert (Ht : existsb (Ascii.eqb c) cs = true).
  { apply existsb_exists. exists c. split; [ exact Hc | apply Ascii.eqb_refl ]. }
  congruence.
Qed.

Lemma Authority_String_eq a :
  Authority_String a
  = prefix a ++ withSeparatorAfter (userinfo a) atHost
    ++ (if isIPv6 (ip a) then openingBracketMark :: host a ++ [closingBracketMark]
        else host a)
    ++ withSeparatorBefore colonMark (port a) ++ path a.
Proof.
  unfold Authority_String, buildString, strings.WriteString, strings.WriteByte,
    withSeparatorAfter, withSeparatorBefore.
  rewrite !len_pos_isEmpty.
  destruct (isEmpty (userinfo a)) eqn:Hu; destruct (isIPv6 (ip a));
    destruct (isEmpty (port a)) eqn:Hp; cbn [negb app];
    try (destruct (userinfo a); [ | discriminate Hu ]);
    try (destruct (port a); [ | discriminate Hp ]);
    cbn [app]; rewrite ?app_nil_r, <- ?app_assoc; cbn [app];
    rewrite <- ?app_assoc; reflexivity.
Qed.

Lemma streq_eq a b : streq a b = true -> a = b.
Proof. unfold streq. destruct (list_eq_dec ascii_dec a b); [ tauto | discriminate ]. Qed.

Lemma not_In_app (c : ascii) s t : ~ In c s -> ~ In c t -> ~ In c (s ++ t).
Proof. intros Hs Ht Hin. apply in_app_or in Hin. tauto. Qed.

Lemma IndexByte_head c t : strings.IndexByte (c :: t) c = 0.
Proof. cbn [strings.IndexByte]. rewrite Ascii.eqb_refl. reflexivity. Qed.

Lemma IndexByte_nil c : strings.IndexByte [] c = -1.
Proof. reflexivity. Qed.

Lemma upto_app_exact s t i : i = len s -> upto (s ++ t) i = s.
Proof. intros ->. apply upto_app_len. Qed.

Lemma HasPrefix_app p X : strings.HasPrefix (p ++ X) p = true.
Proof.
  induction p as [|c p IH]; [ destruct X; reflexivity | ].
  cbn [app strings.HasPrefix]. rewrite Ascii.eqb_refl. exact IH.
Qed.

Lemma TrimPrefix_app p X : strings.TrimPrefix (p ++ X) p = X.
Proof.
  unfold strings.TrimPrefix. rewrite HasPrefix_app.
  induction p as [|c p IH]; [ reflexivity | exact IH ].
Qed.

Lemma slice_middle s t r : slice (s ++ t ++ r) (len s) (len s + len t) = t.
Proof.
  unfold slice. rewrite from_app_len.
  replace (len s + len t - len s) with (len t) by lia. apply upto_app_len.
Qed.

Lemma port_after_colon p :
  let P := withSeparatorBefore colonMark p in
  (if (0 <=? strings.IndexByte P colonMark)
      && (strings.IndexByte P colonMark + 1 <? len P)
   then from P (strings.IndexByte P colonMark + 1) else []) = p.
Proof.
  unfold withSeparatorBefore. destruct p as [|c p]; [ reflexivity | ].
  cbn [isEmpty]. rewrite IndexByte_head, !len_cons.
  pose proof (len_nonneg p).
  destruct (Z.ltb_spec (0 + 1) (len p + 1 + 1)); [ | lia ].
  reflexivity.
Qed.

Lemma parseAuthority_of_rendering (a : Authority) (o : options) :
  separable a = true ->
  exists a', parseAuthority (Authority_String a) o = (a', None)
             /\ sameAuthority a' a.
Proof.
  intros Hs. rewrite Authority_String_eq.
  unfold separable in Hs.
  destruct (isEmpty (prefix a)) eqn:Hpre.
  - repeat (apply andb_prop in Hs; destruct Hs as [Hs ?]).
    destruct (prefix a) eqn:Hp; [ | discriminate Hpre ].
    destruct (userinfo a) eqn:Hu; [ | discriminate Hs ].
    destruct (host a) eqn:Hh; [ | discriminate ].
    destruct (port a) eqn:Hpo; [ | discriminate ].
    destruct (isIPv6 (ip a)) eqn:H6; [ discriminate | ].
    cbn [withSeparatorAfter withSeparatorBefore isEmpty app].
    unfold parseAuthority.
    destruct (strings.HasPrefix (path a) authorityPrefix) eqn:Hpp;
      [ discriminate | ].
    unfold strings.TrimPrefix. rewrite Hpp. cbn [isEmpty].
    eexists. split; [ reflexivity | ].
    unfold sameAuthority. cbn. rewrite Hp, Hu, Hh, Hpo, H6. repeat split.
  - repeat (apply andb_prop in Hs; destruct Hs as [Hs ?]).
    apply streq_eq in Hs.
    set (U := withSeparatorAfter (userinfo a) atHost).
    set (B := if isIPv6 (ip a)
              then openingBracketMark :: host a ++ [closingBracketMark]
              else host a).
    set (P := withSeparatorBefore colonMark (port a)).
    replace (prefix a ++ U ++ B ++ P ++ path a)
      with (authorityPrefix ++ (U ++ B ++ P) ++ path a)
      by (rewrite Hs, <- !app_assoc; reflexivity).
    set (A := U ++ B ++ P). set (X := A ++ path a).
    unfold parseAuthority.
    rewrite HasPrefix_app, TrimPrefix_app. cbv iota.
    change (isEmpty authorityPrefix) with false. cbv iota.
    (* the bytes of the pieces *)
    assert (HBP : B ++ P <> [] \/ userinfo a = []).
    { destruct (userinfo a); [ right; reflexivity | left ].
      cbn [isEmpty orb] in H0. subst B P. unfold withSeparatorBefore.
      destruct (isIPv6 (ip a)); [ discriminate | ].
      destruct (host a); [ | discriminate ].
      destruct (port a); [ discriminate H0 | discriminate ]. }
    assert (HPs : ~ In slashMark P /\ ~ In atHost P /\ ~ In openingBracketMark P).
    { subst P. unfold withSeparatorBefore.
      destruct (isEmpty (port a)); [ cbn; tauto | ].
      repeat split; intros [Hc | Hin]; try discriminate Hc;
        revert Hin; apply (free_not_In _ _ _ H2); cbn; tauto. }
    destruct HPs as (HP1 & HP2 & HP3).
    assert (HBs : ~ In slashMark B /\ ~ In atHost B).
    { subst B. destruct (isIPv6 (ip a)).
      - apply andb_prop in H1. destruct H1 as [_ H1].
        split; (intros [Hc | Hin]; [ discriminate Hc | ]);
          apply in_app_or in Hin;
          (destruct Hin as [Hin | [Hc | []]]; [ | discriminate Hc ]);
          revert Hin; apply (free_not_In _ _ _ H1); cbn; tauto.
      - split; apply (free_not_In _ _ _ H1); cbn; tauto. }
    destruct HBs as (HB1 & HB2).
    assert (HUs : ~ In slashMark U).
    { subst U. unfold withSeparatorAfter.
      destruct (isEmpty (userinfo a)); [ cbn; tauto | ].
      apply not_In_app; [ apply (free_not_In _ _ _ H3); cbn; tauto | ].
      intros [Hc | []]; discriminate Hc. }
    assert (HAs : ~ In slashMark A)
      by (subst A; repeat apply not_In_app; assumption).
    (* the path and the authority part *)
    assert (FA : (if -1 <? strings.IndexByte X slashMark
                  then upto X (strings.IndexByte X slashMark) else X) = A
                 /\ (if (-1 <? strings.IndexByte X slashMark)
                        && (strings.IndexByte X slashMark <? len X)
                     then from X (strings.IndexByte X slashMark) else [])
                    = path a).
    { subst X. destruct (path a) as [|c p] eqn:Hpa.
      - rewrite app_nil_r, IndexByte_absent by exact HAs.
        split; reflexivity.
      - apply Ascii.eqb_eq in H. subst c.
        rewrite IndexByte_app by exact HAs. rewrite len_app, len_cons.
        pose proof (len_nonneg A). pose proof (len_nonneg p).
        destruct (Z.ltb_spec (-1) (len A)); [ | lia ].
        destruct (Z.ltb_spec (len A) (len A + (len p + 1))); [ | lia ].
        cbn [andb]. rewrite upto_app_len, from_app_len. split; reflexivity. }
    destruct FA as [FA FP]. rewrite FA, FP.
    (* the userinfo *)
    assert (FU : (if 0 <? strings.IndexByte A atHost
                  then upto A (strings.IndexByte A atHost) else [])
                 = userinfo a
                 /\ (if (0 <? strings.IndexByte A atHost)
                        && (strings.IndexByte A atHost + 1 <? len A)
                     then from A (strings.IndexByte A atHost + 1) else A)
                    = B ++ P).
    { subst A U. unfold withSeparatorAfter.
      destruct (isEmpty (userinfo a)) eqn:Hui.
      - destruct (userinfo a); [ | discriminate Hui ]. cbn [app].
        rewrite IndexByte_absent by (apply not_In_app; assumption).
        split; reflexivity.
      - destruct HBP as [HBP | HBP]; [ | rewrite HBP in Hui; discriminate Hui ].
        assert (Hfree : ~ In atHost (userinfo a))
          by (apply (free_not_In _ _ _ H3); cbn; tauto).
        rewrite <- app_assoc. cbn [app].
        rewrite IndexByte_app by exact Hfree. rewrite len_app, len_cons.
        assert (0 < len (userinfo a)).
        { destruct (userinfo a) as [|c ui]; [ discriminate Hui | ].
          rewrite len_cons. pose proof (len_nonneg ui). lia. }
        assert (0 < len (B ++ P)).
        { destruct (B ++ P); [ contradiction HBP; reflexivity | ].
          rewrite len_cons. pose proof (len_nonneg l). lia. }
        destruct (Z.ltb_spec 0 (len (userinfo a))); [ | lia ].
        destruct (Z.ltb_spec (len (userinfo a) + 1)
                    (len (userinfo a) + (len (B ++ P) + 1))); [ | lia ].
        cbn [andb]. rewrite upto_app_len. split; [ reflexivity | ].
        change (userinfo a ++ atHost :: B ++ P)
          with (userinfo a ++ [atHost] ++ (B ++ P)).
        rewrite app_assoc. apply from_app_exact.
        rewrite len_app, len_cons, len_nil. lia. }
    destruct FU as [FU FH]. rewrite FU, FH.
    pose proof (port_after_colon (port a)) as FPort. cbv zeta in FPort.
    fold P in FPort.
    subst B. destruct (isIPv6 (ip a)) eqn:H6.
    + apply andb_prop in H1. destruct H1 as [Hne H1].
      assert (Hcl : ~ In closingBracketMark (openingBracketMark :: host a)).
      { intros [Hc | Hin]; [ discriminate Hc | ].
        revert Hin. apply (free_not_In _ _ _ H1). cbn; tauto. }
      replace ((openingBracketMark :: host a ++ [closingBracketMark]) ++ P)
        with ((openingBracketMark :: host a) ++ closingBracketMark :: P)
        by (cbn [app]; rewrite <- app_assoc; reflexivity).
      rewrite (IndexByte_app _ _ _ Hcl).
      change (strings.IndexByte
                ((openingBracketMark :: host a) ++ closingBracketMark :: P)
                openingBracketMark) with 0.
      rewrite len_cons.
      assert (0 < len (host a)).
      { destruct (host a) as [|c h]; [ discriminate Hne | ].
        rewrite len_cons. pose proof (len_nonneg h). lia. }
      destruct (Z.leb_spec 0 0); [ | lia ].
      destruct (Z.ltb_spec (0 + 1) (len (host a) + 1)); [ | lia ].
      replace (from ((openingBracketMark :: host a) ++ closingBracketMark :: P)
                 (len (host a) + 1 + 1)) with P.
      2:{ symmetry.
          change ((openingBracketMark :: host a) ++ closingBracketMark :: P)
            with ((openingBracketMark :: host a) ++ [closingBracketMark] ++ P).
          rewrite app_assoc. apply from_app_exact.
          rewrite len_app, !len_cons, len_nil. lia. }
      rewrite FPort.
      replace (slice ((openingBracketMark :: host a) ++ closingBracketMark :: P)
                 (0 + 1) (len (host a) + 1)) with (host a).
      2:{ symmetry.
          change ((openingBracketMark :: host a) ++ closingBracketMark :: P)
            with ([openingBracketMark] ++ host a ++ closingBracketMark :: P).
          change (0 + 1) with (len [openingBracketMark]).
          replace (len (host a) + 1)
            with (len [openingBracketMark] + len (host a))
            by (rewrite len_cons, len_nil; lia).
          apply slice_middle. }
      eexists. split; [ reflexivity | ].
      unfold sameAuthority. cbn. rewrite Hs, H6. repeat split.
    + assert (Hbr : ~ In openingBracketMark (host a ++ P)).
      { apply not_In_app; [ | exact HP3 ].
        apply (free_not_In _ _ _ H1); cbn; tauto. }
      rewrite (IndexByte_absent _ _ Hbr). cbv iota.
      change (0 <=? -1) with false. cbv iota.
      assert (Hco : ~ In colonMark (host a))
        by (apply (free_not_In _ _ _ H1); cbn; tauto).
      assert (FHost : (if 0 <=? strings.IndexByte (host a ++ P) colonMark
                       then upto (host a ++ P)
                              (strings.IndexByte (host a ++ P) colonMark)
                       else host a ++ P) = host a
                      /\ (if (0 <=? strings.IndexByte (host a ++ P) colonMark)
                             && (strings.IndexByte (host a ++ P) colonMark + 1
                                 <? len (host a ++ P))
                          then from (host a ++ P)
                                 (strings.IndexByte (host a ++ P) colonMark + 1)
                          else []) = port a).
      { subst P. unfold withSeparatorBefore.
        destruct (port a) as [|c p]; cbn [isEmpty].
        * rewrite app_nil_r, (IndexByte_absent _ _ Hco). split; reflexivity.
        * rewrite (IndexByte_app _ _ _ Hco), len_app, !len_cons.
          pose proof (len_nonneg (host a)). pose proof (len_nonneg p).
          destruct (Z.leb_spec 0 (len (host a))); [ | lia ].
          destruct (Z.ltb_spec (len (host a) + 1)
                      (len (host a) + (len p + 1 + 1))); [ | lia ].
          cbn [andb]. rewrite upto_app_len. split; [ reflexivity | ].
          change (host a ++ colonMark :: c :: p)
            with (host a ++ [colonMark] ++ c :: p).
          rewrite app_assoc. apply from_app_exact.
          rewrite len_app, len_cons, len_nil. lia. }
      destruct FHost as [FHo FPo]. rewrite FHo, FPo.
      eexists. split; [ reflexivity | ].
      unfold sameAuthority. cbn. rewrite Hs, H6. repeat split.
Qed.

(** Rendering then splitting an authority gives its parts back: when the
    parts of [a] are separable, [parseAuthority] accepts
    [Authority_String a] and returns the prefix, userinfo, host, port and
    path of [a], and marks the host as bracketed when [a] does. *)
Theorem parseAuthority_rendered (a : Authority) (o : options) :
  separable a = true ->
  exists a', parseAuthority (Authority_String a) o = (a', None)
             /\ sameAuthority a' a.
Proof. apply parseAuthority_of_rendering. Qed.

Lemma parseAuthority_rendered_witness :
  let a := {| aerr := None; prefix := authorityPrefix; userinfo := str "user";
              host := str "::1"; port := str "8080"; path := str "/a";
              ip := {| isIPv4 := false; isIPv6 := true;
                       isIPvFuture := false |} |} in
  Authority_String a = str "//user@[::1]:8080/a"
  /\ exists a', parseAuthority (Authority_String a) packageLevelDefaults
                = (a', None) /\ sameAuthority a' a.
Proof.
  split; [ reflexivity | ].
  apply parseAuthority_rendered. reflexivity.
Defined.

Section Normal.
Context `{Extern}.

Ltac zspec' :=
  repeat (match goal with
          | |- context [?a <? ?b] => destruct (Z.ltb_spec a b)
          | |- context [?a <=? ?b] => destruct (Z.leb_spec a b)
          | |- context [?a =? ?b] => destruct (Z.eqb_spec a b)
          end; cbn [andb orb negb]).

Lemma slice_nil s i j : j <= i -> slice s i j = [].
Proof.
  intros Hji. unfold slice, upto.
  replace (Z.to_nat (j - i)) with 0%nat by lia. reflexivity.
Qed.

(** [parse_hier] cuts the input at the given marks. *)
Lemma parse_hier_normal raw o sch sE hE qE :
  -1 <= sE -> sE + 1 <= len raw ->
  hE <> 0 -> qE <> 0 -> hE < len raw -> qE < len raw ->
  (hE < 0 \/ qE < 0 \/ hE <= qE) ->
  (hE = qE -> hE < 0 \/ qE + 1 < len raw) ->
  (0 < hE -> sE < hE) -> (0 < qE -> sE < qE) ->
  let HE := if 0 <? hE then hE else if 0 <? qE then qE else len raw in
  let QE := if 0 <? qE then qE else len raw in
  parse_hier raw o sch sE hE qE
  = match parseAuthority (slice raw (sE + 1) HE) o with
    | (_, Some e) => failed (errorsJoin ErrInvalidURI e)
    | (a, None) =>
        finish (mkURI sch (slice raw (sE + 1) HE)
                  (if 0 <? hE then slice raw (hE + 1) QE else [])
                  (if 0 <? qE then slice raw (qE + 1) (len raw) else [])
                  a) o
    end.
Proof.
  intros HsE Hsl HhE HqE Hhl Hql Hhq Heq Hsh Hsq. cbv zeta.
  unfold parse_hier. zspec';
    repeat match goal with
      | |- context [match parseAuthority ?h ?o with _ => _ end] =>
          let a := fresh "a" in
          let e := fresh "e" in
          let Ha := fresh "Ha" in
          destruct (parseAuthority h o) as [a [e|]] eqn:Ha
      end;
    try lia; try reflexivity.
  all: rewrite ?from_slice;
    rewrite ?(slice_nil raw (hE + 1) qE) by lia;
    rewrite ?(slice_nil raw (qE + 1) (len raw)) by lia;
    rewrite ?(slice_nil raw (hE + 1) (len raw)) by lia; reflexivity.
Qed.
End Normal.

Lemma slice_cut raw pre M post i j :
  raw = pre ++ M ++ post -> i = len pre -> j = i + len M ->
  slice raw i j = M.
Proof. intros -> -> ->. apply slice_middle. Qed.

Lemma IndexByte_prefix_absent s t c :
  ~ In c s -> ~ In c t -> strings.IndexByte (s ++ t) c = -1.
Proof. intros Hs Ht. apply IndexByte_absent, not_In_app; assumption. Qed.

Section Assembled.
Context `{Extern}.

(** The parts an assembled input is cut into. *)
Lemma parse_assembled (c d : ascii) (rest Hp Q F : gostring) (o : options) :
  isASCIILetter (b2z c) = true -> forallb schemeByte (d :: rest) = true ->
  ~ In questionMark Hp -> ~ In fragmentMark Hp -> ~ In fragmentMark Q ->
  let S := c :: d :: rest in
  let raw := S ++ colonMark :: Hp ++ withSeparatorBefore questionMark Q
             ++ withSeparatorBefore fragmentMark F in
  match parseAuthority Hp o with
  | (_, Some e) => parse raw o = failed (errorsJoin ErrInvalidURI e)
  | (a, None) =>
      sameParts (fst (parse raw o)) (mkURI S Hp Q F a)
      /\ snd (parse raw o) = snd (validate (mkURI S Hp Q F a) o)
  end.
Proof.
  intros Hc Hr HqH HfH HfQ S raw.
  assert (HS : forall x, x = colonMark \/ x = questionMark \/ x = fragmentMark
                         \/ x = slashMark -> ~ In x S).
  { intros x Hx. apply (scheme_no_mark c (d :: rest) x Hc Hr Hx). }
  set (Qp := withSeparatorBefore questionMark Q) in *.
  set (Fp := withSeparatorBefore fragmentMark F) in *.
  pose proof (len_nonneg rest) as Hlr. pose proof (len_nonneg Hp) as HlH.
  pose proof (len_nonneg Q) as HlQ. pose proof (len_nonneg F) as HlF.
  assert (HlS : len S = len rest + 2) by (subst S; rewrite !len_cons; lia).
  assert (HlQp : len Qp = (if isEmpty Q then 0 else len Q + 1)).
  { subst Qp. unfold withSeparatorBefore. destruct Q; [ reflexivity | ].
    cbn [isEmpty]. rewrite !len_cons. lia. }
  assert (HlFp : len Fp = (if isEmpty F then 0 else len F + 1)).
  { subst Fp. unfold withSeparatorBefore. destruct F; [ reflexivity | ].
    cbn [isEmpty]. rewrite !len_cons. lia. }
  assert (Hlen : len raw = len S + 1 + len Hp + len Qp + len Fp).
  { subst raw. rewrite len_app, len_cons, !len_app. lia. }
  (* the marks *)
  assert (HsE : strings.IndexByte raw colonMark = len S).
  { subst raw. apply IndexByte_app, HS. tauto. }
  set (T := S ++ colonMark :: Hp).
  assert (HT : raw = T ++ Qp ++ Fp).
  { subst raw T. rewrite <- app_assoc. reflexivity. }
  assert (HlT : len T = len S + 1 + len Hp)
    by (subst T; rewrite len_app, len_cons; lia).
  assert (HqT : ~ In questionMark T).
  { subst T. apply not_In_app; [ apply HS; tauto | ].
    intros [Hx | Hin]; [ discriminate Hx | tauto ]. }
  assert (HfT : ~ In fragmentMark T).
  { subst T. apply not_In_app; [ apply HS; tauto | ].
    intros [Hx | Hin]; [ discriminate Hx | tauto ]. }
  assert (HfQp : ~ In fragmentMark Qp).
  { subst Qp. unfold withSeparatorBefore. destruct (isEmpty Q); [ tauto | ].
    intros [Hx | Hin]; [ discriminate Hx | tauto ]. }
  assert (HqE : strings.IndexByte raw fragmentMark
                = if isEmpty F then -1 else len T + len Qp).
  { rewrite HT, app_assoc. subst Fp. unfold withSeparatorBefore.
    destruct (isEmpty F).
    - rewrite app_nil_r. apply IndexByte_prefix_absent; assumption.
    - rewrite IndexByte_app by (apply not_In_app; assumption).
      apply len_app. }
  assert (HhE : (isEmpty Q = false
                 /\ strings.IndexByte raw questionMark = len T)
                \/ (isEmpty Q = true
                    /\ (strings.IndexByte raw questionMark = -1
                        \/ (isEmpty F = false
                            /\ len T < strings.IndexByte raw questionMark
                               < len raw)))).
  { destruct (isEmpty Q) eqn:HQ.
    - right. split; [ reflexivity | ].
      destruct (IndexByte_range raw questionMark) as [Hr' | Hr'];
        [ left; exact Hr' | right ].
      assert (Hin : In questionMark raw).
      { destruct (in_dec ascii_dec questionMark raw) as [Hi | Hn];
          [ exact Hi | ].
        rewrite (IndexByte_absent _ _ Hn) in Hr'. lia. }
      assert (HQp : Qp = []) by (subst Qp; unfold withSeparatorBefore; rewrite HQ; reflexivity).
      rewrite HT, HQp in Hin. cbn [app] in Hin.
      apply in_app_or in Hin. destruct Hin as [Hin | Hin]; [ tauto | ].
      destruct (isEmpty F) eqn:HF.
      + subst Fp. unfold withSeparatorBefore in Hin. rewrite HF in Hin.
        contradiction.
      + split; [ reflexivity | ]. split; [ | lia ].
        pose proof (IndexByte_upto raw questionMark) as Hu.
        destruct (Z.le_gt_cases (strings.IndexByte raw questionMark) (len T))
          as [Hle | Hgt]; [ | exact Hgt ].
        exfalso.
        assert (HqEv : strings.IndexByte raw fragmentMark = len T)
          by (rewrite HqE, ?HF, HlQp, ?HQ; lia).
        assert (Hfm : slice raw (len T) (len T + 1) = [fragmentMark])
          by (rewrite <- HqEv; apply slice_byte; lia).
        destruct (Z.eq_dec (strings.IndexByte raw questionMark) (len T))
          as [He | Hne].
        * pose proof (slice_byte raw questionMark ltac:(lia)) as Hs.
          rewrite He, Hfm in Hs. discriminate Hs.
        * assert (Hq : slice raw (strings.IndexByte raw questionMark)
                         (strings.IndexByte raw questionMark + 1)
                       = [questionMark]) by (apply slice_byte; lia).
          assert (Hin' : In questionMark (upto raw (len T))).
          { rewrite upto_slice.
            rewrite <- (slice_cat raw 0 (strings.IndexByte raw questionMark)
                          (len T)) by lia.
            apply in_or_app. right.
            rewrite <- (slice_cat raw (strings.IndexByte raw questionMark)
                          (strings.IndexByte raw questionMark + 1) (len T))
              by lia.
            apply in_or_app. left. rewrite Hq. left. reflexivity. }
          rewrite HT, upto_app_len in Hin'. tauto.
    - left. split; [ reflexivity | ].
      rewrite HT. subst Qp. unfold withSeparatorBefore. rewrite HQ.
      cbn [app]. apply IndexByte_app, HqT. }
  (* the slices *)
  assert (HsS : slice raw 0 (len S) = S).
  { apply (slice_cut raw [] S (colonMark :: Hp ++ Qp ++ Fp));
      [ reflexivity | reflexivity | lia ]. }
  assert (HsH : slice raw (len S + 1) (len T) = Hp).
  { apply (slice_cut raw (S ++ [colonMark]) Hp (Qp ++ Fp)).
    - subst raw. rewrite <- app_assoc. reflexivity.
    - rewrite len_app, len_cons, len_nil. lia.
    - lia. }
  assert (HsQ : isEmpty Q = false ->
                slice raw (len T + 1) (len T + 1 + len Q) = Q).
  { intros HQ. apply (slice_cut raw (T ++ [questionMark]) Q Fp).
    - rewrite HT. subst Qp. unfold withSeparatorBefore. rewrite HQ.
      rewrite <- !app_assoc. reflexivity.
    - rewrite len_app, len_cons, len_nil. lia.
    - lia. }
  assert (HsF : isEmpty F = false ->
                slice raw (len T + len Qp + 1) (len raw) = F).
  { intros HF. apply (slice_cut raw (T ++ Qp ++ [fragmentMark]) F []).
    - rewrite HT. subst Fp. unfold withSeparatorBefore. rewrite HF.
      rewrite app_nil_r, <- !app_assoc. reflexivity.
    - rewrite !len_app, len_cons, len_nil. lia.
    - rewrite Hlen, HlFp, HF. lia. }
  assert (Hrel : strings.HasPrefix raw authorityPrefix = false).
  { subst raw S. cbn [app]. 
    change authorityPrefix with [slashMark; slashMark].
    cbn [strings.HasPrefix].
    destruct (Ascii.eqb_spec c slashMark) as [He | _]; [ | reflexivity ].
    exfalso. apply (letter_not c slashMark Hc); tauto. }
  assert (Hnil : parseAuthority [] o = (emptyAuthority, None))
    by apply parseAuthority_nil.
  (* the run of [parse] *)
  assert (Hrun : parse raw o
                 = if len S + 1 =? len raw then
                     (validated (mkURI S [] [] [] emptyAuthority) o,
                      err (validated (mkURI S [] [] [] emptyAuthority) o))
                   else
                     match parseAuthority Hp o with
                     | (_, Some e) => failed (errorsJoin ErrInvalidURI e)
                     | (a, None) => finish (mkURI S Hp Q F a) o
                     end).
  { unfold parse. rewrite HsE, Hrel, HsS. cbn [negb].
    set (hE := strings.IndexByte raw questionMark) in *.
    set (qE := strings.IndexByte raw fragmentMark) in *.
    assert (Hq3 : qE = -1 \/ (isEmpty F = false /\ qE = len T + len Qp)).
    { rewrite HqE. destruct (isEmpty F); [ left | right; split ]; reflexivity. }
    assert (HQpn : 0 <= len Qp) by apply len_nonneg.
    assert (Hh3 : hE = -1 \/ 3 <= hE) by (destruct HhE as [(_ & ?) | (_ & [? | (_ & ?)])]; lia).
    destruct (Z.eqb_spec (len S) 0); [ lia | ].
    destruct (Z.eqb_spec hE 0); [ lia | ].
    destruct (Z.eqb_spec qE 0); [ lia | ].
    destruct (Z.eqb_spec (len S) 1); [ lia | ].
    destruct (Z.eqb_spec hE 1); [ lia | ].
    destruct (Z.eqb_spec qE 1); [ lia | ].
    cbn [orb].
    assert (Hord : ((0 <? hE) && (hE <? len S)) || ((0 <? qE) && (qE <? len S))
                   = false).
    { destruct (Z.ltb_spec 0 hE); destruct (Z.ltb_spec hE (len S));
        destruct (Z.ltb_spec 0 qE); destruct (Z.ltb_spec qE (len S));
        try reflexivity; destruct HhE as [(_ & ?) | (_ & [? | (_ & ?)])]; lia. }
    rewrite Hord.
    destruct (Z.ltb_spec 0 (len S)); [ | lia ]. cbn [andb].
    destruct (Z.eqb_spec (len S + 1) (len raw)) as [Hend | Hmore];
      [ reflexivity | ].
    set (hE' := if (0 <? qE) && (qE <? hE) then qE else hE).
    assert (Hcases :
      (isEmpty Q = false /\ hE' = len T
       /\ (qE = -1 /\ isEmpty F = true \/ qE = len T + 1 + len Q /\ isEmpty F = false))
      \/ (isEmpty Q = true /\ len Qp = 0
          /\ ((hE' = -1 /\ qE = -1 /\ isEmpty F = true)
              \/ (hE' = -1 /\ qE = len T /\ isEmpty F = false)
              \/ (hE' = len T /\ qE = len T /\ isEmpty F = false)))).
    { subst hE'. rewrite HqE in Hq3. rewrite HlQp in *.
      destruct HhE as [(HQ & Hh) | (HQ & Hh)]; rewrite HQ in *.
      - left. split; [ reflexivity | ].
        destruct (isEmpty F) eqn:HF.
        + assert (qE = -1) by (destruct Hq3 as [? | (? & _)]; [ assumption | discriminate ]).
          destruct (Z.ltb_spec 0 qE); [ lia | ]. cbn [andb].
          split; [ exact Hh | left; split; [ assumption | reflexivity ] ].
        + assert (qE = len T + (len Q + 1)) by (rewrite HqE; reflexivity).
          destruct (Z.ltb_spec 0 qE); destruct (Z.ltb_spec qE hE); try lia;
            cbn [andb]; (split; [ exact Hh | right; split; [ lia | reflexivity ] ]).
      - right. split; [ reflexivity | ]. split; [ reflexivity | ].
        destruct (isEmpty F) eqn:HF.
        + left. assert (qE = -1) by (rewrite HqE; reflexivity).
          destruct Hh as [Hh | (Hd & _)]; [ | discriminate Hd ].
          destruct (Z.ltb_spec 0 qE); [ lia | ]. cbn [andb]. tauto.
        + right. assert (qE = len T) by (rewrite HqE; lia).
          destruct Hh as [Hh | (_ & Hh)].
          * left. destruct (Z.ltb_spec 0 qE); destruct (Z.ltb_spec qE hE);
              try lia; cbn [andb]; tauto.
          * right. destruct (Z.ltb_spec 0 qE); destruct (Z.ltb_spec qE hE);
              try lia; cbn [andb]; tauto. }
    clearbody hE'.
    assert (HQ1 : isEmpty Q = false -> 1 <= len Q).
    { destruct Q; [ discriminate | ]. rewrite len_cons.
      pose proof (len_nonneg Q). lia. }
    assert (HF1 : isEmpty F = false -> 1 <= len F).
    { destruct F; [ discriminate | ]. rewrite len_cons.
      pose proof (len_nonneg F). lia. }
    assert (Hnum : hE' <> 0 /\ hE' < len raw /\ qE < len raw
                   /\ (hE' < 0 \/ qE < 0 \/ hE' <= qE)
                   /\ (hE' = qE -> hE' < 0 \/ qE + 1 < len raw)
                   /\ (0 < hE' -> len S < hE') /\ (0 < qE -> len S < qE)).
    { destruct Hcases
        as [(HQ & ? & [(? & HF) | (? & HF)])
           | (HQ & ? & [(? & ? & HF) | [(? & ? & HF) | (? & ? & HF)]])];
        rewrite HlQp, HlFp, HQ, HF in *;
        try specialize (HQ1 eq_refl); try specialize (HF1 eq_refl); lia. }
    destruct Hnum as (Hn1 & Hn2 & Hn3 & Hn4 & Hn5 & Hn6 & Hn7).
    assert (Hn8 : -1 <= len S) by lia.
    assert (Hn9 : len S + 1 <= len raw).
    { pose proof (len_nonneg Fp). clear - Hlen HlH HQpn H1. lia. }
    rewrite (parse_hier_normal raw o S (len S) hE' qE Hn8 Hn9 Hn1 n1 Hn2 Hn3
               Hn4 Hn5 Hn6 Hn7).
    cbv zeta.
    assert (HnQ : isEmpty Q = true -> Q = [])
      by (destruct Q; [ reflexivity | discriminate ]).
    assert (HnF : isEmpty F = true -> F = [])
      by (destruct F; [ reflexivity | discriminate ]).
    assert (H0T : (0 <? len T) = true)
      by (apply Z.ltb_lt; clear - HlT HlS Hlr HlH; lia).
    assert (HHE : (if 0 <? hE' then hE'
                   else if 0 <? qE then qE else len raw) = len T
                  /\ (if 0 <? hE'
                      then slice raw (hE' + 1)
                             (if 0 <? qE then qE else len raw)
                      else []) = Q
                  /\ (if 0 <? qE then slice raw (qE + 1) (len raw) else [])
                     = F).
    { destruct Hcases
        as [(HQ & Hh & [(Hq & HF) | (Hq & HF)])
           | (HQ & HQ0 & [(Hh & Hq & HF) | [(Hh & Hq & HF) | (Hh & Hq & HF)]])];
        rewrite Hh, Hq; rewrite ?H0T; change (0 <? -1) with false; cbv iota.
      - split; [ reflexivity | ]. split; [ | symmetry; apply HnF, HF ].
        replace (len raw) with (len T + 1 + len Q)
          by (rewrite Hlen, HlQp, HlFp, HQ, HF; clear - HlT; lia).
        apply HsQ, HQ.
      - assert (H0q : (0 <? len T + 1 + len Q) = true)
          by (apply Z.ltb_lt; clear - HlT HlS Hlr HlH HlQ; lia).
        rewrite H0q. split; [ reflexivity | ]. split; [ apply HsQ, HQ | ].
        transitivity (slice raw (len T + len Qp + 1) (len raw));
          [ f_equal; rewrite HlQp, HQ; clear; lia | apply HsF, HF ].
      - rewrite (HnQ HQ), (HnF HF). split; [ | split; reflexivity ].
        rewrite Hlen, HlQp, HlFp, HQ, HF. clear - HlT. lia.
      - rewrite (HnQ HQ). split; [ reflexivity | ]. split; [ reflexivity | ].
        transitivity (slice raw (len T + len Qp + 1) (len raw));
          [ f_equal; rewrite HQ0; clear; lia | apply HsF, HF ].
      - rewrite (HnQ HQ). split; [ reflexivity | ].
        split; [ apply slice_nil; clear; lia | ].
        transitivity (slice raw (len T + len Qp + 1) (len raw));
          [ f_equal; rewrite HQ0; clear; lia | apply HsF, HF ]. }
    destruct HHE as (HHE & HQQ & HFF).
    rewrite HHE, HQQ, HFF, HsH. reflexivity. }
  destruct (Z.eqb_spec (len S + 1) (len raw)) as [Hend | Hmore].
  - assert (Hp = [] /\ Q = [] /\ F = []) as (-> & -> & ->).
    { rewrite HlQp, HlFp in Hlen.
      destruct Hp; [ | rewrite len_cons in *; pose proof (len_nonneg Hp); destruct (isEmpty Q); destruct (isEmpty F); lia ].
      destruct Q; [ | cbn [isEmpty] in *; rewrite len_cons in *; pose proof (len_nonneg Q); destruct (isEmpty F); lia ].
      destruct F; [ | cbn [isEmpty] in *; rewrite len_cons in *; pose proof (len_nonneg F); lia ].
      repeat split. }
    rewrite Hnil, Hrun. cbn [fst snd].
    split; [ apply validated_parts | apply validated_err ].
  - rewrite Hrun. destruct (parseAuthority Hp o) as [a [e|]];
      [ reflexivity | ].
    split; [ apply finish_parts | apply finish_snd ].
Qed.

End Assembled.

Lemma String_assembled u :
  String u
  = withSeparatorAfter (scheme u) colonMark
    ++ Authority_String (authority u)
    ++ withSeparatorBefore questionMark (query u)
    ++ withSeparatorBefore fragmentMark (fragment u).
Proof.
  rewrite String_rendering. unfold rendering. cbv zeta.
  rewrite Authority_String_eq. rewrite <- !app_assoc. reflexivity.
Qed.

Section RoundTripBack.
Context `{Extern}.

(** Rendering then parsing gives the parts back: for a value with a
    well-formed scheme, a separable authority and no stray ['?'] or ['#'],
    [parse] cuts [String u] into the scheme, the query and the fragment
    of [u] and into the parts of its authority; the hier-part is the
    rendering of the authority, and the error is the verdict of [validate]
    on these parts. *)
Theorem parse_String_gives_parts_back (u : URI) (o : options) :
  wellFormed u = true ->
  let H := Authority_String (authority u) in
  sameParts (fst (parse (String u) o))
    (mkURI (scheme u) H (query u) (fragment u) (authority u))
  /\ snd (parse (String u) o)
     = snd (validate
              (mkURI (scheme u) H (query u) (fragment u)
                 (fst (parseAuthority H o))) o).
Proof.
  unfold wellFormed. intros Hw.
  apply andb_prop in Hw. destruct Hw as [Hw HfQ].
  apply andb_prop in Hw. destruct Hw as [Hw HfH].
  apply andb_prop in Hw. destruct Hw as [Hsch Hsep].
  cbv zeta. rewrite String_assembled.
  destruct (scheme u) as [|c [|d rest]] eqn:HS; try discriminate Hsch.
  cbn [schemeGrammar] in Hsch. apply andb_prop in Hsch.
  destruct Hsch as [Hc Hr].
  destruct (parseAuthority_of_rendering (authority u) o Hsep)
    as (a' & Hpa & Hsame).
  pose proof (parse_assembled c d rest (Authority_String (authority u))
                (query u) (fragment u) o Hc Hr
                (free_not_In _ _ questionMark HfH ltac:(cbn; tauto))
                (free_not_In _ _ fragmentMark HfH ltac:(cbn; tauto))
                (free_not_In _ _ fragmentMark HfQ ltac:(cbn; tauto)))
    as Hp.
  cbv zeta in Hp. rewrite Hpa in Hp. cbn [fst].
  replace (withSeparatorAfter (c :: d :: rest) colonMark
           ++ Authority_String (authority u)
           ++ withSeparatorBefore questionMark (query u)
           ++ withSeparatorBefore fragmentMark (fragment u))
    with ((c :: d :: rest)
          ++ colonMark :: Authority_String (authority u)
          ++ withSeparatorBefore questionMark (query u)
          ++ withSeparatorBefore fragmentMark (fragment u))
    by (unfold withSeparatorAfter; cbn [isEmpty]; rewrite <- app_assoc;
        reflexivity).
  destruct Hp as [Hparts Herr]. split; [ | rewrite Hpa; exact Herr ].
  destruct Hparts as (P1 & P2 & P3 & P4 & P5 & P6 & P7 & P8 & P9).
  destruct Hsame as (S1 & S2 & S3 & S4 & S5 & _).
  cbn [mkURI scheme hierPart query fragment authority] in *.
  unfold sameParts. cbn [mkURI scheme hierPart query fragment authority].
  repeat split; congruence.
Qed.

End RoundTripBack.

Lemma parse_String_gives_parts_back_witness :
  let u := mkURI (str "https") [] (str "a=1") (str "top")
             {| aerr := None; prefix := authorityPrefix;
                userinfo := str "user"; host := str "example.com";
                port := str "8080"; path := str "/a/b"; ip := noIP |} in
  String u = str "https://user@example.com:8080/a/b?a=1#top"
  /\ host (authority (fst (@parse modelled (String u) packageLevelDefaults)))
     = str "example.com".
Proof.
  split; [ reflexivity | ].
  refine (let P := @parse_String_gives_parts_back modelled
                     (mkURI (str "https") [] (str "a=1") (str "top")
                        {| aerr := None; prefix := authorityPrefix;
                           userinfo := str "user"; host := str "example.com";
                           port := str "8080"; path := str "/a/b";
                           ip := noIP |})
                     packageLevelDefaults eq_refl in _).
  destruct P as [(_ & _ & _ & _ & _ & _ & Hh & _) _]. exact Hh.
Defined.

(** ** The first builder applied to a value without authority *)

Section FirstBuilder.
Context `{Extern}.

Lemma validateHost_keeps_mark h sch o :
  isIPv6 (fst (validateHost h false sch o)) = false.
Proof.
  unfold validateHost. destruct (validateIPv4 h); [ | reflexivity ].
  destruct (validateHostForScheme h sch o); reflexivity.
Qed.

Lemma validate_keeps_mark u o :
  isIPv6 (ip (authority u)) = false -> isIPv6 (fst (validate u o)) = false.
Proof.
  intros H6. unfold validate.
  repeat match goal with
         | |- context [match (if ?b then ?x else None) with _ => _ end] =>
             destruct (if b then x else None)
         end; try reflexivity.
  destruct (negb (isEmpty (hierPart u))); [ | reflexivity ].
  unfold validateForScheme. cbv zeta. rewrite H6.
  destruct (if _ && flagSet o flagValidatePath then _ else _);
    [ reflexivity | ].
  destruct (negb (isEmpty (host (authority u))) && flagSet o flagValidateHost).
  - pose proof (validateHost_keeps_mark (host (authority u)) (scheme u) o) as Hk.
    destruct (validateHost (host (authority u)) false (scheme u) o)
      as [t [e|]]; cbn [fst] in Hk; [ exact Hk | ].
    repeat match goal with
           | |- context [match (if ?b then ?x else None) with _ => _ end] =>
               destruct (if b then x else None)
           end; exact Hk.
  - repeat match goal with
           | |- context [match (if ?b then ?x else None) with _ => _ end] =>
               destruct (if b then x else None)
           end; reflexivity.
Qed.

(** The builders ensure the ["//"] prefix from the parts the authority has
    before the new part is stored. So the first of them applied to a value
    whose authority has only a path leaves the prefix empty: [String] then
    renders the new host right after the scheme, without ["//"], whereas
    the accessor [Authority()] of the same value reports the prefix. *)
Theorem first_builder_leaves_prefix_empty (u : URI) (h : gostring)
  (opts : list Option) :
  Err u = None -> pathOnly (authority u) = true -> h <> [] ->
  let v := WithHost u h opts in
  prefix (authority v) = []
  /\ String v
     = withSeparatorAfter (scheme u) colonMark ++ h ++ path (authority u)
       ++ withSeparatorBefore questionMark (query u)
       ++ withSeparatorBefore fragmentMark (fragment u)
  /\ Authority_String (URI_Authority v)
     = authorityPrefix ++ h ++ path (authority u).
Proof.
  intros He Hp Hh. unfold pathOnly in Hp.
  repeat (apply andb_prop in Hp; destruct Hp as [Hp ?]).
  destruct (prefix (authority u)) eqn:Hpre; [ | discriminate Hp ].
  destruct (userinfo (authority u)) eqn:Hui; [ | discriminate ].
  destruct (host (authority u)) eqn:Hho; [ | discriminate ].
  destruct (port (authority u)) eqn:Hpo; [ | discriminate ].
  destruct (isIPv6 (ip (authority u))) eqn:H6; [ discriminate | ].
  cbv zeta. unfold WithHost. rewrite He.
  set (o := builderOptions opts (Z.lor flagValidateHost flagValidatePort)).
  assert (Hw : withEnsuredAuthority (authority u) = authority u).
  { unfold withEnsuredAuthority. rewrite Hui, Hho, Hpo. reflexivity. }
  rewrite Hw.
  set (u1 := setAuthority u (setHost (authority u) h)).
  assert (Hk : isIPv6 (fst (validate u1 o)) = false)
    by (apply validate_keeps_mark; exact H6).
  unfold propagated, validated.
  destruct (validate u1 o) as [t e]. cbn [fst] in Hk.
  destruct t as [t4 t6 tf]. cbn [isIPv6] in Hk. subst t6.
  destruct h as [|c h']; [ contradiction Hh; reflexivity | ].
  split; [ | split ].
  - cbn. exact Hpre.
  - rewrite String_rendering. unfold rendering. cbn.
    rewrite Hpre, Hui, Hpo. reflexivity.
  - unfold URI_Authority, withEnsuredAuthority, Authority_String, buildString,
      strings.WriteString, strings.WriteByte. cbn.
    rewrite ?Hui, ?Hpo. cbn. rewrite ?Hui, ?Hpo, ?app_nil_r. reflexivity.
Qed.

End FirstBuilder.

Lemma first_builder_leaves_prefix_empty_witness :
  let u := fst (@Parse modelled (str "http:") []) in
  let v := @WithHost modelled u (str "example.com") [] in
  String v = str "http:example.com"
  /\ Authority_String (URI_Authority v) = str "//example.com".
Proof.
  assert (He : Err (fst (@Parse modelled (str "http:") [])) = None)
    by (vm_compute; reflexivity).
  assert (Hp : pathOnly (authority (fst (@Parse modelled (str "http:") [])))
               = true) by (vm_compute; reflexivity).
  assert (Hh : str "example.com" <> []) by discriminate.
  destruct (@first_builder_leaves_prefix_empty modelled _ (str "example.com")
              [] He Hp Hh) as (_ & Hs & Ha).
  cbv zeta. split.
  - rewrite Hs. vm_compute. reflexivity.
  - rewrite Ha. vm_compute. reflexivity.
Defined.

(** ** The character sets *)

Section CharSetsAgree.
Context `{Extern}.

Lemma sameVerdict_eq a b : sameVerdict a b = true -> a = b.
Proof.
  destruct a as [x|]; destruct b as [y|]; try discriminate.
  cbn. intros He. apply Bool.eqb_prop in He. congruence.
Qed.

Lemma ascii_cases (P : Z -> bool) :
  forallb P (map Z.of_nat (seq 0 128)) = true ->
  forall r, 0 <= r < 128 -> P r = true.
Proof.
  intros Hall r Hr. rewrite forallb_forall in Hall. apply Hall.
  apply in_map_iff. exists (Z.to_nat r). split; [ lia | ].
  apply in_seq. lia.
Qed.

(** The bit set of each character set of the package holds exactly the ASCII
    runes that its rune function accepts, and the function is set: for
    every rune that decoding can give, [IsInSet] answers as the function
    does, and the nil function left by [Clone] is never called. *)
Theorem charSets_agree_with_rune_functions (r : rune) :
  0 <= r ->
  IsInSet unreservedAndSubDelimsCharSet r
  = Some (isUnreservedOrSubDelimsRune r)
  /\ IsInSet pcharCharSet r = Some (isPcharRune r)
  /\ IsInSet userInfoCharSet r = Some (isUserInfoRune r)
  /\ IsInSet queryOrFragmentCharSet r = Some (isQueryOrFragmentRune r).
Proof.
  intros Hpos.
  destruct (Z.lt_ge_cases r 128) as [Hlt | Hge].
  - repeat split; apply sameVerdict_eq;
      match goal with
      | |- sameVerdict (IsInSet ?c r) (Some (?f r)) = true =>
          apply (ascii_cases
                   (fun r => sameVerdict (IsInSet c r) (Some (f r))));
          [ vm_compute; reflexivity | lia ]
      end.
  - unfold IsInSet, utf8.RuneSelf.
    destruct (Z.ltb_spec r 128); [ lia | ]. repeat split.
Qed.

End CharSetsAgree.

Lemma charSets_agree_with_rune_functions_witness :
  @IsInSet (@pcharCharSet modelled) 0x3A = Some true
  /\ @IsInSet (@userInfoCharSet modelled) 0x40 = Some false.
Proof.
  destruct (@charSets_agree_with_rune_functions modelled 0x3A ltac:(lia))
    as (_ & Hp & _).
  destruct (@charSets_agree_with_rune_functions modelled 0x40 ltac:(lia))
    as (_ & _ & Hu & _).
  split; [ rewrite Hp | rewrite Hu ]; reflexivity.
Defined.

(** ** What one part accepts, another accepts *)

Section Nesting.
Context `{Extern}.

Lemma DecodeRuneInString_size c s :
  1 <= snd (utf8.DecodeRuneInString (c :: s)).
Proof.
  destruct (utf8.DecodeRuneInString (c :: s)) as [r size] eqn:Hd.
  unfold utf8.DecodeRuneInString in Hd. cbn [map] in Hd.
  apply DecodeRune_value in Hd. cbn [snd].
  destruct Hd as [(_ & _ & ->) | [(_ & ->) | (_ & sz & lo & hi & Hf & -> & _)]];
    [ lia | lia | ].
  apply first_cases in Hf. lia.
Qed.

(** Only the byte ['/'] decodes to the rune ['/']. *)
Lemma DecodeRuneInString_slash c s :
  fst (utf8.DecodeRuneInString (c :: s)) = b2z slashMark ->
  c = slashMark /\ snd (utf8.DecodeRuneInString (c :: s)) = 1.
Proof.
  destruct (Z.lt_ge_cases (b2z c) 0x80) as [Hlt | Hge].
  - rewrite (DecodeRune_ascii c s Hlt). cbn [fst snd]. intros Hc.
    split; [ apply b2z_inj, Hc | reflexivity ].
  - unfold utf8.DecodeRuneInString. cbn [map].
    pose proof (DecodeRune_nonascii (b2z c) (map b2z s) Hge) as Hr.
    intros Hs. rewrite Hs in Hr. vm_compute in Hr. contradiction Hr.
    reflexivity.
Qed.

Lemma slash_accepted_in_query t :
  validateUnreservedWithExtra (slashMark :: t) queryOrFragmentExtraRunes
  = validateUnreservedWithExtra t queryOrFragmentExtraRunes.
Proof.
  unfold validateUnreservedWithExtra.
  cbn [List.length validateUnreservedWithExtra_loop].
  rewrite DecodeRune_ascii by (vm_compute; reflexivity).
  change (from (slashMark :: t) 1) with t.
  reflexivity.
Qed.

Lemma pchar_in_query : incl pcharExtraRunes queryOrFragmentExtraRunes.
Proof. apply incl_appl, incl_refl. Qed.

Lemma segment_in_query s :
  validateUnreservedWithExtra s pcharExtraRunes = None ->
  validateUnreservedWithExtra s queryOrFragmentExtraRunes = None.
Proof. apply loop_incl, pchar_in_query. Qed.

(** The loop of [validatePath] on the runes from [pos] on, with a pending
    segment that starts at [previousPos]: when the loop and the final test
    pass, the query validator accepts the path from [previousPos] on. *)
Lemma validatePath_loop_query path : forall fuel pos previousPos final,
  0 <= previousPos <= pos ->
  (List.length (from path pos) <= fuel)%nat ->
  validatePath_loop path (rangeString_from fuel pos (from path pos))
    previousPos = inr final ->
  validateUnreservedWithExtra (from path final) queryOrFragmentExtraRunes
  = None ->
  validateUnreservedWithExtra (from path previousPos) queryOrFragmentExtraRunes
  = None.
Proof.
  induction fuel as [|fuel IH]; intros pos prev final Hpos Hfuel Hloop Hfin.
  { destruct (from path pos); [ | simpl in Hfuel; lia ].
    cbn in Hloop. injection Hloop as <-. exact Hfin. }
  destruct (from path pos) as [|c s'] eqn:Hs.
  { cbn in Hloop. injection Hloop as <-. exact Hfin. }
  cbn [rangeString_from] in Hloop.
  pose proof (DecodeRuneInString_size c s') as Hsize.
  pose proof (DecodeRuneInString_slash c s') as Hslash.
  destruct (utf8.DecodeRuneInString (c :: s')) as [r size].
  cbn [fst snd] in Hsize, Hslash. cbn [validatePath_loop] in Hloop.
  assert (Hnext : from (c :: s') size = from path (pos + size))
    by (rewrite <- Hs; apply from_from; lia).
  assert (Hlen : (List.length (from path (pos + size)) <= fuel)%nat).
  { rewrite <- Hnext. unfold from.
    replace (Z.to_nat size) with (S (Z.to_nat (size - 1))) by lia.
    cbn [skipn]. rewrite length_skipn. cbn [List.length] in Hfuel. lia. }
  rewrite Hnext in Hloop.
  destruct (Z.eqb_spec r (b2z slashMark)) as [Hr | Hr]; cbn [negb] in Hloop.
  2: { apply (IH (pos + size) prev final); [ lia | exact Hlen | exact Hloop | exact Hfin ]. }
  destruct (Hslash Hr) as [-> ->].
  assert (Htail : from path (pos + 1) = s').
  { rewrite <- (from_from path pos 1) by lia. rewrite Hs. reflexivity. }
  assert (Hcut : from path prev = slice path prev pos ++ slashMark :: s').
  { rewrite <- Hs, !from_slice.
    destruct (Z.le_gt_cases pos (len path)) as [Hle | Hgt].
    - symmetry. apply slice_cat; lia.
    - exfalso. unfold from in Hs. rewrite skipn_all2 in Hs;
        [ discriminate Hs | unfold len in Hgt; lia ]. }
  rewrite Hcut.
  destruct (Z.ltb_spec prev pos) as [Hlt | Hge].
  - destruct (validateUnreservedWithExtra (slice path prev pos) pcharExtraRunes)
      eqn:Hseg; [ discriminate Hloop | ].
    rewrite (accepted_then _ _ _ (segment_in_query _ Hseg)).
    rewrite slash_accepted_in_query, <- Htail.
    apply (IH (pos + 1) (pos + 1) final); [ lia | exact Hlen | exact Hloop | exact Hfin ].
  - replace prev with pos by lia. rewrite slice_empty. cbn [app].
    rewrite slash_accepted_in_query, <- Htail.
    apply (IH (pos + 1) (pos + 1) final); [ lia | exact Hlen | exact Hloop | exact Hfin ].
Qed.

(** A path that [validatePath] accepts, whatever the authority it comes
    with, is accepted as a query and as a fragment. *)
Theorem valid_path_is_valid_query (a : Authority) (p : gostring)
  (o o' : options) :
  validatePath a p o = None ->
  validateQuery p o' = None /\ validateFragment p o' = None.
Proof.
  intros Hp.
  assert (Hq : validateUnreservedWithExtra p queryOrFragmentExtraRunes = None).
  { unfold validatePath in Hp.
    destruct (_ && _) in Hp; [ discriminate Hp | ].
    destruct (validatePath_loop p (rangeString p) 0) as [e | final] eqn:Hloop;
      [ discriminate Hp | ].
    rewrite <- (from_0 p) at 1.
    apply (validatePath_loop_query p (List.length p) 0 0 final);
      [ lia | apply length_from_le | rewrite from_0; exact Hloop | ].
    destruct (Z.ltb_spec final (len p)) as [Hlt | Hge].
    - destruct (validateUnreservedWithExtra (from p final) pcharExtraRunes)
        eqn:Hseg; [ discriminate Hp | ].
      apply segment_in_query, Hseg.
    - unfold from. rewrite skipn_all2; [ reflexivity | unfold len in Hge; lia ]. }
  unfold validateQuery, validateFragment. rewrite Hq. split; reflexivity.
Qed.

Lemma loop_same_members (A B : list rune) :
  (forall r, existsb (Z.eqb r) A = existsb (Z.eqb r) B) ->
  forall fuel s,
    validateUnreservedWithExtra_loop fuel s A
    = validateUnreservedWithExtra_loop fuel s B.
Proof.
  intros Hm. induction fuel as [|fuel IH]; intros s.
  - destruct s; reflexivity.
  - destruct s as [|c s']; [ reflexivity | ].
    cbn [validateUnreservedWithExtra_loop].
    destruct (utf8.DecodeRuneInString (c :: s')) as [r size].
    rewrite (Hm r), IH.
    destruct (unescapePercentEncoding (from (c :: s') size)) as [[u off] e].
    rewrite IH. reflexivity.
Qed.

Lemma at_accepted_in_userinfo t :
  validateUnreservedWithExtra (atHost :: t) userInfoExtraRunes
  = validateUnreservedWithExtra t userInfoExtraRunes.
Proof.
  unfold validateUnreservedWithExtra.
  cbn [List.length validateUnreservedWithExtra_loop].
  rewrite DecodeRune_ascii by (vm_compute; reflexivity).
  change (from (atHost :: t) 1) with t.
  reflexivity.
Qed.

(** [userInfoExtraRunes] appends [':'] to the extra runes of a path
    segment, which hold it already, and keeps their ['@']: a userinfo is
    validated exactly as a path segment is, and ['@'] is accepted inside
    it, although [parseAuthority] ends the userinfo at the first ['@']. *)
Theorem userinfo_accepts_at_sign (s t : gostring) (o : options) :
  validateUserInfo s o
  = match validateUnreservedWithExtra s pcharExtraRunes with
    | Some err => Some (errorsJoin ErrInvalidUserInfo err)
    | None => None
    end
  /\ (validateUserInfo s o = None ->
      validateUserInfo (s ++ atHost :: t) o = validateUserInfo t o).
Proof.
  split.
  - unfold validateUserInfo, validateUnreservedWithExtra.
    rewrite (loop_same_members userInfoExtraRunes pcharExtraRunes);
      [ reflexivity | ].
    intros r. unfold userInfoExtraRunes, pcharExtraRunes.
    cbn [existsb app]. destruct (r =? b2z colonMark), (r =? b2z atHost);
      reflexivity.
  - unfold validateUserInfo. intros Hs.
    destruct (validateUnreservedWithExtra s userInfoExtraRunes) eqn:Hv;
      [ discriminate Hs | ].
    rewrite (accepted_then _ _ _ Hv), at_accepted_in_userinfo. reflexivity.
Qed.

End Nesting.

Lemma valid_path_is_valid_query_witness :
  @validateQuery modelled (str "/a:b/c%20d@e//f") packageLevelDefaults = None
  /\ @validateFragment modelled (str "/a:b/c%20d@e//f") packageLevelDefaults
     = None.
Proof.
  apply (@valid_path_is_valid_query modelled
           (fst (parseAuthority (str "//h/a:b/c%20d@e//f")
                   packageLevelDefaults))
           (str "/a:b/c%20d@e//f") packageLevelDefaults packageLevelDefaults).
  vm_compute. reflexivity.
Defined.

Lemma userinfo_accepts_at_sign_witness :
  @validateUserInfo modelled (str "user@name:pw") packageLevelDefaults = None.
Proof.
  destruct (@userinfo_accepts_at_sign modelled (str "user") (str "name:pw")
              packageLevelDefaults) as [_ Hat].
  change (str "user@name:pw") with (str "user" ++ atHost :: str "name:pw").
  rewrite Hat; vm_compute; reflexivity.
Defined.

(** ** Builders that do not validate the host *)

Section HostKind.
Context `{Extern}.

(** Without [flagValidateHost], [validate] returns the zero [ipType]. *)
Lemma validate_without_host_flag u o :
  flagSet o flagValidateHost = false -> fst (validate u o) = noIP.
Proof.
  intros Hf. unfold validate.
  repeat match goal with
         | |- context [match (if ?b then ?x else None) with _ => _ end] =>
             destruct (if b then x else None)
         end; try reflexivity.
  destruct (negb (isEmpty (hierPart u))); [ | reflexivity ].
  unfold validateForScheme. cbv zeta. rewrite Hf, andb_false_r.
  repeat match goal with
         | |- context [match (if ?b then ?x else None) with _ => _ end] =>
             destruct (if b then x else None)
         end; reflexivity.
Qed.

Lemma validated_without_host_flag u o :
  flagSet o flagValidateHost = false ->
  ip (authority (validated u o)) = noIP
  /\ String (validated u o) = renderingPlainHost u.
Proof.
  intros Hf. pose proof (validate_without_host_flag u o Hf) as Hv.
  unfold validated. destruct (validate u o) as [t e]. cbn [fst] in Hv.
  subst t. split; [ reflexivity | ].
  rewrite String_rendering. reflexivity.
Qed.

Lemma builder_flag_off opts flags :
  Z.land flags flagValidateHost = 0 ->
  flagSet (builderOptions opts flags) flagValidateHost = false.
Proof.
  intros Hz. unfold flagSet. rewrite builderOptions_flags, Hz. reflexivity.
Qed.

(** Every builder stores the [ipType] that its own validation returns, and
    only [WithScheme], [WithAuthority] and [WithHost] validate the host.
    The other builders reset the [ipType] of a value without error: if its
    host was an IPv6 literal, [String] no longer writes the brackets that
    [Parse] had read. *)
Theorem builders_forget_ip_literal (u : URI) (s : gostring)
  (opts : list Option) :
  Err u = None ->
  let a := withEnsuredAuthority (authority u) in
  String (WithQuery u s opts) = renderingPlainHost (setQuery u s)
  /\ String (WithFragment u s opts) = renderingPlainHost (setFragment u s)
  /\ String (WithUserInfo u s opts)
     = renderingPlainHost (setAuthority u (setUserinfo a s))
  /\ String (WithPort u s opts)
     = renderingPlainHost (setAuthority u (setPort a s))
  /\ String (WithPath u s opts)
     = renderingPlainHost (setAuthority u (setPath a s))
  /\ (forall elems,
        String (WithJoinPath u elems)
        = renderingPlainHost
            (setAuthority u (setPath a (path_Join (path a :: elems))))).
Proof.
  intros He. cbv zeta.
  unfold WithQuery, WithFragment, WithUserInfo, WithPort, WithPath,
    WithJoinPath. rewrite He.
  assert (Hp : forall v, String (propagated v) = String v).
  { intros v. rewrite !String_rendering. reflexivity. }
  repeat split; intros; rewrite ?Hp;
    apply validated_without_host_flag;
    first [ apply builder_flag_off; reflexivity
          | apply (builder_flag_off [] flagValidatePath); reflexivity ].
Qed.

End HostKind.

Lemma builders_forget_ip_literal_witness :
  let u := fst (@Parse modelled (str "http://[::1]:80/p") []) in
  String u = str "http://[::1]:80/p"
  /\ String (@WithFragment modelled u (str "x") []) = str "http://::1:80/p#x".
Proof.
  cbv zeta. split; [ vm_compute; reflexivity | ].
  assert (He : Err (fst (@Parse modelled (str "http://[::1]:80/p") [])) = None)
    by (vm_compute; reflexivity).
  destruct (@builders_forget_ip_literal modelled _ (str "x") [] He)
    as (_ & Hf & _).
  rewrite Hf. vm_compute. reflexivity.
Defined.

(** ** DNS names and registered names *)

Section Stricter.
Context `{Extern}.

Lemma length_from_lt s i :
  s <> [] -> 1 <= i -> (List.length (from s i) < List.length s)%nat.
Proof.
  intros Hs Hi. unfold from. rewrite length_skipn.
  destruct s; [ congruence | cbn [List.length]; lia ].
Qed.

Lemma from_empty_iff s i : 0 <= i -> (len s <=? i) = isEmpty (from s i).
Proof.
  intros Hi. unfold from, len.
  destruct (skipn (Z.to_nat i) s) eqn:Hk; cbn [isEmpty].
  - apply Z.leb_le. apply (f_equal (@List.length _)) in Hk.
    rewrite length_skipn in Hk. cbn in Hk. lia.
  - apply Z.leb_gt. apply (f_equal (@List.length _)) in Hk.
    rewrite length_skipn in Hk. cbn [List.length] in Hk. lia.
Qed.

(** A letter, a digit, ['-'] or ['.'] is accepted in a registered name. *)
Lemma accepted_in_registered_name r :
  unicode.IsLetter r || unicode.IsDigit r || (r =? 0x2D) || (r =? 0x2E) = true ->
  notUnreservedOrSubDelims r = false.
Proof.
  unfold notUnreservedOrSubDelims.
  destruct (unicode.IsLetter r), (unicode.IsDigit r), (r =? 0x2D),
    (r =? 0x2E); cbn; intros Ht; first [ reflexivity | discriminate Ht ].
Qed.

(** One turn of [validateUnreservedWithExtra] on an accepted rune. *)
Lemma registered_step_rune s r size :
  s <> [] -> utf8.DecodeRuneInString s = (r, size) ->
  r <> utf8.RuneError -> r <> b2z percentMark ->
  notUnreservedOrSubDelims r = false ->
  validateUnreservedWithExtra s [] = validateUnreservedWithExtra (from s size) [].
Proof.
  intros Hs Hd Hr Hp Hn. destruct s as [|c s']; [ congruence | ].
  pose proof (DecodeRuneInString_size c s') as Hsz. rewrite Hd in Hsz.
  cbn [snd] in Hsz.
  unfold validateUnreservedWithExtra.
  cbn [List.length validateUnreservedWithExtra_loop]. rewrite Hd.
  apply Z.eqb_neq in Hr, Hp. rewrite Hr, Hp, Hn. cbn [andb].
  apply loop_fuel; [ | apply Nat.le_refl ].
  pose proof (length_from_lt (c :: s') size ltac:(discriminate) Hsz) as Hl.
  cbn [List.length] in Hl. lia.
Qed.

(** One turn of [validateUnreservedWithExtra] on an escape. *)
Lemma registered_step_escape s size u n :
  s <> [] -> utf8.DecodeRuneInString s = (b2z percentMark, size) ->
  isEmpty (from s size) = false ->
  unescapePercentEncoding (from s size) = (u, n, None) ->
  validateUnreservedWithExtra s []
  = validateUnreservedWithExtra (from (from s size) n) [].
Proof.
  intros Hs Hd He Hu. destruct s as [|c s']; [ congruence | ].
  pose proof (DecodeRuneInString_size c s') as Hsz. rewrite Hd in Hsz.
  cbn [snd] in Hsz.
  unfold validateUnreservedWithExtra.
  cbn [List.length validateUnreservedWithExtra_loop]. rewrite Hd.
  change (b2z percentMark =? utf8.RuneError) with false.
  rewrite Z.eqb_refl, He, Hu.
  apply loop_fuel; [ | apply Nat.le_refl ].
  pose proof (length_from_lt (c :: s') size ltac:(discriminate) Hsz) as Hl.
  pose proof (length_from_le (from (c :: s') size) n).
  cbn [List.length] in Hl. lia.
Qed.

Lemma first_rune_registered s r off :
  s <> [] -> validateFirstRuneInSegment s = (r, off, None) ->
  1 <= off
  /\ validateUnreservedWithExtra s [] = validateUnreservedWithExtra (from s off) [].
Proof.
  intros Hs. unfold validateFirstRuneInSegment.
  destruct (utf8.DecodeRuneInString s) as [r0 size] eqn:Hd.
  assert (Hsz : 1 <= size).
  { destruct s as [|c s']; [ congruence | ].
    pose proof (DecodeRuneInString_size c s') as Hsz. rewrite Hd in Hsz.
    exact Hsz. }
  destruct (Z.eqb_spec r0 utf8.RuneError) as [He | He]; [ discriminate | ].
  destruct (Z.eqb_spec r0 (b2z dotSeparator)) as [Hdot | Hdot];
    [ discriminate | ].
  destruct (Z.eqb_spec r0 (b2z percentMark)) as [Hp | Hp].
  - subst r0. rewrite (from_empty_iff s size) by lia.
    destruct (isEmpty (from s size)) eqn:Hem; [ discriminate | ].
    destruct (unescapePercentEncoding (from s size)) as [[u n] [e|]] eqn:Hu;
      [ discriminate | ].
    destruct (unicode.IsLetter u); cbn [negb]; [ | discriminate ].
    intros Hq. injection Hq as <- <-.
    destruct (unescape_consumed _ _ _ Hu) as (_ & _ & _ & _ & Hn).
    split; [ lia | ].
    rewrite (registered_step_escape s size u n Hs Hd Hem Hu).
    rewrite from_from by lia. reflexivity.
  - destruct (unicode.IsLetter r0) eqn:Hl; cbn [negb]; [ | discriminate ].
    intros Hq. injection Hq as <- <-. split; [ exact Hsz | ].
    apply (registered_step_rune s r0 size Hs Hd He Hp).
    apply accepted_in_registered_name. rewrite Hl. reflexivity.
Qed.

Lemma turn_registered rest offset last :
  rest <> [] ->
  match validateHostSegment_turn rest offset last with
  | inl (_, _, Some _) => True
  | inl (r', off', None) =>
      r' = b2z dotSeparator /\ offset < off'
      /\ validateUnreservedWithExtra rest []
         = validateUnreservedWithExtra (from rest (off' - offset)) []
  | inr (rest', off', _) =>
      rest' = from rest (off' - offset) /\ offset < off'
      /\ validateUnreservedWithExtra rest []
         = validateUnreservedWithExtra rest' []
  end.
Proof.
  intros Hs. unfold validateHostSegment_turn.
  destruct (utf8.DecodeRuneInString rest) as [r0 size] eqn:Hd.
  assert (Hsz : 1 <= size).
  { destruct rest as [|c s']; [ congruence | ].
    pose proof (DecodeRuneInString_size c s') as Hsz. rewrite Hd in Hsz.
    exact Hsz. }
  destruct (Z.eqb_spec r0 utf8.RuneError) as [He | He]; [ exact I | ].
  cbv zeta.
  assert (Hafter : forall r n rest',
    rest' = from rest n -> 1 <= n ->
    validateUnreservedWithExtra rest [] = validateUnreservedWithExtra rest' [] ->
    match
      (if r =? b2z dotSeparator then
         if isEmpty rest' then
           inl (utf8.RuneError, 0, Some errEmptySegment)
         else if negb (unicode.IsLetter last) && negb (unicode.IsDigit last)
         then inl (utf8.RuneError, 0, Some errSegmentEnd)
         else inl (r, offset + n, None)
       else if maxSegmentLength <? offset + n then
         inl (utf8.RuneError, 0,
              Some (errDNS "a segment in a DNS name should not be longer than 63 bytes"))
       else if negb (unicode.IsLetter r) && negb (unicode.IsDigit r)
               && negb (r =? 0x2D) then
         inl (utf8.RuneError, 0,
              Some (errDNS "a segment in a DNS name must contain only letters, digits or '-'"))
       else inr (rest', offset + n, r))
    with
    | inl (_, _, Some _) => True
    | inl (r', off', None) =>
        r' = b2z dotSeparator /\ offset < off'
        /\ validateUnreservedWithExtra rest []
           = validateUnreservedWithExtra (from rest (off' - offset)) []
    | inr (rest'', off', _) =>
        rest'' = from rest (off' - offset) /\ offset < off'
        /\ validateUnreservedWithExtra rest []
           = validateUnreservedWithExtra rest'' []
    end).
  { intros r n rest' Hrest Hn Hreg.
    replace (offset + n - offset) with n by lia.
    destruct (Z.eqb_spec r (b2z dotSeparator)) as [Hdot | Hdot].
    - destruct (isEmpty rest'); [ exact I | ].
      destruct (negb (unicode.IsLetter last) && negb (unicode.IsDigit last));
        [ exact I | ].
      replace (offset + n - offset) with n by lia.
      rewrite <- Hrest. repeat split; [ exact Hdot | lia | exact Hreg ].
    - destruct (maxSegmentLength <? offset + n); [ exact I | ].
      destruct (negb (unicode.IsLetter r) && negb (unicode.IsDigit r)
                && negb (r =? 0x2D)); [ exact I | ].
      replace (offset + n - offset) with n by lia.
      repeat split; [ exact Hrest | lia | exact Hreg ]. }
  destruct (Z.eqb_spec r0 (b2z percentMark)) as [Hp | Hp].
  - subst r0. destruct (isEmpty (from rest size)) eqn:Hem; [ exact I | ].
    destruct (unescapePercentEncoding (from rest size)) as [[u n] [e|]] eqn:Hu;
      [ exact I | ].
    destruct (unescape_consumed _ _ _ Hu) as (_ & _ & _ & _ & Hn).
    replace (offset + size + n) with (offset + (size + n)) by lia.
    apply Hafter; [ rewrite from_from by lia; reflexivity | lia | ].
    apply (registered_step_escape rest size u n Hs Hd Hem Hu).
  - (* an unescaped rune: a dot, or a letter, digit or hyphen *)
    destruct (Z.eqb_spec r0 (b2z dotSeparator)) as [Hdot | Hdot].
    + destruct (isEmpty (from rest size)); [ exact I | ].
      destruct (negb (unicode.IsLetter last) && negb (unicode.IsDigit last));
        [ exact I | ].
      replace (offset + size - offset) with size by lia.
      repeat split; [ exact Hdot | lia | ].
      apply (registered_step_rune rest r0 size Hs Hd He Hp).
      apply accepted_in_registered_name. subst r0.
      rewrite !orb_true_r. reflexivity.
    + destruct (maxSegmentLength <? offset + size); [ exact I | ].
      destruct (negb (unicode.IsLetter r0) && negb (unicode.IsDigit r0)
                && negb (r0 =? 0x2D)) eqn:Hldh; [ exact I | ].
      replace (offset + size - offset) with size by lia.
      repeat split; [ lia | ].
      apply (registered_step_rune rest r0 size Hs Hd He Hp).
      apply accepted_in_registered_name.
      destruct (unicode.IsLetter r0), (unicode.IsDigit r0), (r0 =? 0x2D);
        cbn in Hldh |- *; first [ reflexivity | discriminate Hldh ].
Qed.

(** The segment loop walks through bytes that a registered name accepts;
    it stops after a dot or at the end of the input. *)
Lemma segment_loop_registered s : forall fuel rest offset last once,
  (List.length rest <= fuel)%nat -> 0 <= offset -> rest = from s offset ->
  match validateHostSegment_loop fuel rest offset last once with
  | (_, _, Some _) => True
  | (r', off', None) =>
      offset <= off'
      /\ validateUnreservedWithExtra rest []
         = validateUnreservedWithExtra (from s off') []
      /\ (r' = b2z dotSeparator \/ from s off' = [])
  end.
Proof.
  induction fuel as [|fuel IH]; intros rest offset last once Hfuel Hoff Hrest.
  { destruct rest; [ | simpl in Hfuel; lia ]. cbn [validateHostSegment_loop].
    unfold validateHostSegment_end.
    destruct (once && negb (unicode.IsLetter last)
              && negb (unicode.IsDigit last)); [ exact I | ].
    rewrite <- Hrest. repeat split; [ lia | right; reflexivity ]. }
  destruct rest as [|c rest0].
  { cbn [validateHostSegment_loop]. unfold validateHostSegment_end.
    destruct (once && negb (unicode.IsLetter last)
              && negb (unicode.IsDigit last)); [ exact I | ].
    rewrite <- Hrest. repeat split; [ lia | right; reflexivity ]. }
  cbn [validateHostSegment_loop].
  pose proof (turn_registered (c :: rest0) offset last ltac:(discriminate))
    as Hturn.
  destruct (validateHostSegment_turn (c :: rest0) offset last)
    as [[[r' off'] [e|]] | [[rest' off'] r]].
  - exact I.
  - destruct Hturn as (Hdot & Hlt & Hreg).
    rewrite Hrest, from_from in Hreg by lia.
    replace (offset + (off' - offset)) with off' in Hreg by lia.
    rewrite <- Hrest in Hreg.
    repeat split; [ lia | exact Hreg | left; exact Hdot ].
  - destruct Hturn as (Hrest' & Hlt & Hreg).
    assert (Hfrom : rest' = from s off').
    { rewrite Hrest', Hrest, from_from by lia. f_equal. lia. }
    assert (Hlen : (List.length rest' <= fuel)%nat).
    { pose proof (length_from_lt (c :: rest0) (off' - offset)
                    ltac:(discriminate) ltac:(lia)) as Hl.
      rewrite <- Hrest' in Hl. cbn [List.length] in Hfuel, Hl. lia. }
    specialize (IH rest' off' r true Hlen ltac:(lia) Hfrom).
    destruct (validateHostSegment_loop fuel rest' off' r true)
      as [[r'' off''] [e|]]; [ exact I | ].
    destruct IH as (Hle & Hreg' & Hend).
    repeat split; [ lia | congruence | exact Hend ].
Qed.

Lemma segment_registered s r consumed :
  s <> [] -> validateHostSegment s = (r, consumed, None) ->
  1 <= consumed
  /\ validateUnreservedWithExtra s []
     = validateUnreservedWithExtra (from s consumed) []
  /\ (r = b2z dotSeparator \/ from s consumed = []).
Proof.
  intros Hs. unfold validateHostSegment.
  destruct (validateFirstRuneInSegment s) as [[r0 off] [e|]] eqn:Hfirst;
    [ discriminate | ].
  destruct (first_rune_registered s r0 off Hs Hfirst) as (Hoff & Hreg).
  pose proof (segment_loop_registered s (List.length s) (from s off) off r0
                false (length_from_le s off) ltac:(lia) eq_refl) as Hloop.
  intros Hq. rewrite Hq in Hloop. destruct Hloop as (Hle & Hreg' & Hend).
  repeat split; [ lia | congruence | exact Hend ].
Qed.

Lemma host_loop_registered : forall fuel rest,
  (List.length rest <= fuel)%nat ->
  validateDNSHost_loop fuel rest = None ->
  validateUnreservedWithExtra rest [] = None.
Proof.
  induction fuel as [|fuel IH]; intros rest Hfuel.
  { destruct rest; [ reflexivity | simpl in Hfuel; lia ]. }
  destruct rest as [|c rest0]; [ reflexivity | ].
  cbn [validateDNSHost_loop].
  destruct (validateHostSegment (c :: rest0)) as [[r consumed] [e|]] eqn:Hseg;
    [ discriminate | ].
  destruct (segment_registered (c :: rest0) r consumed ltac:(discriminate) Hseg)
    as (Hpos & Hreg & Hend).
  rewrite Hreg.
  destruct (Z.eqb_spec r (b2z dotSeparator)) as [Hdot | Hdot]; cbn [negb].
  - apply IH.
    pose proof (length_from_lt (c :: rest0) consumed ltac:(discriminate) Hpos)
      as Hl.
    cbn [List.length] in Hfuel, Hl. lia.
  - intros _. destruct Hend as [Hd | ->]; [ contradiction | reflexivity ].
Qed.

(** A host that the DNS rules accept is accepted as a registered name, so
    the second validation of [validateHostForScheme] never fails for a
    scheme with DNS host names: there, the verdict is the one of
    [validateDNSHostForScheme], and a host accepted for such a scheme is
    accepted for every scheme. *)
Theorem dns_host_is_registered_name (host scheme : gostring) (o : options) :
  UsesDNSHostValidation scheme = true ->
  validateHostForScheme host scheme o = validateDNSHostForScheme host
  /\ (validateDNSHostForScheme host = None ->
      forall scheme' o', validateHostForScheme host scheme' o' = None).
Proof.
  intros Hdns.
  assert (Hreg : validateDNSHostForScheme host = None ->
                 forall o', validateRegisteredHostForScheme host o' = None).
  { intros Hv o'. unfold validateRegisteredHostForScheme.
    unfold validateDNSHostForScheme in Hv.
    destruct (maxDomainLength <? len host); [ discriminate Hv | ].
    destruct (len host =? 0); [ discriminate Hv | ].
    rewrite (host_loop_registered _ _ (le_n _) Hv). reflexivity. }
  split.
  - unfold validateHostForScheme. rewrite Hdns.
    destruct (validateDNSHostForScheme host) eqn:Hv; [ reflexivity | ].
    apply Hreg. reflexivity.
  - intros Hv scheme' o'. unfold validateHostForScheme.
    destruct (UsesDNSHostValidation scheme'); rewrite ?Hv; apply Hreg, Hv.
Qed.

End Stricter.

Lemma dns_host_is_registered_name_witness :
  @validateHostForScheme modelled (str "www.example.com") (str "urn")
    packageLevelDefaults = None.
Proof.
  apply (proj2 (@dns_host_is_registered_name modelled (str "www.example.com")
                  (str "https") packageLevelDefaults eq_refl)).
  vm_compute. reflexivity.
Defined.
